(** * CCManager: the task dispatch and lifecycle engine

    A shallow embedding of the TypeScript modules that make up the core of
    CCManager, and the properties its specification states about them:

    - JavaScript numbers               doubles, [Math], [toString] (Modules [Number], [Math])
    - [models/task.ts]                 the [Task] record          (Module [Task])
    - [services/history-service.ts]    the history sink           (Module [History])
    - [services/process-spawner.ts]    the process supervisor     (Module [Spawner])
    - [services/task-manager.ts]       the lifecycle engine       (Module [Manager])
    - [services/project-service.ts]    the project inventory      (Module [Inventory])
    - [server/routes/tasks.ts]         the HTTP interface         (Module [Routes])

    Conventions of the embedding.
    - A JavaScript [number] that carries a budget is an IEEE 754 double
      (Module [Number]): not-a-number, an infinity, or a finite double, with
      the product rounded to nearest, ties to even.  Dates are milliseconds
      ([Z]).
    - [string | undefined] is [option string]; [number | null] is [option Z];
      an integer is printed in decimal.
    - A task id is produced by [uuidv4()].  The only things the code does
      with an id are to compare it and to use it as a map key, so an id is
      modelled by the serial number of the [uuidv4()] call that made it.
    - Every [await] of the source is a point where other handlers may run.
      The engine is therefore a transition system: one transition is the
      code that runs between two suspension points. *)

From Stdlib Require Import ZArith QArith Qround Lia.
From stdpp Require Import base list sorting strings pretty.

Local Open Scope Z_scope.

(** ** JavaScript numbers

    The values of type [number]: IEEE 754 doubles.  Every finite double is
    a whole multiple of [2^-1074], the smallest positive double, and [fin n]
    is the number [n * 2^-1074].  So [1] is [fin (2^1074)], a finite double
    has [|n| < 2^2098], and [n] has at most 53 significant bits.  The two
    zeros are one value, [fin 0]: nothing below tells them apart. *)

Module Number.

Inductive t :=
| NaN
| Infinity (negative : bool)
| fin (n : Z).

Definition unit_pos : positive := (2 ^ 1074)%positive.

(** The number 1, in multiples of [2^-1074]. *)
Definition unit : Z := Z.pos unit_pos.

(** [2^1024], the first magnitude that is too large for a double. *)
Definition overflow : Z := 2 ^ 2098.

(** The double of an integer (exact up to [2^53]). *)
Definition of_Z (z : Z) : t := fin (z * unit).

(** The rational that [fin n] stands for. *)
Definition exact (n : Z) : Q := n # unit_pos.

Definition sign (n : Z) : bool := n <? 0.

(** [N / 2^k] rounded to the nearest integer, a tie to the even one. *)
Definition nearest_even (N k : Z) : Z :=
  let q := N / 2 ^ k in
  let r := N mod 2 ^ k in
  match 2 * r ?= 2 ^ k with
  | Lt => q
  | Gt => q + 1
  | Eq => if Z.even q then q else q + 1
  end.

(** [N / 2^low] rounded to a number with at most 53 significant bits that
    is a whole number of units: all bits of [N] below the 53 leading ones
    are dropped, and at least the lowest [low] bits. *)
Definition round (low N : Z) : Z :=
  let k := Z.max low (Z.log2 N + 1 - 53) in
  nearest_even N k * 2 ^ (k - low).

(** The number of low bits that [round 0] drops from [N]. *)
Definition dropped (N : Z) : Z := Z.max 0 (Z.log2 N + 1 - 53).

(** A rounded magnitude with its sign: beyond the largest double it is an
    infinity. *)
Definition pack (negative : bool) (n : Z) : t :=
  if overflow <=? n then Infinity negative
  else fin (if negative then - n else n).

(** [x * y]: the exact product, rounded.  The exact product of [fin n]
    and [fin n'] is [n * n'] in multiples of [2^-2148]. *)
Definition mul (x y : t) : t :=
  match x, y with
  | NaN, _ | _, NaN => NaN
  | Infinity s, Infinity s' => Infinity (xorb s s')
  | Infinity s, fin n | fin n, Infinity s =>
      if n =? 0 then NaN else Infinity (xorb s (sign n))
  | fin n, fin n' =>
      pack (xorb (sign n) (sign n')) (round 1074 (Z.abs n * Z.abs n'))
  end.

(** [x <= y] *)
Definition le (x y : t) : Prop :=
  match x, y with
  | NaN, _ | _, NaN => False
  | Infinity true, _ => True
  | _, Infinity false => True
  | fin a, fin b => a ≤ b
  | _, _ => False
  end.

(** A number whose value is a whole number, as [Math.ceil] returns them. *)
Inductive integral :=
| not_a_number
| infinite (negative : bool)
| integer (z : Z).

Definition le_integral (x y : integral) : Prop :=
  match x, y with
  | not_a_number, _ | _, not_a_number => False
  | infinite true, _ => True
  | _, infinite false => True
  | integer a, integer b => a ≤ b
  | _, _ => False
  end.

(** *** Number.prototype.toString, for whole numbers

    A whole number up to [2^53] is printed with all its digits.  Above,
    doubles are two or more apart and the digits printed are the shortest
    that still denote the number. *)

(** Number of decimal digits of a positive integer. *)
Definition digits (v : Z) : Z := Z.of_nat (String.length (pretty v)).

(** Does the decimal [x] denote the double [v > 2^53]?  [v] is [m * 2^e]
    with [2^52 <= m < 2^53]; the next double above is [2^e] away, the next
    below [2^e], or [2^(e-1)] when [m = 2^52]; the numbers that are rounded
    to [v] lie within half of these distances, the ends included when [m]
    is even. *)
Definition denotes (v x : Z) : bool :=
  let e := Z.log2 v - 52 in
  let m := v / 2 ^ e in
  let above := 2 ^ e in
  let below := if m =? 2 ^ 52 then 2 ^ (e - 1) else 2 ^ e in
  if Z.even m
  then (2 * v - below <=? 2 * x) && (2 * x <=? 2 * v + above)
  else (2 * v - below <? 2 * x) && (2 * x <? 2 * v + above).

(** The integers [n], [k], [s] of [Number::toString]: [s] has [k] digits,
    [s * 10^(n-k)] denotes [v], and [k] is as small as possible; of two
    such [s], the one nearer to [v]. *)
Fixpoint shortest_from (fuel : nat) (v n k : Z) : Z * Z * Z :=
  let p := 10 ^ (n - k) in
  let s := v / p in
  let low := denotes v (s * p) in
  let high := (s + 1 <? 10 ^ k) && denotes v ((s + 1) * p) in
  let nearer :=
    match v - s * p ?= (s + 1) * p - v with
    | Lt => s
    | Gt => s + 1
    | Eq => if Z.even s then s else s + 1
    end in
  if low && high then (n, k, nearer)
  else if low then (n, k, s)
  else if high then (n, k, s + 1)
  else match fuel with
       | O => (n, k, s)
       | S fuel' => shortest_from fuel' v n (k + 1)
       end.

Definition shortest (v : Z) : Z * Z * Z :=
  let n := digits v in
  if denotes v (10 ^ n) then (n + 1, 1, 1)
  else shortest_from (Z.to_nat n) v n 1.

Definition zeros (n : Z) : string :=
  String.concat "" (replicate (Z.to_nat n) "0").

(** The text for [n], [k], [s] with [k <= n]: the digits of [s] and
    [n - k] zeros up to 21 digits, the exponent form above. *)
Definition format (r : Z * Z * Z) : string :=
  let '(n, k, s) := r in
  let ds := pretty s in
  if n <=? 21 then ds +:+ zeros (n - k)
  else match ds with
       | String c rest =>
           String c (match rest with
                     | EmptyString => ""
                     | _ => "." +:+ rest
                     end)
           +:+ "e+" +:+ pretty (n - 1)
       | EmptyString => ""
       end.

Definition toString (y : integral) : string :=
  match y with
  | not_a_number => "NaN"
  | infinite false => "Infinity"
  | infinite true => "-Infinity"
  | integer z =>
      if Z.abs z <=? 2 ^ 53 then pretty z
      else (if z <? 0 then "-" else "") +:+ format (shortest (Z.abs z))
  end.

End Number.

Module Math.

(** [Math.ceil(x)] *)
Definition ceil (x : Number.t) : Number.integral :=
  match x with
  | Number.NaN => Number.not_a_number
  | Number.Infinity s => Number.infinite s
  | Number.fin n => Number.integer (- ((- n) / Number.unit))
  end.

(** [Math.max(a, y)] for a whole number [a]. *)
Definition max (a : Z) (y : Number.integral) : Number.integral :=
  match y with
  | Number.not_a_number => Number.not_a_number
  | Number.infinite false => Number.infinite false
  | Number.infinite true => Number.integer a
  | Number.integer z => Number.integer (Z.max a z)
  end.

End Math.

(** ** models/task.ts *)

Abbreviation TaskId := nat.

Inductive TaskStatus := pending | running | completed | failed | cancelled.

Module Task.
Record t := mk {
  id : TaskId;
  projectId : string;
  prompt : string;
  status : TaskStatus;
  maxBudget : option Number.t;
  createdAt : Z;
  startedAt : option Z;
  completedAt : option Z;
  costUsd : option Number.t;
  durationMs : option Z;
  output : string;
  error : option string
}.

Definition set_status (s : TaskStatus) (x : t) : t :=
  mk (id x) (projectId x) (prompt x) s (maxBudget x) (createdAt x)
     (startedAt x) (completedAt x) (costUsd x) (durationMs x) (output x) (error x).
Definition set_startedAt (d : Z) (x : t) : t :=
  mk (id x) (projectId x) (prompt x) (status x) (maxBudget x) (createdAt x)
     (Some d) (completedAt x) (costUsd x) (durationMs x) (output x) (error x).
Definition set_completedAt (d : Z) (x : t) : t :=
  mk (id x) (projectId x) (prompt x) (status x) (maxBudget x) (createdAt x)
     (startedAt x) (Some d) (costUsd x) (durationMs x) (output x) (error x).
Definition set_durationMs (d : Z) (x : t) : t :=
  mk (id x) (projectId x) (prompt x) (status x) (maxBudget x) (createdAt x)
     (startedAt x) (completedAt x) (costUsd x) (Some d) (output x) (error x).
Definition set_output (o : string) (x : t) : t :=
  mk (id x) (projectId x) (prompt x) (status x) (maxBudget x) (createdAt x)
     (startedAt x) (completedAt x) (costUsd x) (durationMs x) o (error x).
Definition set_error (e : string) (x : t) : t :=
  mk (id x) (projectId x) (prompt x) (status x) (maxBudget x) (createdAt x)
     (startedAt x) (completedAt x) (costUsd x) (durationMs x) (output x) (Some e).
End Task.

Record CreateTaskInput := {
  input_projectId : string;
  input_prompt : string;
  input_maxBudget : option Number.t
}.

Definition is_terminal (s : TaskStatus) : bool :=
  match s with
  | completed | failed | cancelled => true
  | pending | running => false
  end.

(** JavaScript truthiness of an optional string: [undefined] and the empty
    string are falsy. *)
Definition truthy_string (s : option string) : bool :=
  match s with
  | Some EmptyString | None => false
  | Some _ => true
  end.

(** JavaScript truthiness of an optional number: [undefined], [0] and
    [NaN] are falsy. *)
Definition truthy_number (b : option Number.t) : bool :=
  match b with
  | Some Number.NaN | Some (Number.fin 0) | None => false
  | Some _ => true
  end.

(** ** services/history-service.ts *)

Module History.

Record TaskHistory := {
  tasks : list Task.t;
  lastUpdated : Z
}.

(** The file [data/task-history.json]: [None] when it does not exist or
    does not parse. *)
Definition HistoryFile := option TaskHistory.

(** [tasks.findIndex((t) => t.id === id)], with [None] for [-1]. *)
Definition findIndex (taskId : TaskId) (ts : list Task.t) : option nat :=
  fst <$> list_find (λ t, Task.id t = taskId) ts.

(** [Array.prototype.slice(-n)]: the last [n] elements. *)
Definition slice_last {A} (n : nat) (l : list A) : list A :=
  drop (length l - n) l.

Definition loadHistory (file : HistoryFile) (now : Z) : TaskHistory :=
  match file with
  | Some h => h
  | None => {| tasks := []; lastUpdated := now |}
  end.

Definition saveHistory (h : TaskHistory) (now : Z) : HistoryFile :=
  Some {| tasks := tasks h; lastUpdated := now |}.

(** The first [if] of [addTaskToHistory]: overwrite the entry found by
    [findIndex], or push. *)
Definition upsert (ts : list Task.t) (task : Task.t) : list Task.t :=
  match findIndex (Task.id task) ts with
  | Some existingIndex => <[existingIndex := task]> ts
  | None => ts ++ [task]
  end.

(** The second [if]: keep only the last 100 tasks.  This is the list held
    by [history.tasks] when [saveHistory] is reached. *)
Definition put (ts : list Task.t) (task : Task.t) : list Task.t :=
  let ts1 := upsert ts task in
  if decide (100 < length ts1)%nat then slice_last 100 ts1 else ts1.

Definition addTaskToHistory (file : HistoryFile) (task : Task.t) (now : Z)
  : HistoryFile :=
  let history := loadHistory file now in
  saveHistory {| tasks := put (tasks history) task;
                 lastUpdated := lastUpdated history |} now.

(** What a later [loadHistory] reads back. *)
Definition persisted (file : HistoryFile) : list Task.t :=
  match file with
  | Some h => tasks h
  | None => []
  end.

(** Number of entries that carry a given id. *)
Definition count_id (taskId : TaskId) (ts : list Task.t) : nat :=
  length (filter (λ t, Task.id t = taskId) ts).

(** The histories the service maintains: ids are pairwise distinct and
    there are at most 100 entries. *)
Definition well_formed (ts : list Task.t) : Prop :=
  NoDup (Task.id <$> ts) ∧ (length ts ≤ 100)%nat.

(** The file after a series of [addTaskToHistory] calls. *)
Definition after_calls (file : HistoryFile) (calls : list (Task.t * Z))
  : HistoryFile :=
  foldl (λ f c, addTaskToHistory f c.1 c.2) file calls.

(** [getCompletedTasks]: the entries whose status is completed, failed or
    cancelled, in the order of the file. *)
Definition getCompletedTasks (file : HistoryFile) (now : Z) : list Task.t :=
  filter (λ t, is_terminal (Task.status t) = true) (tasks (loadHistory file now)).

End History.

(** ** services/process-spawner.ts *)

Module Spawner.

Record SpawnOptions := {
  cwd : string;
  prompt : string;
  maxBudget : option Number.t
}.

(** Node's [ChildProcess], as far as the supervisor uses it.  [killed] is
    Node's property of that name: it is set by a [kill()] that delivered
    its signal and by nothing else.  [handle_open] is Node's internal
    handle: open from [spawn] until the child has exited or has failed to
    spawn. *)
Record ChildProcess := {
  spawnfile : string;
  spawnargs : list string;
  spawncwd : string;
  killed : bool;
  handle_open : bool
}.

(** What Node reports about the child: data on its two pipes, its exit,
    and the ['error'] event of a child that could not be spawned. *)
Inductive ChildEvent :=
| stdout_data (data : string)
| stderr_data (data : string)
| child_exit (code : option Z) (signal : option string)
| child_error (message : string).

(** The events of the [ProcessEvents] interface. *)
Inductive ProcessEvent :=
| ev_output (data : string)
| ev_error (data : string)
| ev_exit (code : option Z) (signal : option string).

Record ClaudeProcess := {
  options : SpawnOptions;
  process : option ChildProcess;
  output : string;
  errorOutput : string
}.

Definition new (o : SpawnOptions) : ClaudeProcess :=
  {| options := o; process := None; output := ""; errorOutput := "" |}.

(** [Math.max(25, Math.ceil(maxBudget * 10))] *)
Definition max_turns (b : Number.t) : Number.integral :=
  Math.max 25 (Math.ceil (Number.mul b (Number.of_Z 10))).

(** The argument vector built by [start]. *)
Definition build_args (o : SpawnOptions) : list string :=
  ["-p"; prompt o; "--dangerously-skip-permissions"]
  ++ (match maxBudget o with
      | Some b => if truthy_number (Some b)
                  then ["--max-turns"; Number.toString (max_turns b)]
                  else []
      | None => []
      end)
  ++ ["--verbose"].

(** The child process that [spawn("claude", args, { cwd, env, stdio })]
    returns, when it returns. *)
Definition spawn (file : string) (args : list string) (dir : string)
  : ChildProcess :=
  {| spawnfile := file; spawnargs := args; spawncwd := dir;
     killed := false; handle_open := true |}.

(** [start()] on a call of [spawn] that returns; [start_on] below is
    [start()] with the call that throws. *)
Definition start (cp : ClaudeProcess) : ClaudeProcess :=
  {| options := options cp;
     process := Some (spawn "claude" (build_args (options cp)) (cwd (options cp)));
     output := output cp;
     errorOutput := errorOutput cp |}.

(** [spawnClaude(options)], likewise. *)
Definition spawnClaude (o : SpawnOptions) : ClaudeProcess := start (new o).

(** How the call of Node's [spawn] in [start()] ends.  For a missing or
    unreadable executable Node still returns a child process and reports
    the failure later, through the ['error'] event of that child
    ([child_error] below); for other failures of the system call, and
    for arguments it refuses, [spawn] throws. *)
Inductive SpawnOutcome :=
  | spawn_returns
  | spawn_throws (message : string).

(** How a call ends. *)
Inductive Completion (A : Type) :=
  | returned (a : A)
  | threw (message : string).
Arguments returned {A} a.
Arguments threw {A} message.

(** [start()] under either outcome.  The call of [spawn] stands in no
    [try] block, and it comes before [this.process] is assigned and
    before any listener is installed: an error thrown by [spawn] leaves
    [start()] at once, and the object stays as it was. *)
Definition start_on (node : SpawnOutcome) (cp : ClaudeProcess)
  : Completion ClaudeProcess :=
  match node with
  | spawn_returns => returned (start cp)
  | spawn_throws message => threw message
  end.

Definition spawnClaude_on (node : SpawnOutcome) (o : SpawnOptions)
  : Completion ClaudeProcess := start_on node (new o).

(** Node's side of an event: an exit or a failed spawn closes the handle. *)
Definition node_settle (ev : ChildEvent) (c : ChildProcess) : ChildProcess :=
  match ev with
  | child_exit _ _ | child_error _ =>
      {| spawnfile := spawnfile c; spawnargs := spawnargs c;
         spawncwd := spawncwd c; killed := killed c; handle_open := false |}
  | stdout_data _ | stderr_data _ => c
  end.

(** Node's [subprocess.kill(signal)]: with an open handle the signal is
    delivered and [killed] becomes true; otherwise nothing happens. *)
Definition node_kill (c : ChildProcess) : ChildProcess :=
  if handle_open c
  then {| spawnfile := spawnfile c; spawnargs := spawnargs c;
          spawncwd := spawncwd c; killed := true; handle_open := true |}
  else c.

(** The four listeners installed by [start], applied to one event of the
    child: the new supervisor and the events it emits, in order, to a
    caller that listens to all three kinds (as the engine does; an
    [EventEmitter] throws on an ["error"] that nobody listens to). *)
Definition on_child (ev : ChildEvent) (cp : ClaudeProcess)
  : ClaudeProcess * list ProcessEvent :=
  match process cp with
  | None => (cp, [])
  | Some c =>
      let c' := Some (node_settle ev c) in
      match ev with
      | stdout_data str =>
          ({| options := options cp; process := c';
              output := output cp +:+ str; errorOutput := errorOutput cp |},
           [ev_output str])
      | stderr_data str =>
          ({| options := options cp; process := c';
              output := output cp; errorOutput := errorOutput cp +:+ str |},
           [ev_error str])
      | child_exit code signal =>
          ({| options := options cp; process := c';
              output := output cp; errorOutput := errorOutput cp |},
           [ev_exit code signal])
      | child_error message =>
          ({| options := options cp; process := c';
              output := output cp; errorOutput := errorOutput cp |},
           [ev_error message; ev_exit (Some 1) None])
      end
  end.

Definition kill (cp : ClaudeProcess) : ClaudeProcess :=
  match process cp with
  | Some c =>
      if negb (killed c)
      then {| options := options cp; process := Some (node_kill c);
              output := output cp; errorOutput := errorOutput cp |}
      else cp
  | None => cp
  end.

Definition getOutput (cp : ClaudeProcess) : string := output cp.
Definition getErrorOutput (cp : ClaudeProcess) : string := errorOutput cp.

Definition isRunning (cp : ClaudeProcess) : bool :=
  match process cp with
  | Some c => negb (killed c)
  | None => false
  end.

(** A whole life of one child, as Node delivers it: either the child ran,
    wrote some chunks and exited (with a code or by a signal), or it could
    not be spawned. *)
Inductive Chunk := to_stdout (data : string) | to_stderr (data : string).

Inductive ChildRun :=
| ran (chunks : list Chunk) (code : option Z) (signal : option string)
| spawn_failed (message : string).

Definition chunk_event (c : Chunk) : ChildEvent :=
  match c with
  | to_stdout d => stdout_data d
  | to_stderr d => stderr_data d
  end.

Definition child_events (r : ChildRun) : list ChildEvent :=
  match r with
  | ran chunks code signal => (chunk_event <$> chunks) ++ [child_exit code signal]
  | spawn_failed message => [child_error message]
  end.

(** Feed a sequence of child events to the supervisor, collecting what it
    emits. *)
Fixpoint deliver (evs : list ChildEvent) (cp : ClaudeProcess)
  : ClaudeProcess * list ProcessEvent :=
  match evs with
  | [] => (cp, [])
  | ev :: evs' =>
      let '(cp1, out1) := on_child ev cp in
      let '(cp2, out2) := deliver evs' cp1 in
      (cp2, out1 ++ out2)
  end.

Definition is_exit (e : ProcessEvent) : bool :=
  match e with
  | ev_exit _ _ => true
  | _ => false
  end.

Definition exit_count (es : list ProcessEvent) : nat :=
  length (filter (λ e, is_exit e = true) es).

(** The data that a series of chunks carries on each pipe, and the text a
    buffer holds after [+=] of each piece in turn. *)
Definition stdout_chunks (chunks : list Chunk) : list string :=
  omap (λ c, match c with to_stdout d => Some d | to_stderr _ => None end) chunks.

Definition stderr_chunks (chunks : list Chunk) : list string :=
  omap (λ c, match c with to_stderr d => Some d | to_stdout _ => None end) chunks.

Definition appended (buffer : string) (pieces : list string) : string :=
  foldl (λ acc d, acc +:+ d) buffer pieces.

Definition chunk_emitted (c : Chunk) : ProcessEvent :=
  match c with
  | to_stdout d => ev_output d
  | to_stderr d => ev_error d
  end.

End Spawner.

(** ** services/task-manager.ts *)

Module Manager.

Definition MAX_CONCURRENT_TASKS : nat := 3.

(** Of a [Project] the engine reads only [path]. *)
Record Project := {
  project_id : string;
  path : string
}.

Abbreviation ProcId := nat.

(** An event holds a reference to the task object, not a copy of it; the
    reference is the task's address in [heap], which is also its id. *)
Inductive TaskEvent :=
| task_created (task : TaskId)
| task_started (task : TaskId)
| task_output (taskId : TaskId) (output : string)
| task_completed (task : TaskId)
| task_failed (task : TaskId)
| task_cancelled (task : TaskId).

(** A [ClaudeProcess] together with the [task] captured by the three
    listeners that [startTask] installs on it. *)
Record Supervised := {
  owner : TaskId;
  supervisor : Spawner.ClaudeProcess
}.

(** The continuations that are waiting at an [await]. *)
Inductive Suspended :=
| startTask_lookup (task : TaskId)
    (* processQueue, inside startTask: await getProjectById(task.projectId) *)
| startTask_history (task : TaskId)
    (* processQueue, inside startTask: await addTaskToHistory(task) *)
| processQueue_resume
    (* processQueue: the awaited startTask(task) has returned *)
| exit_history (task : TaskId).
    (* exit listener: await addTaskToHistory(task) *)

Record State := mkState {
  heap : list Task.t;
    (* every Task object created so far; the object with id i is heap[i] *)
  pendingTasks : list TaskId;
  runningTasks : list (TaskId * ProcId);
    (* the Map, as its entries in insertion order *)
  procs : list Supervised;
    (* every ClaudeProcess spawned so far *)
  events : list TaskEvent;
    (* what emit("event", ...) has sent, oldest first *)
  historyCalls : list Task.t;
    (* the arguments of the addTaskToHistory calls, as they were then *)
  suspended : list Suspended
}.

Definition init : State := mkState [] [] [] [] [] [] [].

Definition set_heap (h : list Task.t) (st : State) : State :=
  mkState h (pendingTasks st) (runningTasks st) (procs st) (events st)
          (historyCalls st) (suspended st).
Definition set_pendingTasks (q : list TaskId) (st : State) : State :=
  mkState (heap st) q (runningTasks st) (procs st) (events st)
          (historyCalls st) (suspended st).
Definition set_runningTasks (m : list (TaskId * ProcId)) (st : State) : State :=
  mkState (heap st) (pendingTasks st) m (procs st) (events st)
          (historyCalls st) (suspended st).
Definition set_procs (ps : list Supervised) (st : State) : State :=
  mkState (heap st) (pendingTasks st) (runningTasks st) ps (events st)
          (historyCalls st) (suspended st).
Definition set_events (es : list TaskEvent) (st : State) : State :=
  mkState (heap st) (pendingTasks st) (runningTasks st) (procs st) es
          (historyCalls st) (suspended st).
Definition set_historyCalls (hs : list Task.t) (st : State) : State :=
  mkState (heap st) (pendingTasks st) (runningTasks st) (procs st) (events st)
          hs (suspended st).
Definition set_suspended (ks : list Suspended) (st : State) : State :=
  mkState (heap st) (pendingTasks st) (runningTasks st) (procs st) (events st)
          (historyCalls st) ks.

(** *** The JavaScript [Map] *)

Definition map_get (k : TaskId) (m : list (TaskId * ProcId)) : option ProcId :=
  (λ r, r.2.2) <$> list_find (λ e, e.1 = k) m.

Definition map_set (k : TaskId) (v : ProcId) (m : list (TaskId * ProcId))
  : list (TaskId * ProcId) :=
  match list_find (λ e, e.1 = k) m with
  | Some (i, _) => <[i := (k, v)]> m
  | None => m ++ [(k, v)]
  end.

Definition map_delete (k : TaskId) (m : list (TaskId * ProcId))
  : list (TaskId * ProcId) :=
  filter (λ e, e.1 ≠ k) m.

Definition map_size (m : list (TaskId * ProcId)) : nat := length m.

(** *** Small steps shared by the methods *)

(** [this.emit("event", e)] *)
Definition emit (e : TaskEvent) (st : State) : State :=
  set_events (events st ++ [e]) st.

(** An assignment to fields of the task object at [task]. *)
Definition mutate (task : TaskId) (f : Task.t → Task.t) (st : State) : State :=
  set_heap (alter f task (heap st)) st.

(** [addTaskToHistory(task)] is called; the write itself is awaited (or
    left floating) by the caller. *)
Definition call_addTaskToHistory (task : TaskId) (st : State) : State :=
  match heap st !! task with
  | Some obj => set_historyCalls (historyCalls st ++ [obj]) st
  | None => st
  end.

Definition suspend (k : Suspended) (st : State) : State :=
  set_suspended (suspended st ++ [k]) st.

Definition unsuspend (i : nat) (st : State) : State :=
  set_suspended (delete i (suspended st)) st.

(** *** processQueue

    One turn of the [while] loop.  When the condition holds the head of
    the queue is shifted out and [startTask] is entered, which suspends at
    once on the project lookup; the loop goes on when that call has
    returned ([processQueue_resume]). *)
Definition processQueue (st : State) : State :=
  match pendingTasks st with
  | task :: rest =>
      if decide (map_size (runningTasks st) < MAX_CONCURRENT_TASKS)%nat
      then suspend (startTask_lookup task) (set_pendingTasks rest st)
      else st
  | [] => st
  end.

(** *** createTask

    [project] is the answer of the awaited [getProjectById]; nothing is
    read or written before that answer arrives. *)
Definition new_task (id : TaskId) (input : CreateTaskInput) (now : Z) : Task.t :=
  Task.mk id (input_projectId input) (input_prompt input) pending
          (input_maxBudget input) now None None None None "" None.

Definition push_pending (task : Task.t) (st : State) : State :=
  set_pendingTasks (pendingTasks st ++ [Task.id task])
    (set_heap (heap st ++ [task]) st).

Definition createTask (input : CreateTaskInput) (project : option Project)
    (now : Z) (st : State) : (string + TaskId) * State :=
  match project with
  | None => (inl ("Project not found: " +:+ input_projectId input), st)
  | Some _ =>
      let task := new_task (length (heap st)) (* uuidv4() *) input now in
      let st1 := push_pending task st in
      let st2 := emit (task_created (Task.id task)) st1 in
      (inr (Task.id task), processQueue st2)
  end.

(** *** startTask, from the answer of the project lookup onwards *)
Definition startTask_resume (task : TaskId) (project : option Project)
    (now : Z) (st : State) : State :=
  match heap st !! task with
  | None => st
  | Some obj =>
      match project with
      | None =>
          let st1 := mutate task (Task.set_status failed) st in
          let st2 := mutate task
                       (Task.set_error ("Project not found: " +:+ Task.projectId obj))
                       st1 in
          let st3 := mutate task (Task.set_completedAt now) st2 in
          let st4 := emit (task_failed task) st3 in
          let st5 := call_addTaskToHistory task st4 in
          suspend (startTask_history task) st5
      | Some project =>
          let st1 := mutate task (Task.set_status running) st in
          let st2 := mutate task (Task.set_startedAt now) st1 in
          let proc := Spawner.spawnClaude
                        {| Spawner.cwd := path project;
                           Spawner.prompt := Task.prompt obj;
                           Spawner.maxBudget := Task.maxBudget obj |} in
          let p := length (procs st2) in
          let st3 := set_procs (procs st2 ++ [{| owner := task; supervisor := proc |}])
                               st2 in
          let st4 := set_runningTasks (map_set task p (runningTasks st3)) st3 in
          let st5 := emit (task_started task) st4 in
          suspend processQueue_resume st5
      end
  end.

(** *** The listeners installed by startTask *)

Definition on_output (task : TaskId) (data : string) (st : State) : State :=
  emit (task_output task data)
       (mutate task (λ x, Task.set_output (Task.output x +:+ data) x) st).

Definition on_error (task : TaskId) (data : string) (st : State) : State :=
  mutate task
    (λ x, Task.set_error
            ((if truthy_string (Task.error x)
              then default "" (Task.error x) else "") +:+ data) x)
    st.

(** The text of [`${code}`]. *)
Definition show_code (code : option Z) : string :=
  match code with
  | Some n => pretty n
  | None => "null"
  end.

(** The exit listener up to its [await addTaskToHistory(task)]. *)
Definition on_exit (task : TaskId) (code : option Z) (now : Z) (st : State)
  : State :=
  let st1 := set_runningTasks (map_delete task (runningTasks st)) st in
  let st2 := mutate task (Task.set_completedAt now) st1 in
  let st3 := mutate task
               (λ x, Task.set_durationMs (now - default 0 (Task.startedAt x)) x)
               st2 in
  let st4 :=
    match code with
    | Some 0 =>
        emit (task_completed task) (mutate task (Task.set_status completed) st3)
    | _ =>
        let s1 := mutate task (Task.set_status failed) st3 in
        let s2 := mutate task
                    (λ x, if truthy_string (Task.error x) then x
                          else Task.set_error
                                 ("Process exited with code " +:+ show_code code) x)
                    s1 in
        emit (task_failed task) s2
    end in
  suspend (exit_history task) (call_addTaskToHistory task st4).

Definition listener (task : TaskId) (now : Z) (st : State)
    (e : Spawner.ProcessEvent) : State :=
  match e with
  | Spawner.ev_output data => on_output task data st
  | Spawner.ev_error data => on_error task data st
  | Spawner.ev_exit code _ => on_exit task code now st
  end.

(** Node reports [ev] about the child of supervisor [p]: the supervisor
    handles it, and the engine's listeners run on what it emits. *)
Definition on_child_event (p : ProcId) (ev : Spawner.ChildEvent) (now : Z)
    (st : State) : State :=
  match procs st !! p with
  | None => st
  | Some sp =>
      let '(cp, emitted) := Spawner.on_child ev (supervisor sp) in
      let st1 := set_procs (<[p := {| owner := owner sp; supervisor := cp |}]>
                              (procs st)) st in
      foldl (listener (owner sp) now) st1 emitted
  end.

(** *** cancelTask *)
Definition kill_proc (p : ProcId) (st : State) : State :=
  set_procs (alter (λ sp, {| owner := owner sp;
                             supervisor := Spawner.kill (supervisor sp) |})
                   p (procs st)) st.

Definition cancelTask (taskId : TaskId) (now : Z) (st : State) : bool * State :=
  match list_find (λ t, t = taskId) (pendingTasks st) with
  | Some (pendingIndex, task) =>
      let st1 := set_pendingTasks (delete pendingIndex (pendingTasks st)) st in
      let st2 := mutate task (Task.set_status cancelled) st1 in
      let st3 := mutate task (Task.set_completedAt now) st2 in
      let st4 := emit (task_cancelled task) st3 in
      (true, call_addTaskToHistory task st4)
  | None =>
      match map_get taskId (runningTasks st) with
      | Some p =>
          let st1 := kill_proc p st in
          let st2 := mutate taskId (Task.set_status cancelled) st1 in
          let st3 := mutate taskId (Task.set_completedAt now) st2 in
          let st4 := set_runningTasks (map_delete taskId (runningTasks st3)) st3 in
          let st5 := emit (task_cancelled taskId) st4 in
          let st6 := call_addTaskToHistory taskId st5 in
          (true, processQueue st6)
      | None => (false, st)
      end
  end.

(** *** Queries *)
Definition getTask (taskId : TaskId) (st : State) : option Task.t :=
  match list_find (λ t, t = taskId) (pendingTasks st) with
  | Some (_, task) => heap st !! task
  | None =>
      match map_get taskId (runningTasks st) with
      | Some _ => heap st !! taskId
      | None => None
      end
  end.

Definition getActiveTasks (st : State) : list Task.t :=
  omap (λ e, heap st !! e.1) (runningTasks st)
  ++ omap (λ t, heap st !! t) (pendingTasks st).

Definition getPendingCount (st : State) : nat := length (pendingTasks st).
Definition getRunningCount (st : State) : nat := map_size (runningTasks st).

(** *** The engine as a transition system

    A label is one thing that can happen next: a call of a public method,
    the settling of an awaited promise, or an event of a child process. *)
Inductive Label :=
| call_createTask (input : CreateTaskInput) (project : option Project) (now : Z)
| call_cancelTask (taskId : TaskId) (now : Z)
| settle_lookup (k : nat) (project : option Project) (now : Z)
| settle_history (k : nat)
| settle_startTask (k : nat)
| child (p : ProcId) (ev : Spawner.ChildEvent) (now : Z).

Definition step (st : State) (l : Label) : State :=
  match l with
  | call_createTask input project now => (createTask input project now st).2
  | call_cancelTask taskId now => (cancelTask taskId now st).2
  | settle_lookup k project now =>
      match suspended st !! k with
      | Some (startTask_lookup task) =>
          startTask_resume task project now (unsuspend k st)
      | _ => st
      end
  | settle_history k =>
      match suspended st !! k with
      | Some (startTask_history _) => suspend processQueue_resume (unsuspend k st)
      | Some (exit_history _) => processQueue (unsuspend k st)
      | _ => st
      end
  | settle_startTask k =>
      match suspended st !! k with
      | Some processQueue_resume => processQueue (unsuspend k st)
      | _ => st
      end
  | child p ev now => on_child_event p ev now st
  end.

Definition run (ls : list Label) (st : State) : State := foldl step st ls.

Definition reachable (st : State) : Prop := ∃ ls, st = run ls init.

(** The tasks that have been taken from the queue and handed to
    [startTask], and whose project lookup is still awaited. *)
Definition lookup_of (k : Suspended) : option TaskId :=
  match k with
  | startTask_lookup t => Some t
  | _ => None
  end.

Definition admitted (st : State) : list TaskId := omap lookup_of (suspended st).

(** Slots that are taken or about to be taken: the running tasks and the
    tasks whose start is in flight. *)
Definition occupied (st : State) : nat :=
  (map_size (runningTasks st) + length (admitted st))%nat.

Definition status_of (task : TaskId) (st : State) : option TaskStatus :=
  Task.status <$> heap st !! task.

Definition event_task (e : TaskEvent) : TaskId :=
  match e with
  | task_created t | task_started t | task_output t _
  | task_completed t | task_failed t | task_cancelled t => t
  end.

Definition events_of (task : TaskId) (st : State) : list TaskEvent :=
  filter (λ e, event_task e = task) (events st).

(** What every state of the engine satisfies: the object of task [i] is
    [heap[i]]; the queue, the map and the pending lookups only mention
    tasks that exist; the queue is in the order of submission; and a task
    that waits in the queue is neither being started nor running. *)
Record Inv (st : State) : Prop := mkInv {
  inv_ids : ∀ i obj, heap st !! i = Some obj → Task.id obj = i;
  inv_pending : Forall (λ t, t < length (heap st))%nat (pendingTasks st);
  inv_sorted : StronglySorted lt (pendingTasks st);
  inv_running : Forall (λ e, e.1 < length (heap st))%nat (runningTasks st);
  inv_admitted : Forall (λ t, t < length (heap st))%nat (admitted st);
  inv_waiting : ∀ t, t ∈ pendingTasks st →
                     (t ∉ admitted st) ∧ (t ∉ fst <$> runningTasks st)
}.

(** The output deltas that the event log holds for one task, oldest first. *)
Definition output_delta (task : TaskId) (e : TaskEvent) : option string :=
  match e with
  | task_output t d => if decide (t = task) then Some d else None
  | _ => None
  end.

Definition deltas (task : TaskId) (st : State) : list string :=
  omap (output_delta task) (events st).

(** What the logs of every state satisfy: supervisors and events belong to
    tasks that exist, the first event of a task is its [task:created], the
    output of a task is what its [task:output] events carried, and the
    history sink is handed final outcomes only. *)
Record Logged (st : State) : Prop := mkLogged {
  log_owner : ∀ sp, sp ∈ procs st → (owner sp < length (heap st))%nat;
  log_events : ∀ e, e ∈ events st → (event_task e < length (heap st))%nat;
  log_created : ∀ t, (t < length (heap st))%nat →
                     head (events_of t st) = Some (task_created t);
  log_output : ∀ t obj, heap st !! t = Some obj →
                        Task.output obj = Spawner.appended "" (deltas t st);
  log_history : ∀ x, x ∈ historyCalls st → is_terminal (Task.status x) = true
}.

(** Who holds what: a task is in at most one of the queue, the starts in
    flight and the running set, and only once; a running task has its own
    supervisor; and the status of a task tells where it is. *)
Record Owned (st : State) : Prop := mkOwned {
  own_admitted : NoDup (admitted st);
  own_running : NoDup (fst <$> runningTasks st);
  own_starting : ∀ t, t ∈ admitted st → t ∉ fst <$> runningTasks st;
  own_procs : ∀ t p, (t, p) ∈ runningTasks st →
                     ∃ sp, procs st !! p = Some sp ∧ owner sp = t;
  own_started : ∀ sp, sp ∈ procs st →
                      (owner sp ∉ pendingTasks st) ∧ (owner sp ∉ admitted st);
  own_status_running : ∀ t, t ∈ fst <$> runningTasks st →
                            status_of t st = Some running;
  own_status_pending : ∀ t, t ∈ pendingTasks st → status_of t st = Some pending;
  own_status_admitted : ∀ t, t ∈ admitted st → status_of t st = Some pending
}.

(** What [createTask] fixes of a task: the fields the engine writes once,
    when it builds the object. *)
Definition request (x : Task.t)
  : TaskId * string * string * option Number.t * Z :=
  (Task.id x, Task.projectId x, Task.prompt x, Task.maxBudget x, Task.createdAt x).

(** [st'] continues [st]: both logs and the series of supervisors have
    only grown at their ends, and every task is still at its place, with
    the request it was created with. *)
Record extends (st st' : State) : Prop := mkExtends {
  ext_events : events st `prefix_of` events st';
  ext_history : historyCalls st `prefix_of` historyCalls st';
  ext_owners : (owner <$> procs st) `prefix_of` (owner <$> procs st');
  ext_heap : ∀ t obj, heap st !! t = Some obj →
                      ∃ obj', heap st' !! t = Some obj' ∧ request obj' = request obj
}.

(** Where a task is, as far as its status tells: a task is pending exactly
    while it waits in the queue or its start is in flight, and running
    exactly while it is in the running map. *)
Record Placed (st : State) : Prop := mkPlaced {
  place_pending : ∀ t, status_of t st = Some pending →
                       t ∈ pendingTasks st ∨ t ∈ admitted st;
  place_running : ∀ t, status_of t st = Some running →
                       t ∈ fst <$> runningTasks st
}.

(** A task record that fits its status: no cost is recorded; a duration,
    when there is one, is the time from start to completion; a pending task
    is as [createTask] built it; a running task has started and not
    ended; a completed task has started, ended and has a duration; a failed
    or cancelled task has ended. *)
Definition shaped (x : Task.t) : Prop :=
  Task.costUsd x = None ∧
  (∀ d, Task.durationMs x = Some d →
        ∃ s c, Task.startedAt x = Some s ∧ Task.completedAt x = Some c ∧ d = c - s) ∧
  match Task.status x with
  | pending =>
      Task.startedAt x = None ∧ Task.completedAt x = None ∧
      Task.durationMs x = None ∧ Task.output x = "" ∧ Task.error x = None
  | running =>
      is_Some (Task.startedAt x) ∧ Task.completedAt x = None ∧
      Task.durationMs x = None
  | completed =>
      is_Some (Task.startedAt x) ∧ is_Some (Task.completedAt x) ∧
      is_Some (Task.durationMs x)
  | failed | cancelled => is_Some (Task.completedAt x)
  end.

Record Shaped (st : State) : Prop := mkShaped {
  shape_tasks : Forall shaped (heap st);
  shape_started : ∀ sp, sp ∈ procs st →
                        ∃ obj, heap st !! owner sp = Some obj ∧
                               is_Some (Task.startedAt obj)
}.

(** Every supervisor the engine holds was started by [spawnClaude]. *)
Definition all_started (st : State) : Prop :=
  Forall (λ sp, is_Some (Spawner.process (supervisor sp))) (procs st).

End Manager.

(** ** services/project-service.ts *)

Module Inventory.

(** [ProjectInventory].  The service reads one field of a project, its
    [id]; the type of projects is left open, and [key] below stands for
    that field. *)
Record ProjectInventory (Project : Type) := mkInventory {
  version : string;
  lastUpdated : Z;
  projects : list Project
}.
Arguments mkInventory {_} _ _ _.
Arguments version {_} _.
Arguments lastUpdated {_} _.
Arguments projects {_} _.

(** What [data/inventory.json] holds: [None] when the file is missing or
    does not hold a valid inventory.  [loadInventory] has no fallback for
    that case (unlike [loadHistory]): the promise is rejected. *)
Definition InventoryFile (Project : Type) : Type := option (ProjectInventory Project).

(** How a call of the service fails. *)
Inductive Failure :=
| load_failed               (* readFile, JSON.parse or ProjectInventory.parse *)
| thrown (message : string) (* throw new Error(message) *).

Section service.
Context {Project : Type} (key : Project → string).

Definition loadInventory (file : InventoryFile Project)
  : Failure + ProjectInventory Project :=
  match file with
  | Some inventory => inr inventory
  | None => inl load_failed
  end.

(** The file after [saveInventory]; the write is taken to succeed. *)
Definition saveInventory (inventory : ProjectInventory Project) (now : Z)
  : InventoryFile Project :=
  Some (mkInventory (version inventory) now (projects inventory)).

Definition getAllProjects (file : InventoryFile Project) : Failure + list Project :=
  match loadInventory file with
  | inl e => inl e
  | inr inventory => inr (projects inventory)
  end.

(** [Array.prototype.find] *)
Definition find (id : string) (ps : list Project) : option Project :=
  snd <$> list_find (λ p, key p = id) ps.

Definition getProjectById (id : string) (file : InventoryFile Project)
  : Failure + option Project :=
  match loadInventory file with
  | inl e => inl e
  | inr inventory => inr (find id (projects inventory))
  end.

Definition addProject (project : Project) (file : InventoryFile Project) (now : Z)
  : Failure + InventoryFile Project :=
  match loadInventory file with
  | inl e => inl e
  | inr inventory =>
      inr (saveInventory
             (mkInventory (version inventory) (lastUpdated inventory)
                          (projects inventory ++ [project]))
             now)
  end.

Definition updateProject (project : Project) (file : InventoryFile Project) (now : Z)
  : Failure + InventoryFile Project :=
  match loadInventory file with
  | inl e => inl e
  | inr inventory =>
      match list_find (λ p, key p = key project) (projects inventory) with
      | None => inl (thrown ("Project not found: " +:+ key project))
      | Some (index, _) =>
          inr (saveInventory
                 (mkInventory (version inventory) (lastUpdated inventory)
                              (<[index := project]> (projects inventory)))
                 now)
      end
  end.

End service.

End Inventory.

(** ** server/routes/tasks.ts *)

Module Routes.
Import Manager.

(** A JSON value, as far as [CreateTaskSchema] tells values apart. *)
Inductive Json :=
| json_null
| json_boolean (b : bool)
| json_number (n : Number.t)
| json_string (s : string)
| json_other (* an array or an object *).

(** The properties of [req.body] that the schema reads; [None] is a
    property that is not there.  A body that is not an object at all is
    [None] in [option Body]. *)
Record Body := {
  body_projectId : option Json;
  body_prompt : option Json;
  body_maxBudget : option Json
}.

(** [z.string().min(1)] *)
Definition string_min_1 (v : option Json) : option string :=
  match v with
  | Some (json_string s) => if decide (s = "") then None else Some s
  | _ => None
  end.

(** [n > 0], the test of [.positive()]. *)
Definition positive (n : Number.t) : bool :=
  match n with
  | Number.fin n => 0 <? n
  | Number.Infinity negative => negb negative
  | Number.NaN => false
  end.

(** The test of [z.number()] on a number: NaN is refused; an infinity
    (the JSON text [1e999] is parsed to one) is accepted by zod up to
    version 3 and refused from version 4 on.  [infinities] tells which
    zod is installed. *)
Definition number (infinities : bool) (n : Number.t) : bool :=
  match n with
  | Number.NaN => false
  | Number.Infinity _ => infinities
  | Number.fin _ => true
  end.

(** [z.number().positive().optional().default(1.0)] *)
Definition positive_default_1 (infinities : bool) (v : option Json)
  : option Number.t :=
  match v with
  | None => Some (Number.of_Z 1)
  | Some (json_number n) =>
      if number infinities n && positive n then Some n else None
  | Some _ => None
  end.

(** [CreateTaskSchema.safeParse(req.body)] followed by the construction of
    [input]; [None] when [parsed.success] is false. *)
Definition CreateTaskSchema (infinities : bool) (body : option Body)
  : option CreateTaskInput :=
  match body with
  | None => None
  | Some b =>
      match string_min_1 (body_projectId b), string_min_1 (body_prompt b),
            positive_default_1 infinities (body_maxBudget b) with
      | Some projectId, Some prompt, Some maxBudget =>
          Some {| input_projectId := projectId;
                  input_prompt := prompt;
                  input_maxBudget := Some maxBudget |}
      | _, _, _ => None
      end
  end.

(** What [res.json] is given. *)
Inductive Payload :=
| payload_task (task : option Task.t)
| payload_tasks (tasks : list Task.t)
| payload_error (error : string)
| payload_invalid_input (* { error: "Invalid input", details } *)
| payload_success (* { success: true } *).

Record Response := {
  status : nat;
  payload : Payload
}.

(** [res.json(x)] without [res.status] answers 200. *)
Definition ok (x : Payload) : Response := {| status := 200; payload := x |}.

(** How the [getProjectById] that [createTask] awaits settles: with the
    project or [undefined], or rejected, when the inventory cannot be
    loaded, with an [Error] that carries [message]. *)
Inductive Lookup :=
| lookup_answers (project : option Project)
| lookup_rejects (message : string).

(** POST /api/tasks.  [lookup] and [now] are what [createTask] gets from
    its environment; a rejected lookup rejects [createTask] before it has
    done anything, and the [catch] answers with the message.  The task in
    the answer is the object that [createTask] returned, as it is when the
    answer is written. *)
Definition post_tasks (infinities : bool) (body : option Body)
    (lookup : Lookup) (now : Z) (st : State) : Response * State :=
  match CreateTaskSchema infinities body with
  | None => ({| status := 400; payload := payload_invalid_input |}, st)
  | Some input =>
      match lookup with
      | lookup_rejects message =>
          ({| status := 400; payload := payload_error message |}, st)
      | lookup_answers project =>
          match createTask input project now st with
          | (inr task, st') =>
              ({| status := 201; payload := payload_task (heap st' !! task) |}, st')
          | (inl message, st') =>
              ({| status := 400; payload := payload_error message |}, st')
          end
      end
  end.

(** GET /api/tasks *)
Definition get_tasks (st : State) : Response :=
  ok (payload_tasks (getActiveTasks st)).

(** GET /api/tasks/history *)
Definition get_history (file : History.HistoryFile) (now : Z) : Response :=
  ok (payload_tasks (History.getCompletedTasks file now)).

(** GET /api/tasks/:id *)
Definition get_task (id : TaskId) (st : State) : Response :=
  match getTask id st with
  | None => {| status := 404; payload := payload_error "Task not found" |}
  | Some task => ok (payload_task (Some task))
  end.

(** DELETE /api/tasks/:id *)
Definition delete_task (id : TaskId) (now : Z) (st : State) : Response * State :=
  match cancelTask id now st with
  | (false, st') =>
      ({| status := 404;
          payload := payload_error "Task not found or already completed" |}, st')
  | (true, st') => (ok payload_success, st')
  end.

End Routes.

(** ** Scenarios

    Concrete runs of the engine, after the test suite of the task manager
    (project [proj-1], prompt "Do something useful"). *)

Module Scenario.
Import Manager.

Definition project : Project :=
  {| project_id := "proj-1"; path := "/tmp/test-project" |}.

Definition input (budget : Z) : CreateTaskInput :=
  {| input_projectId := "proj-1";
     input_prompt := "Do something useful";
     input_maxBudget := Some (Number.of_Z budget) |}.

(** A submission that is left to settle while nothing else is in flight:
    [createTask] accepts the task, the lookup of [startTask] is answered,
    and [processQueue] takes its next turn. *)
Definition submit_settled (budget : Z) (now : Z) : list Label :=
  [ call_createTask (input budget) (Some project) now;
    settle_lookup 0 (Some project) now;
    settle_startTask 0 ].

(** A task with budget 2 whose worker writes "max_turns limit reached" to
    its standard error and exits with code 1. *)
Definition budget_exceeded : list Label :=
  submit_settled 2 0
  ++ [ child 0%nat (Spawner.stderr_data "max_turns limit reached") 5;
       child 0%nat (Spawner.child_exit (Some 1) None) 6 ].

(** The budget 2.6: the double nearest to it,
    [5854679515581645 * 2^-51], in multiples of [2^-1074]. *)
Definition two_point_six_units : Z := 5854679515581645 * 2 ^ 1023.
Definition two_point_six : Number.t := Number.fin two_point_six_units.

(** A worker whose prompt is longer than the system accepts for one
    argument of a command line. *)
Definition long_prompt : Spawner.SpawnOptions :=
  {| Spawner.cwd := "/home/user/projects/test";
     Spawner.prompt := String.concat "" (replicate (Z.to_nat 200000) "x");
     Spawner.maxBudget := None |}.

(** A running task is cancelled; the killed worker then exits on SIGTERM. *)
Definition cancel_then_exit : list Label :=
  submit_settled 1 0
  ++ [ call_cancelTask 0%nat 5;
       child 0%nat (Spawner.child_exit None (Some "SIGTERM")) 6 ].

(** Four [createTask] calls are accepted before the project lookup of any
    [startTask] is answered (four requests that arrive together). *)
Definition overlapping_submissions : list Label :=
  replicate 4 (call_createTask (input 1) (Some project) 0)
  ++ replicate 4 (settle_lookup 0 (Some project) 1).

(** The same four submissions; the lookup of the fourth is the first to
    be answered. *)
Definition fourth_lookup_answers_first : list Label :=
  replicate 4 (call_createTask (input 1) (Some project) 0)
  ++ [settle_lookup 3 (Some project) 1].

(** Tasks 0, 1 and 2 run; tasks 3 and 4 wait, in this order. *)
Definition three_running_two_waiting : State :=
  run (submit_settled 1 0 ++ submit_settled 1 1 ++ submit_settled 1 2
       ++ [ call_createTask (input 1) (Some project) 3;
            call_createTask (input 1) (Some project) 4 ])
      init.

(** A task has been accepted and its start waits for the project lookup. *)
Definition start_in_flight : State :=
  run [call_createTask (input 1) (Some project) 0] init.

(** One task runs. *)
Definition one_running : State := run (submit_settled 1 0) init.

(** A task whose worker writes "a" and "b" to its standard output, a
    warning to its standard error, and exits with code 0. *)
Definition streamed : list Label :=
  submit_settled 1 0
  ++ [ child 0%nat (Spawner.stdout_data "a") 5;
       child 0%nat (Spawner.stderr_data "warning") 6;
       child 0%nat (Spawner.stdout_data "b") 7;
       child 0%nat (Spawner.child_exit (Some 0) None) 8 ].

(** An inventory with two projects, and another project for the id of the
    first. *)
Definition other_project : Project :=
  {| project_id := "proj-2"; path := "/tmp/other-project" |}.

Definition moved_project : Project :=
  {| project_id := "proj-1"; path := "/tmp/moved-project" |}.

Definition inventory : Inventory.ProjectInventory Project :=
  Inventory.mkInventory "1.0" 0 [project; other_project].

(** A request body that names the project and the prompt and leaves the
    budget out. *)
Definition body_without_budget : Routes.Body :=
  {| Routes.body_projectId := Some (Routes.json_string "proj-1");
     Routes.body_prompt := Some (Routes.json_string "Do something useful");
     Routes.body_maxBudget := None |}.

(** Two calls of [addTaskToHistory], on a history file that does not exist
    yet. *)
Definition stored_task (id : TaskId) (s : TaskStatus) : Task.t :=
  Task.mk id "test-project" "Test prompt" s None 0 None None None None "" None.

Definition history_calls : list (Task.t * Z) :=
  [(stored_task 7 pending, 1); (stored_task 8 completed, 2)].

(** A history file that holds 100 entries, with ids 0 to 99. *)
Definition full_history : History.HistoryFile :=
  Some {| History.tasks := (λ i, stored_task i completed) <$> seq 0 100;
          History.lastUpdated := 0 |}.

End Scenario.

(* ================================================================== *)
(** * Properties *)
(* ================================================================== *)

(** ** The history sink *)

Section history_facts.
Import History.
Implicit Types (ts : list Task.t) (task : Task.t) (file : HistoryFile).

Lemma persisted_load file now : tasks (loadHistory file now) = persisted file.
Proof. by destruct file. Qed.

Lemma persisted_add file task now :
  persisted (addTaskToHistory file task now) = put (persisted file) task.
Proof. unfold addTaskToHistory. simpl. by rewrite persisted_load. Qed.

Lemma findIndex_Some ts k i :
  findIndex k ts = Some i ↔
  ∃ t, ts !! i = Some t ∧ Task.id t = k ∧
       ∀ j u, ts !! j = Some u → (j < i)%nat → Task.id u ≠ k.
Proof.
  unfold findIndex. split.
  - intros H. apply fmap_Some in H as [[i' t] [H ->]].
    apply list_find_Some in H. simpl. eauto.
  - intros (t & H1 & H2 & H3). apply fmap_Some. exists (i, t). split; [|done].
    apply list_find_Some. eauto.
Qed.

Lemma findIndex_None ts k :
  findIndex k ts = None ↔ k ∉ (Task.id <$> ts).
Proof.
  unfold findIndex. rewrite fmap_None, list_find_None, Forall_forall.
  rewrite list_elem_of_fmap. split.
  - intros H (t & -> & Hin). by eapply H.
  - intros H t Hin Heq. apply H. eauto.
Qed.

Lemma findIndex_is_Some ts k :
  k ∈ (Task.id <$> ts) → ∃ i, findIndex k ts = Some i.
Proof.
  intros Hin. destruct (findIndex k ts) as [i|] eqn:E; [eauto|].
  by apply findIndex_None in E.
Qed.

Lemma length_upsert_present ts task i :
  findIndex (Task.id task) ts = Some i → length (upsert ts task) = length ts.
Proof. unfold upsert. intros ->. apply length_insert. Qed.

Lemma length_upsert_absent ts task :
  findIndex (Task.id task) ts = None → length (upsert ts task) = S (length ts).
Proof. unfold upsert. intros ->. rewrite length_app. simpl. lia. Qed.

Lemma length_slice_last {A} n (l : list A) :
  length (slice_last n l) = (length l `min` n)%nat.
Proof. unfold slice_last. rewrite length_drop. lia. Qed.

Lemma length_put ts task : (length (put ts task) ≤ 100)%nat.
Proof.
  unfold put. simpl. case_decide; [|lia].
  rewrite length_slice_last. lia.
Qed.

Lemma put_suffix ts task : put ts task `suffix_of` upsert ts task.
Proof.
  unfold put. simpl. case_decide; [|done]. apply suffix_drop.
Qed.

Lemma NoDup_ids_suffix ts ts' :
  ts' `suffix_of` ts → NoDup (Task.id <$> ts) → NoDup (Task.id <$> ts').
Proof.
  intros [k ->]. rewrite fmap_app. intros H. by apply NoDup_app in H as (_ & _ & H).
Qed.

(** Overwriting an entry by one with the same id changes no id. *)
Lemma ids_insert_same ts task i t :
  ts !! i = Some t → Task.id t = Task.id task →
  Task.id <$> <[i := task]> ts = Task.id <$> ts.
Proof.
  intros Hi Hid. rewrite list_fmap_insert. apply list_insert_id.
  rewrite list_lookup_fmap, Hi. simpl. by rewrite Hid.
Qed.

Lemma count_id_ids k ts :
  count_id k ts = length (filter (λ x, x = k) (Task.id <$> ts)).
Proof.
  unfold count_id. induction ts as [|t ts IH]; [done|].
  rewrite fmap_cons, !filter_cons. simpl.
  repeat case_decide; simpl; congruence.
Qed.

Lemma count_NoDup (k : TaskId) (l : list TaskId) :
  NoDup l → k ∈ l → length (filter (λ x, x = k) l) = 1%nat.
Proof.
  induction 1 as [|x l Hx Hnd IH]; intros Hin; [by apply elem_of_nil in Hin|].
  rewrite filter_cons. case_decide as E.
  - subst x. simpl. f_equal.
    assert (filter (λ x, x = k) l = []) as ->; [|done].
    clear -Hx. induction l as [|y l IHl]; [done|].
    apply not_elem_of_cons in Hx as [Hne Hx].
    rewrite filter_cons. case_decide; [congruence|by apply IHl].
  - apply elem_of_cons in Hin as [->|Hin]; [done|]. by apply IH.
Qed.

Lemma well_formed_put ts task : well_formed ts → well_formed (put ts task).
Proof.
  intros [Hnd Hlen]. split; [|apply length_put].
  eapply NoDup_ids_suffix; [apply put_suffix|].
  unfold upsert. destruct (findIndex (Task.id task) ts) as [i|] eqn:E.
  - apply findIndex_Some in E as (t & Hi & Hid & _).
    by rewrite (ids_insert_same _ _ _ _ Hi Hid).
  - apply findIndex_None in E. rewrite fmap_app. simpl.
    apply NoDup_app. repeat split; [done| |apply NoDup_singleton].
    intros x Hx Hx'. apply list_elem_of_singleton in Hx'. by subst.
Qed.

(** Every history written by the service, starting from a missing file,
    is well formed. *)
Lemma well_formed_after_calls calls :
  well_formed (persisted (after_calls None calls)).
Proof.
  unfold after_calls.
  cut (∀ file, well_formed (persisted file) →
       well_formed (persisted (foldl (λ f c, addTaskToHistory f c.1 c.2) file calls))).
  { intros H. apply H. split; [constructor|simpl; lia]. }
  induction calls as [|c calls IH]; intros file Hwf; [done|].
  simpl. apply IH. rewrite persisted_add. by apply well_formed_put.
Qed.

Lemma put_present ts task i :
  (length ts ≤ 100)%nat → findIndex (Task.id task) ts = Some i →
  put ts task = <[i := task]> ts.
Proof.
  intros Hlen E. unfold put. simpl.
  rewrite (length_upsert_present _ _ _ E). case_decide; [lia|].
  unfold upsert. by rewrite E.
Qed.

Lemma findIndex_insert ts task i :
  findIndex (Task.id task) ts = Some i →
  findIndex (Task.id task) (<[i := task]> ts) = Some i.
Proof.
  intros E. apply findIndex_Some in E as (t & Hi & Hid & Hlt).
  apply findIndex_Some. exists task. split_and!; [|done|].
  - apply list_lookup_insert_eq. by eapply lookup_lt_Some.
  - intros j u Hj Hji. rewrite list_lookup_insert_ne in Hj by lia. eauto.
Qed.

End history_facts.

(** In a history with pairwise distinct ids and at most 100 entries, a task
    whose id occurs is stored at the index of the prior entry. *)
Lemma overwrite_in_well_formed_history
    (file : History.HistoryFile) (task : Task.t) (now : Z) :
  History.well_formed (History.persisted file) →
  Task.id task ∈ (Task.id <$> History.persisted file) →
  ∃ i, History.findIndex (Task.id task) (History.persisted file) = Some i ∧
       History.persisted (History.addTaskToHistory file task now)
       = <[i := task]> (History.persisted file) ∧
       History.persisted (History.addTaskToHistory file task now) !! i = Some task ∧
       length (History.persisted (History.addTaskToHistory file task now))
       = length (History.persisted file) ∧
       History.count_id (Task.id task)
         (History.persisted (History.addTaskToHistory file task now)) = 1%nat ∧
       ∀ now', History.persisted
                 (History.addTaskToHistory
                    (History.addTaskToHistory file task now) task now')
               = History.persisted (History.addTaskToHistory file task now).
Proof.
  intros [Hnd Hlen] Hin.
  destruct (findIndex_is_Some _ _ Hin) as [i E]. exists i.
  rewrite persisted_add, (put_present _ _ i Hlen E).
  pose proof E as E'. apply findIndex_Some in E' as (t & Hi & Hid & _).
  split_and!; [done|done| | | |].
  - apply list_lookup_insert_eq. by eapply lookup_lt_Some.
  - apply length_insert.
  - rewrite count_id_ids, (ids_insert_same _ _ _ _ Hi Hid).
    by apply count_NoDup.
  - intros now'. rewrite !persisted_add, (put_present _ _ i Hlen E).
    rewrite (put_present _ _ i).
    + apply list_insert_insert_eq.
    + by rewrite length_insert.
    + by apply findIndex_insert.
Qed.

(** C9.  [addTaskToHistory] overwrites on a repeated id.  Take any state of
    the history file (whatever series of [addTaskToHistory] calls produced
    it, starting from a missing file) and any task whose id already occurs
    in it.  Adding the task stores it at the index of the prior entry: the
    persisted list is the old one with that position replaced, its length
    is unchanged, exactly one entry carries the id, and a second call with
    the same task changes nothing. *)
Theorem addTaskToHistory_same_id_overwrites
    (calls : list (Task.t * Z)) (task : Task.t) (now : Z) :
  let file := History.after_calls None calls in
  let before := History.persisted file in
  let after := History.persisted (History.addTaskToHistory file task now) in
  Task.id task ∈ (Task.id <$> before) →
  ∃ i, History.findIndex (Task.id task) before = Some i ∧
       after = <[i := task]> before ∧
       after !! i = Some task ∧
       length after = length before ∧
       History.count_id (Task.id task) after = 1%nat ∧
       ∀ now', History.persisted
                 (History.addTaskToHistory
                    (History.addTaskToHistory file task now) task now') = after.
Proof.
  cbv zeta. intros Hin.
  apply overwrite_in_well_formed_history; [|done].
  apply well_formed_after_calls.
Qed.

(** C10.  After every [addTaskToHistory] call the persisted history holds at
    most 100 tasks: it is the list obtained by overwriting or appending,
    cut down to its last 100 entries, so whatever stands before them (the
    oldest records) is dropped. *)
Theorem addTaskToHistory_keeps_last_100
    (file : History.HistoryFile) (task : Task.t) (now : Z) :
  let stored := History.upsert (History.persisted file) task in
  let after := History.persisted (History.addTaskToHistory file task now) in
  (length after ≤ 100)%nat ∧
  after = drop (length stored - 100) stored ∧
  stored = take (length stored - 100) stored ++ after.
Proof.
  intros stored after.
  assert (after = drop (length stored - 100) stored) as Hafter.
  { unfold after. rewrite persisted_add. unfold History.put. simpl.
    fold stored. case_decide as Hlt; [done|].
    replace (length stored - 100)%nat with 0%nat by lia. done. }
  split_and!; [|done|].
  - unfold after. rewrite persisted_add. apply length_put.
  - rewrite Hafter. symmetry. apply take_drop.
Qed.

(** ** JavaScript numbers *)

Section number_facts.
Import Number.

(** *** Rounding to 53 bits *)

Lemma nearest_even_bounds N k :
  N / 2 ^ k ≤ nearest_even N k ≤ N / 2 ^ k + 1.
Proof.
  unfold nearest_even. destruct (2 * (N mod 2 ^ k) ?= 2 ^ k); [|lia..].
  destruct (Z.even _); lia.
Qed.

Lemma nearest_even_mono N1 N2 k :
  0 ≤ k → N1 ≤ N2 → nearest_even N1 k ≤ nearest_even N2 k.
Proof.
  intros Hk Hle.
  assert (0 < 2 ^ k) as Hp by (by apply Z.pow_pos_nonneg).
  pose proof (Z.div_le_mono N1 N2 (2 ^ k) Hp Hle) as Hq.
  destruct (decide (N1 / 2 ^ k = N2 / 2 ^ k)) as [Heq|Hne].
  - assert (N1 mod 2 ^ k ≤ N2 mod 2 ^ k) as Hr.
    { rewrite !Z.mod_eq by lia. rewrite Heq. lia. }
    unfold nearest_even. rewrite Heq.
    destruct (Z.compare_spec (2 * (N1 mod 2 ^ k)) (2 ^ k));
      destruct (Z.compare_spec (2 * (N2 mod 2 ^ k)) (2 ^ k));
      destruct (Z.even (N2 / 2 ^ k)); lia.
  - pose proof (nearest_even_bounds N1 k). pose proof (nearest_even_bounds N2 k). lia.
Qed.

Lemma nearest_even_exact N k :
  0 ≤ k → N mod 2 ^ k = 0 → nearest_even N k * 2 ^ k = N.
Proof.
  intros Hk Hr. assert (0 < 2 ^ k) as Hp by (by apply Z.pow_pos_nonneg).
  unfold nearest_even. rewrite Hr.
  destruct (Z.compare_spec (2 * 0) (2 ^ k)); try lia.
  pose proof (Z.div_mod N (2 ^ k)). lia.
Qed.

Lemma round_0 N : round 0 N = nearest_even N (dropped N) * 2 ^ dropped N.
Proof. unfold round, dropped. by rewrite Z.sub_0_r. Qed.

Lemma dropped_mono N1 N2 : 0 ≤ N1 ≤ N2 → dropped N1 ≤ dropped N2.
Proof.
  intros H. unfold dropped. pose proof (Z.log2_le_mono N1 N2). lia.
Qed.

Lemma round_0_small N : 0 ≤ N → dropped N = 0 → round 0 N = N.
Proof.
  intros HN Hd. rewrite round_0, Hd. apply nearest_even_exact; [done|].
  by rewrite Z.pow_0_r, Z.mod_1_r.
Qed.

(** With bits to dropped, N has exactly 53 + dropped N bits. *)
Lemma dropped_bits N :
  0 < dropped N → 2 ^ (52 + dropped N) ≤ N < 2 ^ (53 + dropped N).
Proof.
  unfold dropped. intros Hd.
  assert (0 < N) as HN.
  { destruct (Z.lt_trichotomy N 0) as [H|[->|H]]; [|simpl in Hd; lia|done].
    rewrite Z.log2_nonpos in Hd by lia. lia. }
  destruct (Z.log2_spec N HN) as [H1 H2].
  replace (52 + Z.max 0 (Z.log2 N + 1 - 53)) with (Z.log2 N) by lia.
  replace (53 + Z.max 0 (Z.log2 N + 1 - 53)) with (Z.succ (Z.log2 N)) by lia.
  done.
Qed.

Lemma round_0_range N :
  0 < dropped N → 2 ^ (52 + dropped N) ≤ round 0 N ≤ 2 ^ (53 + dropped N).
Proof.
  intros Hd. destruct (dropped_bits N Hd) as [H1 H2].
  rewrite round_0. set (k := dropped N) in *.
  assert (0 < 2 ^ k) as Hp by (apply Z.pow_pos_nonneg; lia).
  pose proof (nearest_even_bounds N k) as [Hq1 Hq2].
  rewrite (Z.add_comm 52), (Z.add_comm 53), !Z.pow_add_r in * by lia.
  assert (2 ^ 52 ≤ N / 2 ^ k) by (apply Z.div_le_lower_bound; lia).
  assert (N / 2 ^ k < 2 ^ 53) by (apply Z.div_lt_upper_bound; lia).
  nia.
Qed.

Lemma round_0_mono N1 N2 : 0 ≤ N1 ≤ N2 → round 0 N1 ≤ round 0 N2.
Proof.
  intros [H1 H2]. pose proof (dropped_mono N1 N2 (conj H1 H2)) as Hk.
  assert (0 ≤ dropped N1) as Hk0 by (unfold dropped; lia).
  destruct (decide (dropped N1 = dropped N2)) as [Heq|Hne].
  - rewrite !round_0, Heq.
    apply Z.mul_le_mono_nonneg_r; [apply Z.pow_nonneg; lia|].
    apply nearest_even_mono; lia.
  - assert (0 < dropped N2) as Hd2 by lia.
    pose proof (round_0_range N2 Hd2) as [Hlow _].
    assert (round 0 N1 ≤ 2 ^ (52 + dropped N2)); [|lia].
    destruct (decide (dropped N1 = 0)) as [Hz|Hnz].
    + rewrite round_0_small by done.
      assert (N1 < 2 ^ 53).
      { unfold dropped in Hz. destruct (decide (N1 = 0)) as [->|]; [done|].
        apply Z.log2_lt_pow2; lia. }
      assert (2 ^ 53 ≤ 2 ^ (52 + dropped N2)) by (apply Z.pow_le_mono_r; lia).
      lia.
    + pose proof (round_0_range N1 ltac:(lia)) as [_ Hup].
      assert (2 ^ (53 + dropped N1) ≤ 2 ^ (52 + dropped N2)) by (apply Z.pow_le_mono_r; lia).
      lia.
Qed.

Lemma round_scaled low a :
  0 ≤ low → 0 ≤ a → round low (a * 2 ^ low) = round 0 a.
Proof.
  intros Hlow Ha. assert (0 < 2 ^ low) as Hp by (by apply Z.pow_pos_nonneg).
  destruct (decide (a = 0)) as [->|Hne].
  { unfold round. simpl. rewrite Z.max_l by lia.
    unfold nearest_even. rewrite Z.div_0_l, Z.mod_0_l by lia.
    destruct (Z.compare_spec (2 * 0) (2 ^ low)); try lia.
    unfold Z.max. simpl. done. }
  unfold round. rewrite Z.log2_mul_pow2 by lia.
  set (k0 := Z.max 0 (Z.log2 a + 1 - 53)).
  replace (Z.max low (low + Z.log2 a + 1 - 53)) with (k0 + low) by lia.
  replace (k0 + low - low) with (k0 - 0) by lia.
  f_equal. unfold nearest_even.
  assert (0 ≤ k0) by lia.
  assert (0 < 2 ^ k0) as Hp0 by (by apply Z.pow_pos_nonneg).
  rewrite Z.pow_add_r by lia.
  rewrite Z.div_mul_cancel_r by lia.
  rewrite Z.mul_mod_distr_r by lia.
  destruct (Z.compare_spec (2 * (a mod 2 ^ k0 * 2 ^ low)) (2 ^ k0 * 2 ^ low));
    destruct (Z.compare_spec (2 * (a mod 2 ^ k0)) (2 ^ k0)); try done; nia.
Qed.

Lemma round_0_nonneg N : 0 ≤ N → 0 ≤ round 0 N.
Proof.
  intros H. pose proof (round_0_mono 0 N ltac:(lia)) as H0.
  by rewrite (round_0_small 0) in H0.
Qed.

Lemma unit_is_pow : unit = 2 ^ 1074.
Proof. reflexivity. Qed.

Lemma unit_pos_lt : 0 < unit.
Proof. reflexivity. Qed.

(** Whole numbers up to [2^53] are doubles. *)
Lemma round_0_units X : 0 ≤ X ≤ 2 ^ 53 → round 0 (X * unit) = X * unit.
Proof.
  intros [H0 H53]. rewrite unit_is_pow.
  destruct (decide (X = 0)) as [->|Hne]; [by apply round_0_small|].
  destruct (decide (X = 2 ^ 53)) as [->|Hlt]; [by vm_compute|].
  assert (Z.log2 X < 53) as Hlog by (apply Z.log2_lt_pow2; lia).
  pose proof (Z.log2_nonneg X) as Hlog0.
  rewrite round_0. apply nearest_even_exact; [unfold dropped; lia|].
  unfold dropped. rewrite Z.log2_mul_pow2 by lia.
  replace (Z.max 0 (1074 + Z.log2 X + 1 - 53)) with (1022 + Z.log2 X) by lia.
  replace 1074 with (52 - Z.log2 X + (1022 + Z.log2 X)) at 1 by lia.
  rewrite Z.pow_add_r, Z.mul_assoc by lia. apply Z.mod_mul.
  apply Z.pow_nonzero; lia.
Qed.

(** [b * 10]: ten times the magnitude, rounded to 53 bits. *)
Lemma mul_ten n :
  mul (fin n) (of_Z 10) = pack (sign n) (round 0 (10 * Z.abs n)).
Proof.
  unfold mul, of_Z. pose proof unit_pos_lt as Hu.
  assert (sign (10 * unit) = false) as -> by (apply Z.ltb_ge; lia).
  rewrite xorb_false_r, (Z.abs_eq (10 * unit)) by lia.
  rewrite unit_is_pow.
  replace (Z.abs n * (10 * 2 ^ 1074)) with (10 * Z.abs n * 2 ^ 1074) by lia.
  by rewrite round_scaled by lia.
Qed.

(** *** Rounding up to a whole number *)

Lemma ceil_mono a b :
  a ≤ b → - ((- a) / unit) ≤ - ((- b) / unit).
Proof.
  intros H. pose proof unit_pos_lt.
  pose proof (Z.div_le_mono (- b) (- a) unit). lia.
Qed.

Lemma ceil_units X : - ((- (X * unit)) / unit) = X.
Proof.
  pose proof unit_pos_lt.
  replace (- (X * unit)) with (- X * unit) by lia. rewrite Z.div_mul; lia.
Qed.

Lemma ceil_bounds a :
  (- ((- a) / unit) - 1) * unit < a ≤ - ((- a) / unit) * unit.
Proof.
  pose proof unit_pos_lt as Hu.
  pose proof (Z.div_mod (- a) unit ltac:(lia)).
  pose proof (Z.mod_pos_bound (- a) unit Hu). nia.
Qed.

(** The exact [ceil(b * 10)], by integer division. *)
Lemma exact_ceiling n :
  Qceiling (exact n * 10) = - ((- (10 * n)) / unit).
Proof.
  unfold Qceiling, Qfloor, exact, unit.
  cbn [Qmult Qopp Qnum Qden inject_Z].
  rewrite Pos.mul_1_r. do 2 f_equal. lia.
Qed.

End number_facts.

(** ** The process supervisor *)

(** *** The number of turns *)

Section turns_facts.
Import Number Spawner.

Lemma max_turns_fin n :
  max_turns (fin n)
  = Math.max 25 (Math.ceil (pack (sign n) (round 0 (10 * Z.abs n)))).
Proof. unfold max_turns. by rewrite mul_ten. Qed.

Lemma max_turns_nonpos n : n ≤ 0 → max_turns (fin n) = integer 25.
Proof.
  intros Hn. rewrite max_turns_fin.
  destruct (decide (n = 0)) as [->|Hne]; [by vm_compute|].
  assert (sign n = true) as -> by (apply Z.ltb_lt; lia).
  pose proof (round_0_nonneg (10 * Z.abs n) ltac:(lia)) as HM.
  unfold pack. destruct (overflow <=? _); [done|].
  cbn [Math.ceil Math.max]. f_equal. rewrite Z.opp_involutive.
  pose proof unit_pos_lt.
  pose proof (Z.div_pos (round 0 (10 * Z.abs n)) unit ltac:(lia) ltac:(lia)). lia.
Qed.

Lemma max_turns_pos n :
  0 < n →
  max_turns (fin n)
  = if overflow <=? round 0 (10 * n) then infinite false
    else integer (Z.max 25 (- ((- round 0 (10 * n)) / unit))).
Proof.
  intros Hn. rewrite max_turns_fin.
  assert (sign n = false) as -> by (apply Z.ltb_ge; lia).
  rewrite Z.abs_eq by lia. unfold pack.
  by destruct (overflow <=? _).
Qed.

Lemma toString_small N :
  Z.abs N ≤ 2 ^ 53 → toString (integer N) = pretty N.
Proof.
  intros H. unfold toString.
  by assert ((Z.abs N <=? 2 ^ 53) = true) as -> by (by apply Z.leb_le).
Qed.

(** Where the exact formula stays within [2^53], the code computes it or
    the whole number below it. *)
Lemma max_turns_near n :
  Z.max 25 (Qceiling (exact n * 10)) ≤ 2 ^ 53 →
  ∃ N, max_turns (fin n) = integer N ∧
       25 ≤ N ∧
       Z.max 25 (Qceiling (exact n * 10)) - 1 ≤ N
         ≤ Z.max 25 (Qceiling (exact n * 10)) ∧
       toString (integer N) = pretty N.
Proof.
  rewrite exact_ceiling. set (C := - ((- (10 * n)) / unit)). intros HX.
  pose proof unit_pos_lt as Hu.
  pose proof (ceil_bounds (10 * n)) as [Hlow Hup]. fold C in Hlow, Hup.
  destruct (decide (n ≤ 0)) as [Hn|Hn].
  - exists 25. rewrite max_turns_nonpos by done.
    assert (C ≤ 0) by nia.
    split_and!; [done|lia|lia|lia|by apply toString_small].
  - assert (1 ≤ C) as HC by nia.
    pose proof (round_0_mono ((C - 1) * unit) (10 * n) ltac:(nia)) as H1.
    pose proof (round_0_mono (10 * n) (C * unit) ltac:(nia)) as H2.
    rewrite round_0_units in H1, H2 by lia.
    set (M := round 0 (10 * n)) in *.
    pose proof (ceil_mono _ _ H1) as H3. pose proof (ceil_mono _ _ H2) as H4.
    rewrite ceil_units in H3, H4.
    assert (2 ^ 53 * unit < overflow) as Hbig by reflexivity.
    rewrite max_turns_pos by lia. fold M.
    assert ((overflow <=? M) = false) as -> by (apply Z.leb_gt; nia).
    eexists. split; [reflexivity|].
    split_and!; [lia|lia|lia|apply toString_small; lia].
Qed.

(** Whole-dollar budgets: the product is exact. *)
Lemma max_turns_whole d :
  0 < d → 10 * d ≤ 2 ^ 53 →
  max_turns (of_Z d) = integer (Z.max 25 (10 * d)).
Proof.
  intros Hd Hle. pose proof unit_pos_lt as Hu. unfold of_Z.
  rewrite max_turns_pos by nia.
  replace (10 * (d * unit)) with (10 * d * unit) by lia.
  rewrite round_0_units by lia.
  assert (2 ^ 53 * unit < overflow) as Hbig by reflexivity.
  assert ((overflow <=? 10 * d * unit) = false) as -> by (apply Z.leb_gt; nia).
  by rewrite ceil_units.
Qed.

Lemma max_turns_cases b :
  b ≠ NaN →
  max_turns b = infinite false ∨ ∃ N, max_turns b = integer N ∧ 25 ≤ N.
Proof.
  intros Hb. destruct b as [|s|n]; [done| |].
  - destruct s; [right; exists 25; by vm_compute|left; by vm_compute].
  - destruct (decide (n ≤ 0)) as [Hn|Hn].
    + right. exists 25. by rewrite max_turns_nonpos.
    + rewrite max_turns_pos by lia. destruct (overflow <=? _); [by left|].
      right. eexists. split; [done|]. lia.
Qed.

Lemma max_turns_mono b1 b2 :
  le b1 b2 → le_integral (max_turns b1) (max_turns b2).
Proof.
  assert (∀ b, b ≠ NaN → le_integral (integer 25) (max_turns b)) as Hfloor.
  { intros b Hb. destruct (max_turns_cases b Hb) as [->|(N & -> & HN)]; done. }
  assert (∀ b, b ≠ NaN → le_integral (max_turns b) (infinite false)) as Htop.
  { intros b Hb. destruct (max_turns_cases b Hb) as [->|(N & -> & HN)]; done. }
  destruct b1 as [|[]|n1], b2 as [|[]|n2]; try done.
  - intros _.
    replace (max_turns (Infinity true)) with (integer 25) by (by vm_compute).
    by apply Hfloor.
  - intros _.
    replace (max_turns (Infinity false)) with (infinite false) by (by vm_compute).
    by apply Htop.
  - simpl. intros Hle. destruct (decide (n1 ≤ 0)) as [Hn|Hn].
    + rewrite (max_turns_nonpos n1) by done. by apply Hfloor.
    + rewrite !max_turns_pos by lia.
      pose proof (round_0_mono (10 * n1) (10 * n2) ltac:(lia)) as HM.
      destruct (Z.leb_spec overflow (round 0 (10 * n1)));
        destruct (Z.leb_spec overflow (round 0 (10 * n2))); simpl; try done; try lia.
      pose proof (ceil_mono _ _ HM). lia.
Qed.

Lemma truthy_number_Some b :
  b ≠ NaN → b ≠ fin 0 → truthy_number (Some b) = true.
Proof. intros H1 H2. destruct b as [|s|[|p|p]]; done. Qed.

Lemma build_args_with_budget (dir text : string) (b : t) :
  truthy_number (Some b) = true →
  build_args {| cwd := dir; prompt := text; maxBudget := Some b |}
  = ["-p"; text; "--dangerously-skip-permissions";
     "--max-turns"; toString (max_turns b); "--verbose"].
Proof.
  intros Hb. unfold build_args. cbn [maxBudget prompt]. by rewrite Hb.
Qed.

End turns_facts.

Section spawner_facts.
Import Spawner.
Implicit Types (o : SpawnOptions) (cp : ClaudeProcess).

Lemma started_args o :
  spawnargs <$> process (spawnClaude o) = Some (build_args o).
Proof. done. Qed.

Lemma on_child_started o ev :
  ∃ cp' out, on_child ev (spawnClaude o) = (cp', out) ∧ is_Some (process cp').
Proof. destruct ev; simpl; eauto. Qed.

Lemma deliver_app evs1 evs2 cp :
  deliver (evs1 ++ evs2) cp =
  let '(cp1, out1) := deliver evs1 cp in
  let '(cp2, out2) := deliver evs2 cp1 in
  (cp2, out1 ++ out2).
Proof.
  revert cp. induction evs1 as [|ev evs1 IH]; intros cp; simpl.
  - by destruct (deliver evs2 cp).
  - destruct (on_child ev cp) as [cp1 out1]. rewrite IH.
    destruct (deliver evs1 cp1) as [cp2 out2].
    destruct (deliver evs2 cp2) as [cp3 out3]. by rewrite app_assoc.
Qed.

Lemma exit_count_app es1 es2 :
  exit_count (es1 ++ es2) = (exit_count es1 + exit_count es2)%nat.
Proof. unfold exit_count. by rewrite filter_app, length_app. Qed.

(** Chunks of data never make the supervisor emit [exit], and leave the
    child handle in place. *)
Lemma deliver_chunks chunks cp :
  is_Some (process cp) →
  is_Some (process (deliver (chunk_event <$> chunks) cp).1) ∧
  exit_count (deliver (chunk_event <$> chunks) cp).2 = 0%nat.
Proof.
  revert cp. induction chunks as [|c chunks IH]; intros cp [h Hh].
  - split; [by exists h|done].
  - rewrite fmap_cons. cbn [deliver].
    destruct (on_child (chunk_event c) cp) as [cp1 out1] eqn:E1.
    assert (is_Some (process cp1) ∧ exit_count out1 = 0%nat) as [H1 H2].
    { unfold on_child in E1. rewrite Hh in E1.
      destruct c; simpl in E1; simplify_eq; simpl; eauto. }
    destruct (IH cp1 H1) as [IH1 IH2].
    destruct (deliver (chunk_event <$> chunks) cp1) as [cp2 out2].
    simpl in *. split; [done|]. rewrite exit_count_app. lia.
Qed.

End spawner_facts.

(** C5.  A worker started with a budget [b] that JavaScript treats as
    given (any number but 0 and NaN) receives the argument pair
    [--max-turns n], where [n] is the text of
    [Math.max(25, Math.ceil(b * 10))] as JavaScript computes it: the
    product [b * 10] is rounded to a double before [Math.ceil] sees it.
    The number passed is 25 or more.  For a finite [b] whose exact
    [max(25, ceil(b * 10))] is at most [2^53], the number passed is that
    value or the whole number just below it, and its text is its decimal
    numeral; for a whole number of dollars it is exactly
    [max(25, 10 * b)].  A worker started without a budget receives no
    such argument. *)
Theorem start_max_turns_argument (dir text : string) (b : Number.t) :
  truthy_number (Some b) = true →
  let with_budget :=
    {| Spawner.cwd := dir; Spawner.prompt := text; Spawner.maxBudget := Some b |} in
  let without_budget :=
    {| Spawner.cwd := dir; Spawner.prompt := text; Spawner.maxBudget := None |} in
  Spawner.spawnargs <$> Spawner.process (Spawner.spawnClaude with_budget)
    = Some ["-p"; text; "--dangerously-skip-permissions";
            "--max-turns";
            Number.toString
              (Math.max 25 (Math.ceil (Number.mul b (Number.of_Z 10))));
            "--verbose"] ∧
  (Spawner.max_turns b = Number.infinite false ∨
   ∃ N, Spawner.max_turns b = Number.integer N ∧ 25 ≤ N) ∧
  (∀ n, b = Number.fin n →
     let formula := Z.max 25 (Qceiling (Number.exact n * 10)) in
     formula ≤ 2 ^ 53 →
     ∃ N, Spawner.max_turns b = Number.integer N ∧
          formula - 1 ≤ N ≤ formula ∧
          Number.toString (Number.integer N) = pretty N) ∧
  (∀ d, b = Number.of_Z d → 0 < d → 10 * d ≤ 2 ^ 53 →
     Spawner.max_turns b = Number.integer (Z.max 25 (10 * d))) ∧
  Spawner.spawnargs <$> Spawner.process (Spawner.spawnClaude without_budget)
    = Some ["-p"; text; "--dangerously-skip-permissions"; "--verbose"].
Proof.
  intros Hb. cbv zeta. split_and!.
  - rewrite started_args. f_equal. by apply build_args_with_budget.
  - apply max_turns_cases. by intros ->.
  - intros n -> Hle.
    destruct (max_turns_near n Hle) as (N & HN & _ & Hnear & Htext).
    by exists N.
  - intros d -> Hd Hle. by apply max_turns_whole.
  - done.
Qed.

Lemma start_max_turns_argument_witness :
  truthy_number (Some (Number.of_Z 1)) = true ∧
  Spawner.spawnargs <$> Spawner.process
    (Spawner.spawnClaude {| Spawner.cwd := "/tmp/test-project";
                            Spawner.prompt := "Fix bug";
                            Spawner.maxBudget := Some (Number.of_Z 1) |})
  = Some ["-p"; "Fix bug"; "--dangerously-skip-permissions";
          "--max-turns"; "25"; "--verbose"].
Proof.
  assert (truthy_number (Some (Number.of_Z 1)) = true) as H
    by (vm_compute; reflexivity).
  split; [exact H|].
  refine (eq_trans
            (proj1 (start_max_turns_argument
                      "/tmp/test-project" "Fix bug" (Number.of_Z 1) H)) _).
  vm_compute. reflexivity.
Defined.

(** C5 as the specification words it fails at the budget 2.6.  The double
    nearest to 2.6 lies above it, so [ceil(b * 10)] on the value of [b] is
    27; the product [b * 10] is rounded to the double 26 and the worker
    receives [--max-turns 26]. *)
Lemma budget_2_6_passes_26_turns :
  truthy_number (Some Scenario.two_point_six) = true ∧
  Spawner.spawnargs <$> Spawner.process
    (Spawner.spawnClaude {| Spawner.cwd := "/tmp/test-project";
                            Spawner.prompt := "Fix the bug";
                            Spawner.maxBudget := Some Scenario.two_point_six |})
  = Some ["-p"; "Fix the bug"; "--dangerously-skip-permissions";
          "--max-turns"; "26"; "--verbose"] ∧
  (26 # 10 < Number.exact Scenario.two_point_six_units)%Q ∧
  Z.max 25 (Qceiling (Number.exact Scenario.two_point_six_units * 10)) = 27 ∧
  Spawner.max_turns Scenario.two_point_six
  ≠ Number.integer
      (Z.max 25 (Qceiling (Number.exact Scenario.two_point_six_units * 10))).
Proof.
  split_and!; [by vm_compute..|].
  vm_compute. intros H. discriminate H.
Qed.

(** The text of a large number of turns is in exponent form: for the
    budget [10^21] the worker receives [--max-turns 1e+22]. *)
Lemma large_budget_in_exponent_form :
  Spawner.build_args {| Spawner.cwd := "/tmp/test-project";
                        Spawner.prompt := "Fix the bug";
                        Spawner.maxBudget := Some (Number.of_Z (10 ^ 21)) |}
  = ["-p"; "Fix the bug"; "--dangerously-skip-permissions";
     "--max-turns"; "1e+22"; "--verbose"].
Proof. by vm_compute. Qed.



(** ** The lifecycle engine *)

Section manager_facts.
Import Manager.
Implicit Types (st : State) (l : Label) (task : TaskId).
Implicit Types (m : list (TaskId * ProcId)).

(** *** The map *)

Lemma map_get_None k m : map_get k m = None ↔ k ∉ m.*1.
Proof.
  unfold map_get. rewrite fmap_None, list_find_None, Forall_forall.
  rewrite list_elem_of_fmap. split.
  - intros H (e & -> & He). by eapply H.
  - intros H e He Hk. apply H. eauto.
Qed.

Lemma map_get_is_Some k m : is_Some (map_get k m) ↔ k ∈ m.*1.
Proof.
  rewrite <-not_eq_None_Some, map_get_None.
  destruct (decide (k ∈ m.*1)); naive_solver.
Qed.

Lemma keys_map_delete t k m : t ∈ (map_delete k m).*1 ↔ t ≠ k ∧ t ∈ m.*1.
Proof.
  unfold map_delete. rewrite !list_elem_of_fmap. split.
  - intros (e & -> & He). apply list_elem_of_filter in He as [H1 H2]. eauto.
  - intros (Hne & e & -> & He). exists e. split; [done|].
    by apply list_elem_of_filter.
Qed.

Lemma keys_map_set t k v m : t ∈ (map_set k v m).*1 → t = k ∨ t ∈ m.*1.
Proof.
  unfold map_set. destruct (list_find _ m) as [[i e]|] eqn:E.
  - rewrite list_fmap_insert. simpl. intros H.
    apply list_elem_of_lookup in H as [j Hj].
    destruct (decide (i = j)) as [->|Hne].
    + apply list_find_Some in E as (Hi & _).
      rewrite list_lookup_insert_eq in Hj; [left; congruence|].
      rewrite length_fmap. by eapply lookup_lt_Some.
    + rewrite list_lookup_insert_ne in Hj by done. right.
      apply list_elem_of_lookup. eauto.
  - rewrite fmap_app. simpl. intros H. apply elem_of_app in H as [H|H]; [by right|].
    left. by apply list_elem_of_singleton in H.
Qed.

(** *** Tasks whose start is in flight *)

Lemma admitted_suspend st k :
  admitted (suspend k st) = admitted st ++ option_list (lookup_of k).
Proof.
  unfold admitted, suspend. simpl. rewrite omap_app. simpl.
  by destruct (lookup_of k).
Qed.

Lemma admitted_unsuspend st i t : t ∈ admitted (unsuspend i st) → t ∈ admitted st.
Proof.
  unfold admitted, unsuspend. simpl. rewrite !list_elem_of_omap.
  intros (k & Hk & Ht). exists k. split; [|done]. by eapply list_elem_of_delete_inv.
Qed.

Lemma admitted_lookup st i t :
  suspended st !! i = Some (startTask_lookup t) → t ∈ admitted st.
Proof.
  intros H. unfold admitted. apply list_elem_of_omap.
  exists (startTask_lookup t). split; [|done]. by eapply list_elem_of_lookup_2.
Qed.

(** *** The invariant *)

Lemma Inv_init : Inv init.
Proof.
  split; simpl.
  - intros i obj H. by rewrite lookup_nil in H.
  - constructor.
  - constructor.
  - constructor.
  - constructor.
  - intros u Hu. by apply elem_of_nil in Hu.
Qed.

Lemma Inv_weaken st st' :
  heap st' = heap st → pendingTasks st' = pendingTasks st →
  runningTasks st' = runningTasks st →
  (∀ t, t ∈ admitted st' → t ∈ admitted st) →
  Inv st → Inv st'.
Proof.
  intros Hh Hp Hr Ha [H1 H2 H3 H4 H5 H6].
  split; rewrite ?Hh, ?Hp, ?Hr; try done.
  - apply Forall_forall. intros t Ht. rewrite Forall_forall in H5. auto.
  - intros t Ht. destruct (H6 t Ht). split; auto.
Qed.

Lemma Inv_mutate st task f :
  (∀ x, Task.id (f x) = Task.id x) → Inv st → Inv (mutate task f st).
Proof.
  intros Hf [H1 H2 H3 H4 H5 H6].
  split; simpl; rewrite ?length_alter; try done.
  intros i obj. destruct (decide (i = task)) as [->|Hne].
  - rewrite list_lookup_alter_eq. intros H.
    apply fmap_Some in H as (x & Hx & ->). rewrite Hf. by apply H1.
  - rewrite list_lookup_alter_ne by done. apply H1.
Qed.

Lemma Inv_emit st e : Inv st → Inv (emit e st).
Proof. by apply Inv_weaken. Qed.

Lemma Inv_suspend st k : lookup_of k = None → Inv st → Inv (suspend k st).
Proof.
  intros Hk. apply Inv_weaken; try done.
  intros t. rewrite admitted_suspend, Hk. simpl. by rewrite app_nil_r.
Qed.

Lemma Inv_unsuspend st i : Inv st → Inv (unsuspend i st).
Proof. apply Inv_weaken; try done. apply admitted_unsuspend. Qed.

Lemma Inv_set_procs st ps : Inv st → Inv (set_procs ps st).
Proof. by apply Inv_weaken. Qed.

Lemma Inv_call_addTaskToHistory st task : Inv st → Inv (call_addTaskToHistory task st).
Proof.
  unfold call_addTaskToHistory. destruct (heap st !! task); [|done].
  by apply Inv_weaken.
Qed.

Lemma Forall_filter_keep {A} (P Q : A → Prop) `{!∀ x, Decision (Q x)} (xs : list A) :
  Forall P xs → Forall P (filter Q xs).
Proof.
  induction 1 as [|x xs Hx Hxs IH]; [constructor|].
  rewrite filter_cons. case_decide; [by constructor|done].
Qed.

Lemma Inv_map_delete st k :
  Inv st → Inv (set_runningTasks (map_delete k (runningTasks st)) st).
Proof.
  intros [H1 H2 H3 H4 H5 H6]. split; simpl; try done.
  - unfold map_delete. by apply Forall_filter_keep.
  - intros t Ht. destruct (H6 t Ht) as [Ha Hr]. split; [done|].
    rewrite keys_map_delete. tauto.
Qed.

Lemma Inv_map_set st k v :
  (k < length (heap st))%nat → k ∉ pendingTasks st → Inv st →
  Inv (set_runningTasks (map_set k v (runningTasks st)) st).
Proof.
  intros Hk Hq [H1 H2 H3 H4 H5 H6]. split; simpl; try done.
  - unfold map_set. destruct (list_find _ _) as [[i e]|].
    + by apply Forall_insert.
    + apply Forall_app. split; [done|]. by constructor.
  - intros t Ht. destruct (H6 t Ht) as [Ha Hr]. split; [done|].
    intros [->|Hin]%keys_map_set; done.
Qed.

Lemma StronglySorted_lt_head (t : nat) (q : list nat) :
  StronglySorted lt (t :: q) → t ∉ q.
Proof.
  intros [Hq Ht]%StronglySorted_inv Hin.
  rewrite Forall_forall in Ht. specialize (Ht t Hin). lia.
Qed.

Lemma Inv_processQueue st : Inv st → Inv (processQueue st).
Proof.
  intros HI. unfold processQueue.
  destruct (pendingTasks st) as [|t rest] eqn:E; [done|].
  case_decide; [|done].
  destruct HI as [H1 H2 H3 H4 H5 H6]. rewrite E in H2, H3, H6.
  pose proof (StronglySorted_lt_head _ _ H3) as Hfresh.
  apply StronglySorted_inv in H3 as [H3 H3'].
  apply Forall_cons in H2 as [H2 H2'].
  split; simpl; try done.
  - fold (suspend (startTask_lookup t) (set_pendingTasks rest st)).
    rewrite admitted_suspend. simpl. apply Forall_app. split; [done|].
    by constructor.
  - intros u Hu.
    fold (suspend (startTask_lookup t) (set_pendingTasks rest st)).
    rewrite admitted_suspend. simpl.
    destruct (H6 u) as [Ha Hr]; [by right|]. split; [|done].
    intros [Hin|Hin]%elem_of_app; [done|].
    apply list_elem_of_singleton in Hin. by subst.
Qed.

Lemma Inv_push_pending st input now :
  Inv st → Inv (push_pending (new_task (length (heap st)) input now) st).
Proof.
  intros [H1 H2 H3 H4 H5 H6]. split; simpl.
  - intros i obj Hi. apply lookup_app_Some in Hi as [Hi|[Hge Hi]]; [by apply H1|].
    apply list_lookup_singleton_Some in Hi as [Hi <-]. simpl. lia.
  - rewrite length_app. simpl. apply Forall_app. split.
    + eapply Forall_impl; [done|]. simpl. lia.
    + constructor; [lia|done].
  - clear -H2 H3. induction H3 as [|t q Hq IH Ht]; simpl.
    + repeat constructor.
    + inversion H2; simplify_eq. constructor; [by apply IH|].
      apply Forall_app. split; [done|]. by repeat constructor.
  - rewrite length_app. eapply Forall_impl; [done|]. simpl. lia.
  - rewrite length_app. eapply Forall_impl; [done|]. simpl. lia.
  - intros t [Ht|Ht]%elem_of_app; [by apply H6|].
    apply list_elem_of_singleton in Ht. subst t. split.
    + intros Hin. rewrite Forall_forall in H5. specialize (H5 _ Hin). simpl in H5. lia.
    + intros (e & He & Hin)%list_elem_of_fmap.
      rewrite Forall_forall in H4. specialize (H4 _ Hin). simpl in *. lia.
Qed.

Lemma Inv_delete_pending st i :
  Inv st → Inv (set_pendingTasks (delete i (pendingTasks st)) st).
Proof.
  intros [H1 H2 H3 H4 H5 H6]. split; simpl; try done.
  - by apply Forall_delete.
  - clear -H3. revert i. induction H3 as [|t q Hq IH Ht]; intros [|i]; simpl.
    + constructor.
    + constructor.
    + done.
    + constructor; [apply IH|]. by apply Forall_delete.
  - intros t Ht. apply H6. by eapply list_elem_of_delete_inv.
Qed.

Local Ltac keeps_id := intros ?; simpl; repeat case_match; reflexivity.

Local Ltac inv_chain :=
  repeat first
    [ assumption
    | apply Inv_suspend; [reflexivity|]
    | apply Inv_unsuspend | apply Inv_emit
    | apply Inv_call_addTaskToHistory | apply Inv_processQueue
    | apply Inv_set_procs | apply Inv_map_delete
    | apply Inv_mutate; [keeps_id|] ].

Lemma Inv_createTask st input project now :
  Inv st → Inv (createTask input project now st).2.
Proof.
  intros HI. unfold createTask. destruct project; [|done]. simpl.
  inv_chain. by apply Inv_push_pending.
Qed.

Lemma Inv_startTask_resume st task project now :
  task ∉ pendingTasks st → Inv st → Inv (startTask_resume task project now st).
Proof.
  intros Hq HI. unfold startTask_resume.
  destruct (heap st !! task) as [obj|] eqn:E; [|done].
  destruct project as [pr|]; [|inv_chain].
  inv_chain. apply Inv_map_set.
  - simpl. rewrite !length_alter. by eapply lookup_lt_Some.
  - done.
  - inv_chain.
Qed.

Lemma Inv_on_exit st task code now : Inv st → Inv (on_exit task code now st).
Proof.
  intros HI. unfold on_exit. inv_chain.
  destruct code as [[| |]|]; inv_chain.
Qed.

Lemma Inv_listener st task now e : Inv st → Inv (listener task now st e).
Proof.
  intros HI. destruct e; simpl.
  - unfold on_output. inv_chain.
  - unfold on_error. inv_chain.
  - by apply Inv_on_exit.
Qed.

Lemma Inv_listeners st task now es :
  Inv st → Inv (foldl (listener task now) st es).
Proof.
  revert st. induction es as [|e es IH]; intros st HI; [done|].
  simpl. by apply IH, Inv_listener.
Qed.

Lemma Inv_on_child_event st p ev now : Inv st → Inv (on_child_event p ev now st).
Proof.
  intros HI. unfold on_child_event. destruct (procs st !! p) as [sp|]; [|done].
  destruct (Spawner.on_child ev (supervisor sp)) as [cp emitted].
  by apply Inv_listeners, Inv_set_procs.
Qed.

Lemma Inv_cancelTask st taskId now : Inv st → Inv (cancelTask taskId now st).2.
Proof.
  intros HI. unfold cancelTask.
  destruct (list_find _ (pendingTasks st)) as [[i t]|].
  - simpl. inv_chain. by apply Inv_delete_pending.
  - destruct (map_get taskId (runningTasks st)) as [p|]; [|done]. simpl.
    unfold kill_proc. inv_chain.
    apply (Inv_map_delete
             (mutate taskId (Task.set_completedAt now)
                (mutate taskId (Task.set_status cancelled)
                   (set_procs _ st)))).
    inv_chain.
Qed.

Lemma Inv_step st l : Inv st → Inv (step st l).
Proof.
  intros HI. destruct l as [input project now|taskId now|k project now|k|k|p ev now];
    simpl.
  - by apply Inv_createTask.
  - by apply Inv_cancelTask.
  - destruct (suspended st !! k) as [[t| | |]|] eqn:E; try done.
    apply Inv_startTask_resume; [|by apply Inv_unsuspend].
    simpl. intros Hin. apply (inv_waiting _ HI) in Hin as [Hin _].
    apply Hin. by eapply admitted_lookup.
  - destruct (suspended st !! k) as [[]|]; try done; inv_chain.
  - destruct (suspended st !! k) as [[]|]; try done; inv_chain.
  - by apply Inv_on_child_event.
Qed.

Lemma Inv_run ls st : Inv st → Inv (run ls st).
Proof.
  revert st. induction ls as [|l ls IH]; intros st HI; [done|].
  simpl. by apply IH, Inv_step.
Qed.

Lemma reachable_Inv st : reachable st → Inv st.
Proof. intros [ls ->]. apply Inv_run, Inv_init. Qed.

Lemma reachable_step st l : reachable st → reachable (step st l).
Proof.
  intros [ls ->]. exists (ls ++ [l]). unfold run. by rewrite foldl_app.
Qed.

(** *** What each piece of code does to the queue and to the lookups in
    flight *)

Lemma pending_call_addTaskToHistory st task :
  pendingTasks (call_addTaskToHistory task st) = pendingTasks st.
Proof. unfold call_addTaskToHistory. by destruct (heap st !! task). Qed.

Lemma admitted_call_addTaskToHistory st task :
  admitted (call_addTaskToHistory task st) = admitted st.
Proof. unfold call_addTaskToHistory. by destruct (heap st !! task). Qed.

Lemma running_call_addTaskToHistory st task :
  runningTasks (call_addTaskToHistory task st) = runningTasks st.
Proof. unfold call_addTaskToHistory. by destruct (heap st !! task). Qed.

Lemma suspended_call_addTaskToHistory st task :
  suspended (call_addTaskToHistory task st) = suspended st.
Proof. unfold call_addTaskToHistory. by destruct (heap st !! task). Qed.

Lemma heap_call_addTaskToHistory st task :
  heap (call_addTaskToHistory task st) = heap st.
Proof. unfold call_addTaskToHistory. by destruct (heap st !! task). Qed.

Lemma events_call_addTaskToHistory st task :
  events (call_addTaskToHistory task st) = events st.
Proof. unfold call_addTaskToHistory. by destruct (heap st !! task). Qed.

Lemma on_exit_frame st task code now :
  pendingTasks (on_exit task code now st) = pendingTasks st ∧
  admitted (on_exit task code now st) = admitted st ∧
  runningTasks (on_exit task code now st) = map_delete task (runningTasks st).
Proof.
  unfold on_exit. rewrite admitted_suspend. simpl. rewrite app_nil_r.
  rewrite pending_call_addTaskToHistory, admitted_call_addTaskToHistory,
    running_call_addTaskToHistory.
  destruct code as [[| |]|]; done.
Qed.

Lemma listener_frame st task now e :
  pendingTasks (listener task now st e) = pendingTasks st ∧
  admitted (listener task now st e) = admitted st.
Proof.
  destruct e; simpl; [done|done|].
  destruct (on_exit_frame st task code now) as (? & ? & ?). done.
Qed.

Lemma listeners_frame st task now es :
  pendingTasks (foldl (listener task now) st es) = pendingTasks st ∧
  admitted (foldl (listener task now) st es) = admitted st.
Proof.
  revert st. induction es as [|e es IH]; intros st; [done|].
  simpl. destruct (IH (listener task now st e)) as [-> ->].
  apply listener_frame.
Qed.

Lemma on_child_event_frame st p ev now :
  pendingTasks (on_child_event p ev now st) = pendingTasks st ∧
  admitted (on_child_event p ev now st) = admitted st.
Proof.
  unfold on_child_event. destruct (procs st !! p) as [sp|]; [|done].
  destruct (Spawner.on_child ev (supervisor sp)) as [cp emitted].
  by rewrite (proj1 (listeners_frame _ _ _ _)), (proj2 (listeners_frame _ _ _ _)).
Qed.

Lemma startTask_resume_frame st task project now :
  pendingTasks (startTask_resume task project now st) = pendingTasks st ∧
  admitted (startTask_resume task project now st) = admitted st.
Proof.
  unfold startTask_resume. destruct (heap st !! task) as [obj|]; [|done].
  destruct project as [pr|]; rewrite admitted_suspend; simpl; rewrite app_nil_r.
  - done.
  - by rewrite pending_call_addTaskToHistory, admitted_call_addTaskToHistory.
Qed.

Lemma processQueue_cases st :
  processQueue st = st ∨
  ∃ t rest, pendingTasks st = t :: rest ∧
            (map_size (runningTasks st) < MAX_CONCURRENT_TASKS)%nat ∧
            processQueue st = suspend (startTask_lookup t) (set_pendingTasks rest st).
Proof.
  unfold processQueue. destruct (pendingTasks st) as [|t rest]; [by left|].
  case_decide; [|by left]. right. eauto.
Qed.

Lemma running_processQueue st : runningTasks (processQueue st) = runningTasks st.
Proof. destruct (processQueue_cases st) as [->|(t & rest & _ & _ & ->)]; done. Qed.

Lemma list_find_eq_Some (q : list nat) (x i y : nat) :
  list_find (λ t, t = x) q = Some (i, y) → y = x ∧ q !! i = Some x.
Proof. intros (H1 & -> & _)%list_find_Some. done. Qed.

(** A step either leaves the lookups in flight alone (and then changes
    the queue only when it cancels a waiting task), or it ends with a turn
    of [processQueue] on a queue that is the old one, possibly with the
    task just created at its end. *)
Lemma step_shape st l :
  ((∀ t, t ∈ admitted (step st l) → t ∈ admitted st) ∧
   (pendingTasks (step st l) = pendingTasks st ∨
    ∃ i now t, l = call_cancelTask t now ∧ pendingTasks st !! i = Some t ∧
               pendingTasks (step st l) = delete i (pendingTasks st)))
  ∨
  (∃ s, step st l = processQueue s ∧
        (∀ t, t ∈ admitted s → t ∈ admitted st) ∧
        (pendingTasks s = pendingTasks st ∨
         pendingTasks s = pendingTasks st ++ [length (heap st)])).
Proof.
  destruct l as [input project now|taskId now|k project now|k|k|p ev now]; simpl.
  - unfold createTask. destruct project as [pr|]; simpl.
    + right. eexists. split; [done|]. simpl. split; [done|]. by right.
    + left. split; [done|]. by left.
  - unfold cancelTask.
    destruct (list_find _ (pendingTasks st)) as [[i t]|] eqn:E.
    + apply list_find_eq_Some in E as [-> E]. left. simpl.
      rewrite admitted_call_addTaskToHistory, pending_call_addTaskToHistory. simpl.
      split; [done|]. right. by exists i, now, taskId.
    + destruct (map_get taskId (runningTasks st)) as [p|]; simpl.
      * right. eexists. split; [done|].
        rewrite admitted_call_addTaskToHistory, pending_call_addTaskToHistory.
        simpl. split; [done|]. by left.
      * left. split; [done|]. by left.
  - left. destruct (suspended st !! k) as [[t| | |]|]; try (split; [done|by left]).
    destruct (startTask_resume_frame (unsuspend k st) t project now) as [-> ->].
    split; [apply admitted_unsuspend|by left].
  - destruct (suspended st !! k) as [[t|t| |t]|]; try (left; split; [done|by left]).
    + left. rewrite admitted_suspend. simpl. rewrite app_nil_r.
      split; [apply admitted_unsuspend|by left].
    + right. eexists. split; [done|]. split; [apply admitted_unsuspend|by left].
  - destruct (suspended st !! k) as [[t|t| |t]|]; try (left; split; [done|by left]).
    right. eexists. split; [done|]. split; [apply admitted_unsuspend|by left].
  - left. destruct (on_child_event_frame st p ev now) as [-> ->].
    split; [done|by left].
Qed.

Lemma sorted_push st :
  Inv st → StronglySorted lt (pendingTasks st ++ [length (heap st)]).
Proof.
  intros HI. apply StronglySorted_app_2.
  - intros x y Hx Hy. apply list_elem_of_singleton in Hy as ->.
    pose proof (inv_pending _ HI) as H. rewrite Forall_forall in H. by apply H.
  - apply (inv_sorted _ HI).
  - repeat constructor.
Qed.

(** *** The running set *)

Lemma heap_processQueue st : heap (processQueue st) = heap st.
Proof. destruct (processQueue_cases st) as [->|(t & rest & _ & _ & ->)]; done. Qed.

Lemma events_processQueue st : events (processQueue st) = events st.
Proof. destruct (processQueue_cases st) as [->|(t & rest & _ & _ & ->)]; done. Qed.

Lemma keys_bound st X :
  Inv st → X ∈ (runningTasks st).*1 → (X < length (heap st))%nat.
Proof.
  intros HI (e & -> & He)%list_elem_of_fmap.
  pose proof (inv_running _ HI) as H. rewrite Forall_forall in H. by apply H.
Qed.

Lemma keys_map_set_mono t k v m : t ∈ m.*1 → t ∈ (map_set k v m).*1.
Proof.
  unfold map_set. destruct (list_find _ m) as [[i e]|] eqn:E.
  - apply list_find_Some in E as (Hi & Hk & _).
    rewrite list_fmap_insert. simpl. subst k.
    rewrite list_insert_id; [done|]. by rewrite list_lookup_fmap, Hi.
  - rewrite fmap_app. intros H. apply elem_of_app. by left.
Qed.

Lemma keys_map_set_new k v m : k ∈ (map_set k v m).*1.
Proof.
  unfold map_set. destruct (list_find _ m) as [[i e]|] eqn:E.
  - apply list_find_Some in E as (Hi & Hk & _).
    rewrite list_fmap_insert. simpl. apply list_elem_of_insert.
    rewrite length_fmap. by eapply lookup_lt_Some.
  - rewrite fmap_app. apply elem_of_app. right. simpl. by apply list_elem_of_singleton.
Qed.

Lemma length_map_delete k m :
  k ∈ m.*1 → (map_size (map_delete k m) < map_size m)%nat.
Proof.
  intros (e & -> & He)%list_elem_of_fmap. unfold map_delete, map_size.
  eapply length_filter_lt; [done|]. by intros H.
Qed.

Lemma on_exit_status st task code now :
  (task < length (heap st))%nat →
  ∃ r, status_of task (on_exit task code now st) = Some r ∧ is_terminal r = true.
Proof.
  intros Hlt. apply lookup_lt_is_Some in Hlt as [obj Hobj].
  unfold status_of, on_exit. simpl. rewrite heap_call_addTaskToHistory.
  destruct code as [[| |]|]; simpl; rewrite !list_lookup_alter_eq, Hobj; simpl;
    repeat case_match; simpl; eauto.
Qed.

Lemma on_output_frame st task data :
  runningTasks (on_output task data st) = runningTasks st ∧
  length (heap (on_output task data st)) = length (heap st).
Proof. unfold on_output. simpl. by rewrite length_alter. Qed.

Lemma on_error_frame st task data :
  runningTasks (on_error task data st) = runningTasks st ∧
  length (heap (on_error task data st)) = length (heap st).
Proof. unfold on_error. simpl. by rewrite length_alter. Qed.

Lemma running_startTask_resume st task project now X :
  X ∈ (runningTasks st).*1 →
  X ∈ (runningTasks (startTask_resume task project now st)).*1.
Proof.
  unfold startTask_resume. destruct (heap st !! task) as [obj|]; [|done].
  destruct project as [pr|]; simpl.
  - apply keys_map_set_mono.
  - by rewrite running_call_addTaskToHistory.
Qed.

(** A task leaves the running set only in a step that gives it one of the
    three final statuses. *)
Lemma leaves_running_terminal st l X :
  Inv st →
  X ∈ (runningTasks st).*1 → X ∉ (runningTasks (step st l)).*1 →
  ∃ r, status_of X (step st l) = Some r ∧ is_terminal r = true.
Proof.
  intros HI Hin Hout. pose proof (keys_bound _ _ HI Hin) as Hlt.
  destruct l as [input project now|taskId now|k project now|k|k|p ev now];
    simpl in *.
  - exfalso. apply Hout. unfold createTask. destruct project; [|done].
    simpl. by rewrite running_processQueue.
  - unfold cancelTask in *.
    destruct (list_find _ (pendingTasks st)) as [[i t]|].
    { exfalso. apply Hout. simpl. by rewrite running_call_addTaskToHistory. }
    destruct (map_get taskId (runningTasks st)) as [p|]; [|done]. simpl in *.
    rewrite running_processQueue, running_call_addTaskToHistory in Hout.
    simpl in Hout. rewrite keys_map_delete in Hout.
    assert (X = taskId) as -> by (destruct (decide (X = taskId)); tauto).
    unfold status_of. rewrite heap_processQueue, heap_call_addTaskToHistory. simpl.
    apply lookup_lt_is_Some in Hlt as [obj Hobj].
    rewrite !list_lookup_alter_eq, Hobj. simpl. eauto.
  - exfalso. apply Hout.
    destruct (suspended st !! k) as [[t| | |]|]; try done.
    by apply running_startTask_resume.
  - exfalso. apply Hout.
    destruct (suspended st !! k) as [[t|t| |t]|]; try done.
    by rewrite running_processQueue.
  - exfalso. apply Hout.
    destruct (suspended st !! k) as [[t|t| |t]|]; try done.
    by rewrite running_processQueue.
  - unfold on_child_event in *. destruct (procs st !! p) as [sp|]; [|done].
    unfold Spawner.on_child in *.
    destruct (Spawner.process (supervisor sp)) as [c|]; [|done].
    destruct ev as [d|d|code signal|message];
      cbn -[on_output on_error on_exit map_delete] in *.
    + by rewrite (proj1 (on_output_frame _ _ _)) in Hout.
    + by rewrite (proj1 (on_error_frame _ _ _)) in Hout.
    + rewrite (proj2 (proj2 (on_exit_frame _ _ _ _))) in Hout. simpl in Hout.
      rewrite keys_map_delete in Hout.
      assert (X = owner sp) as -> by (destruct (decide (X = owner sp)); tauto).
      by apply on_exit_status.
    + rewrite (proj2 (proj2 (on_exit_frame _ _ _ _))) in Hout.
      rewrite (proj1 (on_error_frame _ _ _)) in Hout. simpl in Hout.
      rewrite keys_map_delete in Hout.
      assert (X = owner sp) as -> by (destruct (decide (X = owner sp)); tauto).
      apply on_exit_status. by rewrite (proj2 (on_error_frame _ _ _)).
Qed.

(** *** The ceiling, when admissions do not overlap *)

Lemma length_filter_le {A} (P : A → Prop) `{!∀ x, Decision (P x)} (xs : list A) :
  (length (filter P xs) ≤ length xs)%nat.
Proof.
  induction xs as [|x xs IH]; [done|].
  rewrite filter_cons. case_decide; simpl; lia.
Qed.

Lemma map_size_delete k m : (map_size (map_delete k m) ≤ map_size m)%nat.
Proof. apply length_filter_le. Qed.

Lemma map_size_set k v m : (map_size (map_set k v m) ≤ S (map_size m))%nat.
Proof.
  unfold map_set, map_size. destruct (list_find _ m) as [[i e]|].
  - rewrite length_insert. lia.
  - rewrite length_app. simpl. lia.
Qed.

Lemma length_omap_delete {A B} (f : A → option B) (xs : list A) k x :
  xs !! k = Some x →
  length (omap f xs)
  = (length (omap f (delete k xs)) + length (option_list (f x)))%nat.
Proof.
  intros Hk. rewrite delete_take_drop.
  rewrite <-(take_drop_middle _ _ _ Hk) at 1.
  rewrite !omap_app, !length_app.
  change (x :: drop (S k) xs) with ([x] ++ drop (S k) xs).
  rewrite omap_app, length_app.
  assert (omap f [x] = option_list (f x)) as -> by (simpl; by destruct (f x)).
  lia.
Qed.

Lemma length_admitted_unsuspend st k t :
  suspended st !! k = Some (startTask_lookup t) →
  S (length (admitted (unsuspend k st))) = length (admitted st).
Proof.
  intros Hk. unfold admitted, unsuspend. cbn [suspended set_suspended].
  rewrite (length_omap_delete lookup_of _ _ _ Hk). simpl. lia.
Qed.

Lemma length_admitted_unsuspend_le st k :
  (length (admitted (unsuspend k st)) ≤ length (admitted st))%nat.
Proof.
  unfold admitted, unsuspend. cbn [suspended set_suspended].
  destruct (suspended st !! k) as [x|] eqn:Hk.
  - rewrite (length_omap_delete lookup_of _ _ _ Hk). lia.
  - rewrite delete_take_drop, drop_ge, app_nil_r, take_ge; [done| |];
      apply lookup_ge_None in Hk; lia.
Qed.

Lemma occupied_startTask_resume st k t project now :
  suspended st !! k = Some (startTask_lookup t) →
  (occupied (startTask_resume t project now (unsuspend k st)) ≤ occupied st)%nat.
Proof.
  intros Hk. pose proof (length_admitted_unsuspend _ _ _ Hk) as Hlen.
  unfold occupied.
  rewrite (proj2 (startTask_resume_frame (unsuspend k st) t project now)).
  assert (map_size (runningTasks (startTask_resume t project now (unsuspend k st)))
          ≤ S (map_size (runningTasks st)))%nat; [|lia].
  unfold startTask_resume. destruct (heap (unsuspend k st) !! t) as [obj|]; [|simpl; lia].
  destruct project as [pr|]; simpl.
  - apply map_size_set.
  - rewrite running_call_addTaskToHistory. simpl. lia.
Qed.

Lemma running_listeners_le st task now es :
  (map_size (runningTasks (foldl (listener task now) st es))
   ≤ map_size (runningTasks st))%nat.
Proof.
  revert st. induction es as [|e es IH]; intros st; [done|].
  cbn [foldl]. etrans; [apply IH|].
  destruct e as [d|d|code signal]; cbn [listener].
  - by rewrite (proj1 (on_output_frame _ _ _)).
  - by rewrite (proj1 (on_error_frame _ _ _)).
  - rewrite (proj2 (proj2 (on_exit_frame _ _ _ _))). apply map_size_delete.
Qed.

(** Every step is some code that takes no new slot, possibly followed by
    one turn of [processQueue]. *)
Lemma step_occupied st l :
  ∃ s, (step st l = s ∨
        step st l = processQueue s ∧
        (pendingTasks s = pendingTasks st ∨
         pendingTasks s = pendingTasks st ++ [length (heap st)])) ∧
       (occupied s ≤ occupied st)%nat ∧
       (∀ t, t ∈ admitted s → t ∈ admitted st).
Proof.
  destruct l as [input project now|taskId now|k project now|k|k|p ev now]; simpl.
  - unfold createTask. destruct project as [pr|]; simpl.
    + eexists. split; [right; split; [reflexivity|by right]|]. done.
    + exists st. by split; [left|].
  - unfold cancelTask.
    destruct (list_find _ (pendingTasks st)) as [[i t]|]; simpl.
    + eexists. split; [by left|]. unfold occupied.
      by rewrite running_call_addTaskToHistory, admitted_call_addTaskToHistory.
    + destruct (map_get taskId (runningTasks st)) as [p|]; simpl.
      * eexists. split.
        { right. split; [reflexivity|]. left. by rewrite pending_call_addTaskToHistory. }
        unfold occupied.
        rewrite running_call_addTaskToHistory, admitted_call_addTaskToHistory.
        split; [|done]. simpl.
        pose proof (map_size_delete taskId (runningTasks st)).
        unfold admitted. simpl. lia.
      * exists st. by split; [left|].
  - destruct (suspended st !! k) as [[t| | |]|] eqn:E;
      try (exists st; by split; [left|]).
    eexists. split; [by left|]. split.
    + by apply occupied_startTask_resume.
    + rewrite (proj2 (startTask_resume_frame _ _ _ _)). apply admitted_unsuspend.
  - destruct (suspended st !! k) as [[t|t| |t]|] eqn:E;
      try (exists st; by split; [left|]).
    + eexists. split; [by left|]. unfold occupied.
      rewrite admitted_suspend. simpl. rewrite app_nil_r.
      pose proof (length_admitted_unsuspend_le st k).
      split; [lia|apply admitted_unsuspend].
    + exists (unsuspend k st). split; [right; split; [done|by left]|].
      unfold occupied. simpl. pose proof (length_admitted_unsuspend_le st k).
      split; [lia|apply admitted_unsuspend].
  - destruct (suspended st !! k) as [[t|t| |t]|] eqn:E;
      try (exists st; by split; [left|]).
    exists (unsuspend k st). split; [right; split; [done|by left]|].
    unfold occupied. simpl. pose proof (length_admitted_unsuspend_le st k).
    split; [lia|apply admitted_unsuspend].
  - eexists. split; [by left|]. unfold occupied.
    rewrite (proj2 (on_child_event_frame _ _ _ _)). split; [|done].
    unfold on_child_event. destruct (procs st !! p) as [sp|]; [|done].
    destruct (Spawner.on_child ev (supervisor sp)) as [cp emitted].
    pose proof (running_listeners_le
                  (set_procs (<[p:={| owner := owner sp; supervisor := cp |}]> (procs st)) st)
                  (owner sp) now emitted) as H.
    simpl in H. lia.
Qed.

(** The ceiling is kept by every step that admits a task only when no
    other start is in flight: then at most three slots are taken, counting
    the start in flight. *)
Lemma ceiling_without_overlap st l :
  Inv st →
  (occupied st ≤ MAX_CONCURRENT_TASKS)%nat →
  (admitted st = [] ∨ ∀ t, t ∈ admitted (step st l) → t ∈ admitted st) →
  (occupied (step st l) ≤ MAX_CONCURRENT_TASKS)%nat ∧
  (getRunningCount (step st l) ≤ MAX_CONCURRENT_TASKS)%nat.
Proof.
  intros HI Hocc Hsched.
  cut (occupied (step st l) ≤ MAX_CONCURRENT_TASKS)%nat.
  { intros H. split; [done|]. unfold occupied, getRunningCount in *. lia. }
  destruct (step_occupied st l) as (s & [E|[E Hpend]] & Hs & Hadm); rewrite E in *;
    [lia|].
  destruct (processQueue_cases s) as [E'|(t & rest & Hhead & Hfree & E')];
    rewrite E' in *; [lia|].
  unfold occupied in *. rewrite admitted_suspend in *.
  change (runningTasks (suspend (startTask_lookup t) (set_pendingTasks rest s)))
    with (runningTasks s).
  change (admitted (set_pendingTasks rest s)) with (admitted s) in *.
  rewrite length_app. cbn [lookup_of option_list length].
  destruct Hsched as [Hnone|Hquiet].
  - assert (admitted s = []) as ->.
    { destruct (admitted s) as [|u us] eqn:Eu; [done|].
      assert (u ∈ admitted st) as Hu by (apply Hadm; left).
      rewrite Hnone in Hu. by apply elem_of_nil in Hu. }
    simpl. unfold MAX_CONCURRENT_TASKS in *. lia.
  - exfalso. assert (t ∈ admitted st) as Ht.
    { apply Hquiet. apply elem_of_app. right. by apply list_elem_of_singleton. }
    assert (t ∈ pendingTasks st ++ [length (heap st)]) as Hin.
    { destruct Hpend as [Hp|Hp].
      - apply elem_of_app. left. rewrite <-Hp, Hhead. left.
      - rewrite <-Hp, Hhead. left. }
    apply elem_of_app in Hin as [Hin|Hin].
    + by apply (inv_waiting _ HI) in Hin as [Hin _].
    + apply list_elem_of_singleton in Hin as ->.
      pose proof (inv_admitted _ HI) as Hb. rewrite Forall_forall in Hb.
      specialize (Hb _ Ht). simpl in Hb. lia.
Qed.

Lemma ceiling_along_run ls st :
  Inv st →
  (occupied st ≤ MAX_CONCURRENT_TASKS)%nat →
  (∀ ls1 l ls2, ls = ls1 ++ l :: ls2 →
     admitted (run ls1 st) = [] ∨
     ∀ t, t ∈ admitted (step (run ls1 st) l) → t ∈ admitted (run ls1 st)) →
  (getRunningCount (run ls st) ≤ MAX_CONCURRENT_TASKS)%nat.
Proof.
  revert st. induction ls as [|l ls IH]; intros st HI Hocc Hsched.
  - unfold occupied, getRunningCount in *. simpl. lia.
  - simpl. apply IH.
    + by apply Inv_step.
    + apply ceiling_without_overlap; [done|done|]. apply (Hsched [] l ls eq_refl).
    + intros ls1 l' ls2 ->. apply (Hsched (l :: ls1) l' ls2 eq_refl).
Qed.

(** Five submissions, each left to settle before the next: three tasks
    run and two wait. *)
Lemma settled_submissions_respect_ceiling :
  getRunningCount Scenario.three_running_two_waiting = 3%nat ∧
  getPendingCount Scenario.three_running_two_waiting = 2%nat ∧
  pendingTasks Scenario.three_running_two_waiting = [3; 4]%nat ∧
  (runningTasks Scenario.three_running_two_waiting).*1 = [0; 1; 2]%nat.
Proof. vm_compute. repeat split. Qed.

End manager_facts.

(** C8.  [createTask], once the project lookup has answered.  When the
    project does not resolve, the call rejects with "Project not found: "
    followed by the project id, and the engine state is returned untouched
    (no task object, no event, nothing queued).  When it resolves, a task
    object is created with an id no existing task carries, with status
    pending and empty output; it is appended to the pending queue and a
    [task:created] event is emitted for it; after that the admission cycle
    takes one turn.  When [createTask] returns, the object is still as
    created, [task:created] is the one new event, and the task either sits
    at the end of the queue or has just been handed to [startTask]. *)
Theorem createTask_contract
    (st : Manager.State) (input : CreateTaskInput)
    (project : option Manager.Project) (now : Z) :
  Manager.reachable st →
  match project with
  | None =>
      Manager.createTask input None now st
      = (inl ("Project not found: " +:+ input_projectId input), st)
  | Some pr =>
      let id := length (Manager.heap st) in
      let task := Task.mk id (input_projectId input) (input_prompt input) pending
                          (input_maxBudget input) now None None None None "" None in
      let queued := Manager.emit (Manager.task_created id)
                                 (Manager.push_pending task st) in
      let st' := (Manager.createTask input (Some pr) now st).2 in
      Manager.createTask input (Some pr) now st = (inr id, Manager.processQueue queued) ∧
      (∀ obj, obj ∈ Manager.heap st → Task.id obj ≠ id) ∧
      (id ∉ Manager.pendingTasks st) ∧
      (id ∉ (Manager.runningTasks st).*1) ∧
      (id ∉ Manager.admitted st) ∧
      Manager.heap queued = Manager.heap st ++ [task] ∧
      Manager.pendingTasks queued = Manager.pendingTasks st ++ [id] ∧
      Manager.events queued = Manager.events st ++ [Manager.task_created id] ∧
      Manager.heap st' !! id = Some task ∧
      Manager.events st' = Manager.events st ++ [Manager.task_created id] ∧
      Manager.runningTasks st' = Manager.runningTasks st ∧
      (Manager.pendingTasks st' = Manager.pendingTasks st ++ [id] ∧
       Manager.admitted st' = Manager.admitted st
       ∨
       ∃ first rest, Manager.pendingTasks st ++ [id] = first :: rest ∧
                     Manager.pendingTasks st' = rest ∧
                     Manager.admitted st' = Manager.admitted st ++ [first])
  end.
Proof.
  intros Hreach. pose proof (reachable_Inv _ Hreach) as HI.
  destruct project as [pr|]; [|done]. cbv zeta.
  split_and!; try done.
  - intros obj Hobj Hid. apply list_elem_of_lookup in Hobj as [i Hi].
    pose proof (Manager.inv_ids _ HI _ _ Hi). apply lookup_lt_Some in Hi. lia.
  - intros Hin. pose proof (Manager.inv_pending _ HI) as H.
    rewrite Forall_forall in H. specialize (H _ Hin). simpl in H. lia.
  - intros Hin. pose proof (keys_bound _ _ HI Hin). lia.
  - intros Hin. pose proof (Manager.inv_admitted _ HI) as H.
    rewrite Forall_forall in H. specialize (H _ Hin). simpl in H. lia.
  - simpl. rewrite heap_processQueue. simpl. by apply list_lookup_middle.
  - simpl. by rewrite events_processQueue.
  - simpl. by rewrite running_processQueue.
  - simpl.
    match goal with |- context [Manager.processQueue ?q] =>
      destruct (processQueue_cases q) as [->|(t & rest & Hq & _ & ->)] end.
    + by left.
    + right. exists t, rest. simpl in Hq. split_and!; try done.
      rewrite admitted_suspend. done.
Qed.

Lemma createTask_contract_witness :
  Manager.reachable Manager.init ∧
  Manager.createTask (Scenario.input 1) None 0 Manager.init
  = (inl "Project not found: proj-1", Manager.init).
Proof.
  assert (Manager.reachable Manager.init) as H by (by exists []).
  split; [exact H|].
  exact (createTask_contract Manager.init (Scenario.input 1) None 0 H).
Defined.

(** The admission cycle, step by step: what holds of it on every run,
    overlapping submissions included.  Parts (c) and (e) speak of states
    in which at most three tasks run, which the engine does not keep to
    (see the run of four overlapping submissions below).  In every
    reachable state of the engine and for every next step:
    (a) the pending queue is in the order of submission;
    (b) a task that the step hands to [startTask] was the oldest waiting
        task, every task still waiting was submitted after it, and fewer
        than three tasks were running;
    (c) so, with D at the head of the queue, as long as three tasks are
        still running after the step, nobody is handed to [startTask] and D
        keeps the head of the queue (unless the step cancels D itself);
    (d) a task leaves the running set only in a step that makes it
        completed, failed or cancelled;
    (e) when at most three tasks run and one of them is cancelled, the slot
        goes to the head D of the queue and to nobody else;
    (f) and when the project lookup of an admitted task D is answered with
        a project, D becomes running and [task:started] is emitted for it. *)
Theorem admission_is_fifo (st : Manager.State) (l : Manager.Label) :
  Manager.reachable st →
  let st' := Manager.step st l in
  StronglySorted lt (Manager.pendingTasks st) ∧
  (∀ task, task ∈ Manager.admitted st' → task ∉ Manager.admitted st →
     (∀ other, other ∈ Manager.pendingTasks st → (task ≤ other)%nat) ∧
     (∀ other, other ∈ Manager.pendingTasks st' → (task < other)%nat) ∧
     (Manager.getRunningCount st' < Manager.MAX_CONCURRENT_TASKS)%nat) ∧
  (∀ D rest, Manager.pendingTasks st = D :: rest →
     (Manager.MAX_CONCURRENT_TASKS ≤ Manager.getRunningCount st')%nat →
     (∀ task, task ∈ Manager.admitted st' → task ∈ Manager.admitted st) ∧
     (head (Manager.pendingTasks st') = Some D ∨
      ∃ now, l = Manager.call_cancelTask D now)) ∧
  (∀ X, X ∈ (Manager.runningTasks st).*1 → X ∉ (Manager.runningTasks st').*1 →
     ∃ r, Manager.status_of X st' = Some r ∧ is_terminal r = true) ∧
  (∀ X now D rest,
     l = Manager.call_cancelTask X now →
     X ∈ (Manager.runningTasks st).*1 →
     (Manager.getRunningCount st ≤ Manager.MAX_CONCURRENT_TASKS)%nat →
     Manager.pendingTasks st = D :: rest →
     Manager.pendingTasks st' = rest ∧
     Manager.admitted st' = Manager.admitted st ++ [D] ∧
     Manager.status_of X st' = Some cancelled) ∧
  (∀ k D pr now,
     l = Manager.settle_lookup k (Some pr) now →
     Manager.suspended st !! k = Some (Manager.startTask_lookup D) →
     D ∈ (Manager.runningTasks st').*1 ∧
     Manager.status_of D st' = Some running ∧
     last (Manager.events st') = Some (Manager.task_started D)).
Proof.
  intros Hreach. pose proof (reachable_Inv _ Hreach) as HI. cbv zeta.
  split_and!.
  - apply (Manager.inv_sorted _ HI).
  - intros task Hnew Hold.
    destruct (step_shape st l) as [[Hq _]|(s & Hs & Hadm & Hpend)]; [by apply Hq in Hnew|].
    rewrite Hs in *.
    destruct (processQueue_cases s) as [E|(t & rest & Hhead & Hfree & E)];
      rewrite E in *; [by apply Hadm in Hnew|].
    rewrite admitted_suspend in Hnew. simpl in Hnew.
    apply elem_of_app in Hnew as [Hnew|Hnew]; [by apply Hadm in Hnew|].
    apply list_elem_of_singleton in Hnew as ->.
    assert (StronglySorted lt (t :: rest)) as Hsorted.
    { rewrite <-Hhead. destruct Hpend as [->| ->];
        [apply (Manager.inv_sorted _ HI)|by apply sorted_push]. }
    apply StronglySorted_inv in Hsorted as [_ Hlt]. rewrite Forall_forall in Hlt.
    split_and!.
    + intros other Hother.
      assert (other ∈ t :: rest) as Hin.
      { rewrite <-Hhead. destruct Hpend as [->| ->]; [done|].
        apply elem_of_app. by left. }
      apply elem_of_cons in Hin as [->|Hin]; [lia|]. specialize (Hlt _ Hin). lia.
    + simpl. intros other Hother. by apply Hlt.
    + done.
  - intros D rest HD Hfull.
    destruct (step_shape st l) as [[Hq Hp]|(s & Hs & Hadm & Hpend)].
    + split; [done|]. destruct Hp as [->|(i & now & t & -> & Hi & ->)].
      * left. by rewrite HD.
      * rewrite HD in *. destruct i as [|i]; simpl in *.
        -- right. exists now. congruence.
        -- by left.
    + rewrite Hs in *. unfold Manager.getRunningCount in Hfull.
      rewrite running_processQueue in Hfull.
      destruct (processQueue_cases s) as [E|(t & rest' & Hhead & Hfree & E)];
        [|unfold Manager.MAX_CONCURRENT_TASKS in *; lia].
      rewrite E. split; [done|]. left.
      destruct Hpend as [->| ->]; by rewrite HD.
  - intros X. by apply leaves_running_terminal.
  - intros X now D rest -> HX Hcount HD.
    assert (X ∉ Manager.pendingTasks st) as Hnot.
    { intros Hin. by apply (Manager.inv_waiting _ HI) in Hin as [_ Hin]. }
    assert (list_find (λ t, t = X) (Manager.pendingTasks st) = None) as Hfind.
    { apply list_find_None, Forall_forall. by intros t Ht ->. }
    apply map_get_is_Some in HX as HX'. destruct HX' as [p Hp].
    pose proof (length_map_delete _ _ HX) as Hless.
    pose proof (keys_bound _ _ HI HX) as Hlt.
    apply lookup_lt_is_Some in Hlt as [obj Hobj].
    simpl. unfold Manager.cancelTask. rewrite Hfind, Hp. simpl.
    unfold Manager.processQueue.
    rewrite pending_call_addTaskToHistory, running_call_addTaskToHistory.
    simpl. rewrite HD.
    unfold Manager.getRunningCount, Manager.MAX_CONCURRENT_TASKS in *.
    case_decide; [|lia].
    split_and!.
    + done.
    + unfold Manager.admitted. simpl.
      by rewrite suspended_call_addTaskToHistory, omap_app.
    + unfold Manager.status_of. simpl. rewrite heap_call_addTaskToHistory. simpl.
      by rewrite !list_lookup_alter_eq, Hobj.
  - intros k D pr now -> Hk. simpl. rewrite Hk.
    pose proof (admitted_lookup _ _ _ Hk) as Hadm.
    pose proof (Manager.inv_admitted _ HI) as Hb. rewrite Forall_forall in Hb.
    specialize (Hb _ Hadm). simpl in Hb.
    apply lookup_lt_is_Some in Hb as [obj Hobj].
    unfold Manager.startTask_resume. simpl. rewrite Hobj. simpl.
    split_and!.
    + apply keys_map_set_new.
    + unfold Manager.status_of. simpl. by rewrite !list_lookup_alter_eq, Hobj.
    + by rewrite last_snoc.
Qed.

Lemma admission_is_fifo_witness :
  Manager.reachable Scenario.three_running_two_waiting ∧
  let st' := Manager.step Scenario.three_running_two_waiting
                          (Manager.call_cancelTask 1%nat 5) in
  Manager.pendingTasks st' = [4%nat] ∧
  Manager.admitted st' = Manager.admitted Scenario.three_running_two_waiting ++ [3%nat] ∧
  Manager.status_of 1%nat st' = Some cancelled.
Proof.
  assert (Manager.reachable Scenario.three_running_two_waiting) as H
    by (eexists; reflexivity).
  split; [exact H|].
  destruct (admission_is_fifo _ (Manager.call_cancelTask 1%nat 5) H)
    as (_ & _ & _ & _ & He & _).
  apply (He 1%nat 5 3%nat [4%nat]).
  - reflexivity.
  - vm_compute. apply list_elem_of_further, list_elem_of_here.
  - vm_compute. lia.
  - reflexivity.
Defined.

Lemma addTaskToHistory_same_id_overwrites_witness :
  7%nat ∈ (Task.id <$> History.persisted
                         (History.after_calls None Scenario.history_calls)) ∧
  ∃ i, History.findIndex 7%nat
         (History.persisted (History.after_calls None Scenario.history_calls))
       = Some i ∧
       History.count_id 7%nat
         (History.persisted
            (History.addTaskToHistory
               (History.after_calls None Scenario.history_calls)
               (Scenario.stored_task 7 completed) 9)) = 1%nat.
Proof.
  assert (7%nat ∈ (Task.id <$> History.persisted
                                 (History.after_calls None Scenario.history_calls)))
    as Hin by (vm_compute; apply list_elem_of_here).
  split; [exact Hin|].
  destruct (addTaskToHistory_same_id_overwrites
              Scenario.history_calls (Scenario.stored_task 7 completed) 9 Hin)
    as (i & Hi & _ & _ & _ & Hcount & _).
  exists i. split; [exact Hi|exact Hcount].
Defined.

(** C1 (what the code does).  A task with budget 2 whose worker reports
    "max_turns limit reached" and exits with code 1 is finalised as failed
    at once: the events of the task are created, started, failed; its
    budget is still 2; one worker was spawned and no other is started; the
    task is gone from the engine and was handed to the history sink. *)
Theorem budget_exceeded_is_not_retried :
  let st := Manager.run Scenario.budget_exceeded Manager.init in
  Manager.events st
  = [Manager.task_created 0%nat; Manager.task_started 0%nat; Manager.task_failed 0%nat] ∧
  Manager.status_of 0%nat st = Some failed ∧
  Task.maxBudget <$> Manager.heap st !! 0%nat = Some (Some (Number.of_Z 2)) ∧
  Task.error <$> Manager.heap st !! 0%nat = Some (Some "max_turns limit reached") ∧
  length (Manager.procs st) = 1%nat ∧
  Manager.getRunningCount st = 0%nat ∧
  Manager.getTask 0%nat st = None ∧
  Task.status <$> Manager.historyCalls st = [failed].
Proof. vm_compute. repeat split. Qed.

(** No event of a child process makes the engine spawn another worker. *)
Lemma listener_procs (st : Manager.State) task now e :
  Manager.procs (Manager.listener task now st e) = Manager.procs st.
Proof.
  destruct e as [d|d|code signal]; simpl; try done.
  unfold Manager.on_exit, Manager.call_addTaskToHistory.
  destruct code as [[| |]|]; simpl; by case_match.
Qed.

Lemma child_event_never_spawns (st : Manager.State) p ev now :
  length (Manager.procs (Manager.on_child_event p ev now st))
  = length (Manager.procs st).
Proof.
  unfold Manager.on_child_event.
  destruct (Manager.procs st !! p) as [sp|]; [|done].
  destruct (Spawner.on_child ev (Manager.supervisor sp)) as [cp emitted].
  assert (∀ es s, Manager.procs (foldl (Manager.listener (Manager.owner sp) now) s es)
                  = Manager.procs s) as Hfold.
  { induction es as [|e es IH]; intros s; [done|].
    simpl. by rewrite IH, listener_procs. }
  rewrite Hfold. simpl. apply length_insert.
Qed.

(** C2 (what the code does).  A running task is cancelled and its killed
    worker then exits: the exit listener runs all the same, so after
    [task:cancelled] the engine emits [task:failed] for the same task,
    turns its status from cancelled into failed and calls the history sink
    a second time.  [getTask] does return nothing for it. *)
Theorem late_exit_refinalises_cancelled_task :
  let st := Manager.run Scenario.cancel_then_exit Manager.init in
  Manager.events_of 0%nat st
  = [Manager.task_created 0%nat; Manager.task_started 0%nat;
     Manager.task_cancelled 0%nat; Manager.task_failed 0%nat] ∧
  Manager.status_of 0%nat st = Some failed ∧
  Task.error <$> Manager.heap st !! 0%nat = Some (Some "Process exited with code null") ∧
  (Task.id <$> Manager.historyCalls st, Task.status <$> Manager.historyCalls st)
  = ([0%nat; 0%nat], [cancelled; failed]) ∧
  Manager.getTask 0%nat st = None.
Proof. vm_compute. repeat split. Qed.

(** C3 (what the code does).  Four submissions whose project lookups in
    [startTask] are answered only after all four were accepted.  Each turn
    of [processQueue] saw an empty running set and shifted its task out of
    the queue, so once the four are accepted no task is pending and none
    is running, and once the lookups are answered four tasks run. *)
Theorem overlapping_submissions_exceed_ceiling :
  let accepted := Manager.run (take 4 Scenario.overlapping_submissions) Manager.init in
  let st := Manager.run Scenario.overlapping_submissions Manager.init in
  length (Manager.heap accepted) = 4%nat ∧
  Manager.getRunningCount accepted = 0%nat ∧
  Manager.getPendingCount accepted = 0%nat ∧
  Manager.admitted accepted = [0; 1; 2; 3]%nat ∧
  Manager.getRunningCount st = 4%nat ∧
  Manager.getPendingCount st = 0%nat ∧
  (∀ X, X ∈ [0; 1; 2; 3]%nat → Manager.status_of X st = Some running).
Proof.
  vm_compute. repeat split.
  intros X HX. repeat (apply elem_of_cons in HX as [->|HX]; [reflexivity|]).
  by apply elem_of_nil in HX.
Qed.

(** Where every submission settled before the next (tasks 0, 1, 2 run,
    3 and 4 wait): when the worker of task 0 exits, or when task 1 is
    cancelled, the slot goes to task 3, which is started once its project
    lookup answers, and task 4 keeps waiting. *)
Lemma freed_slot_goes_to_the_oldest_waiting_task :
  let exited :=
    Manager.run [Manager.child 0%nat (Spawner.child_exit (Some 0) None) 5;
                 Manager.settle_history 0%nat;
                 Manager.settle_lookup 0%nat (Some Scenario.project) 6]
                Scenario.three_running_two_waiting in
  let cancelled_1 :=
    Manager.run [Manager.call_cancelTask 1%nat 5;
                 Manager.settle_lookup 0%nat (Some Scenario.project) 6]
                Scenario.three_running_two_waiting in
  (Manager.runningTasks Scenario.three_running_two_waiting).*1 = [0; 1; 2]%nat ∧
  Manager.pendingTasks Scenario.three_running_two_waiting = [3; 4]%nat ∧
  Manager.status_of 0%nat exited = Some completed ∧
  (Manager.runningTasks exited).*1 = [1; 2; 3]%nat ∧
  Manager.pendingTasks exited = [4%nat] ∧
  drop 8 (Manager.events exited)
  = [Manager.task_completed 0%nat; Manager.task_started 3%nat] ∧
  Manager.status_of 1%nat cancelled_1 = Some cancelled ∧
  (Manager.runningTasks cancelled_1).*1 = [0; 2; 3]%nat ∧
  Manager.pendingTasks cancelled_1 = [4%nat] ∧
  drop 8 (Manager.events cancelled_1)
  = [Manager.task_cancelled 1%nat; Manager.task_started 3%nat].
Proof. vm_compute. repeat split. Qed.

(** C4 (what the code does).  Tasks A, B, C, D (0, 1, 2, 3) are submitted
    in this order, and the project lookups of their starts are answered
    only after all four were accepted (the run of C3).  D is started
    ([task:started] is emitted for it and it is running) while A, B and C
    are all running: none of them has reached a terminal state, no task
    was completed, failed or cancelled, and nothing was handed to the
    history.  And when the lookup of D is the first to be answered, D is
    started before A, B and C. *)
Theorem fourth_task_starts_while_three_run :
  let before := Manager.run (take 7 Scenario.overlapping_submissions) Manager.init in
  let st := Manager.run Scenario.overlapping_submissions Manager.init in
  let st' := Manager.run Scenario.fourth_lookup_answers_first Manager.init in
  (Manager.runningTasks before).*1 = [0; 1; 2]%nat ∧
  Manager.pendingTasks before = [] ∧
  Manager.admitted before = [3%nat] ∧
  Manager.events st
  = [Manager.task_created 0%nat; Manager.task_created 1%nat;
     Manager.task_created 2%nat; Manager.task_created 3%nat;
     Manager.task_started 0%nat; Manager.task_started 1%nat;
     Manager.task_started 2%nat; Manager.task_started 3%nat] ∧
  (Manager.runningTasks st).*1 = [0; 1; 2; 3]%nat ∧
  (λ X, Manager.status_of X st) <$> [0; 1; 2; 3]%nat
  = [Some running; Some running; Some running; Some running] ∧
  Manager.historyCalls st = [] ∧
  Manager.events st'
  = [Manager.task_created 0%nat; Manager.task_created 1%nat;
     Manager.task_created 2%nat; Manager.task_created 3%nat;
     Manager.task_started 3%nat] ∧
  (Manager.runningTasks st').*1 = [3%nat].
Proof. vm_compute. repeat split. Qed.

(** C7 (what the code does).  After the child has exited, on its own or by
    a signal that [kill()] did not send, [isRunning()] still answers true.
    It answers false before [start()] and after a [kill()] that reached the
    child. *)
Theorem isRunning_ignores_exit (o : Spawner.SpawnOptions)
    (code : option Z) (signal : option string) :
  Spawner.isRunning (Spawner.new o) = false ∧
  Spawner.isRunning (Spawner.spawnClaude o) = true ∧
  Spawner.isRunning (Spawner.kill (Spawner.spawnClaude o)) = false ∧
  Spawner.isRunning
    (Spawner.on_child (Spawner.child_exit code signal) (Spawner.spawnClaude o)).1 = true.
Proof. repeat split. Qed.


(* ================================================================== *)
(** * Further properties of the code *)
(* ================================================================== *)

(** ** The history sink *)

Section history_more.
Import History.
Implicit Types (ts : list Task.t) (task : Task.t) (file : HistoryFile).

Lemma put_eq_drop ts task :
  put ts task = drop (length (upsert ts task) - 100) (upsert ts task).
Proof.
  unfold put. cbv zeta. case_decide as H; [done|].
  replace (length (upsert ts task) - 100)%nat with 0%nat by lia. done.
Qed.

Lemma put_absent ts task :
  findIndex (Task.id task) ts = None →
  put ts task = drop (S (length ts) - 100) ts ++ [task].
Proof.
  intros E. rewrite put_eq_drop. unfold upsert. rewrite E.
  rewrite length_app. simpl.
  replace (length ts + 1 - 100)%nat with (S (length ts) - 100)%nat by lia.
  rewrite drop_app_le; [done|]. lia.
Qed.

Lemma elem_of_upsert ts task x : x ∈ upsert ts task → x = task ∨ x ∈ ts.
Proof.
  unfold upsert. destruct (findIndex _ ts) as [i|].
  - intros H. apply list_elem_of_lookup in H as [j Hj].
    destruct (decide (i = j)) as [->|Hne].
    + destruct (decide (j < length ts)%nat).
      * rewrite list_lookup_insert_eq in Hj by done. left. congruence.
      * rewrite list_insert_ge in Hj by lia. right. by eapply list_elem_of_lookup_2.
    + rewrite list_lookup_insert_ne in Hj by done. right.
      by eapply list_elem_of_lookup_2.
  - intros [H|H]%elem_of_app; [by right|]. left. by apply list_elem_of_singleton in H.
Qed.

Lemma elem_of_upsert_other ts task x :
  x ∈ ts → Task.id x ≠ Task.id task → x ∈ upsert ts task.
Proof.
  intros Hx Hne. unfold upsert. destruct (findIndex _ ts) as [i|] eqn:E.
  - apply findIndex_Some in E as (t & Hi & Hid & _).
    apply list_elem_of_lookup in Hx as [j Hj].
    apply list_elem_of_lookup. exists j.
    rewrite list_lookup_insert_ne; [done|]. intros ->. congruence.
  - apply elem_of_app. by left.
Qed.

Lemma put_contains ts task : (length ts ≤ 100)%nat → task ∈ put ts task.
Proof.
  intros Hlen. destruct (findIndex (Task.id task) ts) as [i|] eqn:E.
  - rewrite (put_present _ _ i Hlen E).
    apply findIndex_Some in E as (t & Hi & _).
    apply list_elem_of_insert. by eapply lookup_lt_Some.
  - rewrite (put_absent _ _ E). apply elem_of_app. right.
    by apply list_elem_of_singleton.
Qed.

End history_more.

(** X1.  What was just added can be read back.  Whatever calls produced the
    history file, after [addTaskToHistory] the task is among the persisted
    entries; when its id was new it is the last entry. *)
Theorem history_holds_what_was_added
    (calls : list (Task.t * Z)) (task : Task.t) (now : Z) :
  let file := History.after_calls None calls in
  let after := History.persisted (History.addTaskToHistory file task now) in
  task ∈ after ∧
  (History.findIndex (Task.id task) (History.persisted file) = None →
   last after = Some task).
Proof.
  cbv zeta. rewrite persisted_add.
  destruct (well_formed_after_calls calls) as [Hnd Hlen].
  set (ts := History.persisted (History.after_calls None calls)) in *.
  split.
  - by apply put_contains.
  - intros E. rewrite (put_absent _ _ E). apply last_snoc.
Qed.

(** X2.  A history of 100 or more entries that receives a task with a new
    id keeps its 99 most recent entries and the new task after them; with
    exactly 100 entries it is the oldest one that goes. *)
Theorem full_history_drops_the_oldest
    (file : History.HistoryFile) (task : Task.t) (now : Z) :
  (100 ≤ length (History.persisted file))%nat →
  Task.id task ∉ (Task.id <$> History.persisted file) →
  let before := History.persisted file in
  let after := History.persisted (History.addTaskToHistory file task now) in
  after = drop (length before - 99) before ++ [task] ∧
  length after = 100%nat ∧
  (length before = 100%nat → after = drop 1 before ++ [task]).
Proof.
  intros Hlen Hnew. cbv zeta. rewrite persisted_add.
  apply findIndex_None in Hnew. rewrite (put_absent _ _ Hnew).
  replace (S (length (History.persisted file)) - 100)%nat
    with (length (History.persisted file) - 99)%nat by lia.
  split_and!; [done| |].
  - rewrite length_app, length_drop. simpl. lia.
  - intros ->. done.
Qed.

Lemma full_history_drops_the_oldest_witness :
  (100 ≤ length (History.persisted Scenario.full_history))%nat ∧
  (Task.id (Scenario.stored_task 100 failed)
     ∉ (Task.id <$> History.persisted Scenario.full_history)) ∧
  Task.id <$> History.persisted
                (History.addTaskToHistory Scenario.full_history
                   (Scenario.stored_task 100 failed) 5)
  = seq 1 100.
Proof.
  assert (100 ≤ length (History.persisted Scenario.full_history))%nat as Hlen
    by (vm_compute; lia).
  assert (Task.id (Scenario.stored_task 100 failed)
          ∉ (Task.id <$> History.persisted Scenario.full_history)) as Hnew.
  { apply (bool_decide_unpack _). vm_compute. exact I. }
  split; [exact Hlen|]. split; [exact Hnew|].
  destruct (full_history_drops_the_oldest Scenario.full_history
              (Scenario.stored_task 100 failed) 5 Hlen Hnew) as (_ & _ & H).
  rewrite (H eq_refl). vm_compute. reflexivity.
Defined.

(** X3.  Adding a task never invents an entry, and below the limit of 100
    it loses none: every entry of the new history is the task or an entry
    of the old one, and every old entry with another id is still there. *)
Theorem history_keeps_other_entries
    (file : History.HistoryFile) (task : Task.t) (now : Z) :
  (length (History.persisted file) < 100)%nat →
  let before := History.persisted file in
  let after := History.persisted (History.addTaskToHistory file task now) in
  (∀ x, x ∈ after → x = task ∨ x ∈ before) ∧
  (∀ x, x ∈ before → Task.id x ≠ Task.id task → x ∈ after).
Proof.
  intros Hlen. cbv zeta. rewrite persisted_add.
  assert (History.put (History.persisted file) task
          = History.upsert (History.persisted file) task) as ->.
  { unfold History.put. cbv zeta. case_decide as H; [|done].
    exfalso. unfold History.upsert in H.
    destruct (History.findIndex _ _);
      [rewrite length_insert in H|rewrite length_app in H; simpl in H]; lia. }
  split.
  - apply elem_of_upsert.
  - intros x. apply elem_of_upsert_other.
Qed.

Lemma history_keeps_other_entries_witness :
  (length (History.persisted (History.after_calls None Scenario.history_calls)) < 100)%nat ∧
  Scenario.stored_task 8 completed
  ∈ History.persisted
      (History.addTaskToHistory (History.after_calls None Scenario.history_calls)
         (Scenario.stored_task 7 cancelled) 9).
Proof.
  assert (length (History.persisted
                    (History.after_calls None Scenario.history_calls)) < 100)%nat
    as Hlen by (vm_compute; lia).
  split; [exact Hlen|].
  apply (proj2 (history_keeps_other_entries _ (Scenario.stored_task 7 cancelled) 9 Hlen)).
  - vm_compute. apply list_elem_of_further, list_elem_of_here.
  - vm_compute. lia.
Defined.

Lemma well_formed_same_id (ts : list Task.t) (x y : Task.t) :
  History.well_formed ts → x ∈ ts → y ∈ ts → Task.id x = Task.id y → x = y.
Proof.
  intros [Hnd _] [i Hi]%list_elem_of_lookup [j Hj]%list_elem_of_lookup Hid.
  assert (i = j) as ->; [|congruence].
  eapply NoDup_lookup; [exact Hnd| |].
  - rewrite list_lookup_fmap, Hi. done.
  - rewrite list_lookup_fmap, Hj. simpl. by rewrite Hid.
Qed.

(** X4.  [getCompletedTasks] lists final outcomes only.  On a history kept
    by the service, every task it returns is a stored entry with status
    completed, failed or cancelled; a task just added with such a status
    is returned; a task just added with status pending or running hides
    every earlier entry of its id; and at most 100 tasks are returned. *)
Theorem getCompletedTasks_lists_final_outcomes
    (calls : list (Task.t * Z)) (task : Task.t) (now now' : Z) :
  let file := History.addTaskToHistory (History.after_calls None calls) task now in
  let listed := History.getCompletedTasks file now' in
  (∀ x, x ∈ listed → is_terminal (Task.status x) = true ∧ x ∈ History.persisted file) ∧
  (is_terminal (Task.status task) = true → task ∈ listed) ∧
  (is_terminal (Task.status task) = false →
   ∀ x, x ∈ listed → Task.id x ≠ Task.id task) ∧
  (length listed ≤ 100)%nat.
Proof.
  cbv zeta. unfold History.getCompletedTasks. rewrite persisted_load.
  assert (task ∈ History.persisted
                   (History.addTaskToHistory (History.after_calls None calls) task now))
    as Hin.
  { rewrite persisted_add. apply put_contains, well_formed_after_calls. }
  assert (History.well_formed
            (History.persisted
               (History.addTaskToHistory (History.after_calls None calls) task now)))
    as Hwf.
  { rewrite persisted_add. apply well_formed_put, well_formed_after_calls. }
  split_and!.
  - intros x Hx. by apply list_elem_of_filter in Hx.
  - intros Ht. by apply list_elem_of_filter.
  - intros Ht x Hx Hid. apply list_elem_of_filter in Hx as [Hx1 Hx2].
    assert (x = task) as -> by (by eapply well_formed_same_id). congruence.
  - etrans; [apply length_filter_le|]. apply Hwf.
Qed.

(** ** The process supervisor *)

(** X5.  The supervisor buffers what it forwards.  After any series of
    chunks from a started child, [getOutput()] is the standard-output data
    in order of arrival, [getErrorOutput()] the standard-error data, neither
    pipe leaks into the other buffer, and exactly one event was emitted per
    chunk, in order: [output] for standard output, [error] for standard
    error. *)
Theorem supervisor_buffers_chunks (o : Spawner.SpawnOptions) (chunks : list Spawner.Chunk) :
  let result := Spawner.deliver (Spawner.chunk_event <$> chunks) (Spawner.spawnClaude o) in
  Spawner.getOutput result.1 = Spawner.appended "" (Spawner.stdout_chunks chunks) ∧
  Spawner.getErrorOutput result.1 = Spawner.appended "" (Spawner.stderr_chunks chunks) ∧
  result.2 = Spawner.chunk_emitted <$> chunks ∧
  Spawner.isRunning result.1 = true.
Proof.
  cbv zeta.
  cut (∀ cp, is_Some (Spawner.process cp) →
         let result := Spawner.deliver (Spawner.chunk_event <$> chunks) cp in
         Spawner.getOutput result.1
         = Spawner.appended (Spawner.getOutput cp) (Spawner.stdout_chunks chunks) ∧
         Spawner.getErrorOutput result.1
         = Spawner.appended (Spawner.getErrorOutput cp) (Spawner.stderr_chunks chunks) ∧
         result.2 = Spawner.chunk_emitted <$> chunks ∧
         Spawner.isRunning result.1 = Spawner.isRunning cp).
  { intros H. apply (H (Spawner.spawnClaude o)). simpl. eauto. }
  induction chunks as [|c chunks IH]; intros cp [h Hh]; [done|].
  rewrite fmap_cons. cbn [Spawner.deliver].
  destruct (Spawner.on_child (Spawner.chunk_event c) cp) as [cp1 out1] eqn:E1.
  assert (is_Some (Spawner.process cp1)) as H1.
  { unfold Spawner.on_child in E1. rewrite Hh in E1.
    destruct c; simpl in E1; simplify_eq; simpl; eauto. }
  specialize (IH cp1 H1). cbv zeta in IH.
  destruct (Spawner.deliver (Spawner.chunk_event <$> chunks) cp1) as [cp2 out2].
  destruct IH as (IH1 & IH2 & IH3 & IH4). simpl in IH1, IH2, IH3, IH4 |- *.
  rewrite IH1, IH2, IH3, IH4.
  unfold Spawner.on_child in E1. rewrite Hh in E1.
  unfold Spawner.isRunning, Spawner.getOutput, Spawner.getErrorOutput.
  destruct c as [d|d]; simpl in E1; simplify_eq; simpl; rewrite Hh; done.
Qed.

(** X6.  [kill()] is safe to repeat.  Killing twice is the same as killing
    once, killing a supervisor that was never started changes nothing, and
    [kill()] never touches the buffered output or the options. *)
Theorem kill_is_idempotent (cp : Spawner.ClaudeProcess) (o : Spawner.SpawnOptions) :
  Spawner.kill (Spawner.kill cp) = Spawner.kill cp ∧
  Spawner.kill (Spawner.new o) = Spawner.new o ∧
  Spawner.getOutput (Spawner.kill cp) = Spawner.getOutput cp ∧
  Spawner.getErrorOutput (Spawner.kill cp) = Spawner.getErrorOutput cp ∧
  Spawner.options (Spawner.kill cp) = Spawner.options cp ∧
  (Spawner.isRunning cp = false → Spawner.kill cp = cp).
Proof.
  destruct cp as [opts [[f a d k h]|] out err]; unfold Spawner.kill, Spawner.node_kill;
    simpl; [|done].
  destruct k, h; simpl; split_and!; try done.
Qed.

(** X7.  The shape of the command line.  Every worker is the program
    [claude] run in the project directory; its arguments start with [-p],
    the prompt exactly as given, and [--dangerously-skip-permissions]; they
    end with [--verbose]; and there are four of them, or six when a budget
    adds [--max-turns n]. *)
Theorem worker_command_line (o : Spawner.SpawnOptions) :
  ∃ child, Spawner.process (Spawner.spawnClaude o) = Some child ∧
    Spawner.spawnfile child = "claude" ∧
    Spawner.spawncwd child = Spawner.cwd o ∧
    take 3 (Spawner.spawnargs child)
    = ["-p"; Spawner.prompt o; "--dangerously-skip-permissions"] ∧
    last (Spawner.spawnargs child) = Some "--verbose" ∧
    (length (Spawner.spawnargs child) = 4%nat ∨
     length (Spawner.spawnargs child) = 6%nat ∧
     Spawner.spawnargs child !! 3%nat = Some "--max-turns") ∧
    Spawner.killed child = false.
Proof.
  destruct o as [dir text [b|]]; [|eexists; split_and!; try done; by left].
  eexists. split; [reflexivity|].
  unfold Spawner.spawn, Spawner.build_args.
  cbn [Spawner.spawnargs Spawner.spawnfile Spawner.spawncwd Spawner.killed
       Spawner.options Spawner.new Spawner.cwd Spawner.prompt Spawner.maxBudget].
  destruct (truthy_number (Some b)); split_and!; try done; [by right|by left].
Qed.

(** X8.  A larger budget never buys fewer turns:
    [Math.max(25, Math.ceil(b * 10))] is monotone in [b], with the product
    rounded as JavaScript rounds it. *)
Theorem max_turns_is_monotone (b1 b2 : Number.t) :
  Number.le b1 b2 →
  Number.le_integral (Spawner.max_turns b1) (Spawner.max_turns b2).
Proof. apply max_turns_mono. Qed.

Lemma max_turns_is_monotone_witness :
  Number.le (Number.of_Z 2) (Number.of_Z 4) ∧
  Number.le_integral (Spawner.max_turns (Number.of_Z 2))
                     (Spawner.max_turns (Number.of_Z 4)).
Proof.
  assert (Number.le (Number.of_Z 2) (Number.of_Z 4)) as H
    by (vm_compute; discriminate).
  split; [exact H|].
  exact (max_turns_is_monotone (Number.of_Z 2) (Number.of_Z 4) H).
Defined.

(** X9.  A budget of zero counts as no budget, and so does NaN: the
    worker gets no [--max-turns] argument, exactly as when the budget is
    left out. *)
Theorem zero_budget_passes_no_limit (dir text : string) (b : Number.t) :
  b = Number.fin 0 ∨ b = Number.NaN →
  Spawner.build_args {| Spawner.cwd := dir; Spawner.prompt := text;
                        Spawner.maxBudget := Some b |}
  = Spawner.build_args {| Spawner.cwd := dir; Spawner.prompt := text;
                          Spawner.maxBudget := None |} ∧
  Spawner.build_args {| Spawner.cwd := dir; Spawner.prompt := text;
                        Spawner.maxBudget := Some b |}
  = ["-p"; text; "--dangerously-skip-permissions"; "--verbose"].
Proof. by intros [-> | ->]. Qed.

Lemma zero_budget_passes_no_limit_witness :
  (Number.fin 0 = Number.fin 0 ∨ Number.fin 0 = Number.NaN) ∧
  Spawner.build_args {| Spawner.cwd := "/tmp/test-project"; Spawner.prompt := "Fix bug";
                        Spawner.maxBudget := Some (Number.fin 0) |}
  = ["-p"; "Fix bug"; "--dangerously-skip-permissions"; "--verbose"].
Proof.
  assert (Number.fin 0 = Number.fin 0 ∨ Number.fin 0 = Number.NaN) as H
    by (left; reflexivity).
  split; [exact H|].
  exact (proj2 (zero_budget_passes_no_limit
                  "/tmp/test-project" "Fix bug" (Number.fin 0) H)).
Defined.

(** ** The lifecycle engine: its logs *)

Section manager_logs.
Import Manager.
Implicit Types (st : State) (l : Label) (task : TaskId).

Lemma appended_snoc (b : string) (ds : list string) (d : string) :
  Spawner.appended b (ds ++ [d]) = Spawner.appended b ds +:+ d.
Proof. unfold Spawner.appended. by rewrite foldl_app. Qed.

Lemma events_of_emit st e t :
  events_of t (emit e st)
  = events_of t st ++ (if decide (event_task e = t) then [e] else []).
Proof.
  unfold events_of, emit. simpl. rewrite filter_app. by f_equal.
Qed.

Lemma deltas_emit st e t :
  deltas t (emit e st) = deltas t st ++ option_list (output_delta t e).
Proof.
  unfold deltas, emit. simpl. rewrite omap_app. simpl.
  by destruct (output_delta t e).
Qed.

Lemma Logged_init : Logged init.
Proof.
  split; simpl.
  - intros sp H. by apply elem_of_nil in H.
  - intros e H. by apply elem_of_nil in H.
  - intros t H. lia.
  - intros t obj H. by rewrite lookup_nil in H.
  - intros x H. by apply elem_of_nil in H.
Qed.

Lemma Logged_same st st' :
  heap st' = heap st → procs st' = procs st → events st' = events st →
  historyCalls st' = historyCalls st → Logged st → Logged st'.
Proof.
  intros Hh Hp He Hc [H1 H2 H3 H4 H5].
  split; unfold events_of, deltas in *; rewrite ?Hh, ?Hp, ?He, ?Hc; done.
Qed.

Lemma Logged_mutate st task f :
  (∀ x, Task.output (f x) = Task.output x) → Logged st → Logged (mutate task f st).
Proof.
  intros Hf [H1 H2 H3 H4 H5].
  split; unfold events_of, deltas in *; simpl; rewrite ?length_alter; try done.
  intros t obj. destruct (decide (t = task)) as [->|Hne].
  - rewrite list_lookup_alter_eq. intros H.
    apply fmap_Some in H as (x & Hx & ->). rewrite Hf. by apply H4.
  - rewrite list_lookup_alter_ne by done. apply H4.
Qed.

Lemma Logged_emit st e :
  (event_task e < length (heap st))%nat →
  (∀ t, output_delta t e = None) →
  Logged st → Logged (emit e st).
Proof.
  intros Hb Hd [H1 H2 H3 H4 H5]. split; try done.
  - simpl. intros e' [H|H]%elem_of_app; [by apply H2|].
    apply list_elem_of_singleton in H. by subst.
  - intros t Ht. rewrite events_of_emit. specialize (H3 t Ht).
    simpl in Ht. destruct (events_of t st); [done|]. done.
  - intros t obj Hobj. rewrite deltas_emit, Hd. simpl. rewrite app_nil_r.
    by apply H4.
Qed.

Lemma Logged_on_output st task data :
  (task < length (heap st))%nat → Logged st → Logged (on_output task data st).
Proof.
  intros Hb [H1 H2 H3 H4 H5]. unfold on_output. split.
  - simpl. rewrite length_alter. done.
  - simpl. rewrite length_alter. intros e' [H|H]%elem_of_app; [by apply H2|].
    apply list_elem_of_singleton in H. by subst.
  - intros t Ht. rewrite events_of_emit. simpl in Ht. rewrite length_alter in Ht.
    specialize (H3 t Ht).
    change (events_of t (mutate task _ st)) with (events_of t st).
    destruct (events_of t st); [done|]. done.
  - intros t obj. rewrite deltas_emit.
    change (deltas t (mutate task (λ x, Task.set_output (Task.output x +:+ data) x) st))
      with (deltas t st).
    simpl. destruct (decide (t = task)) as [->|Hne].
    + rewrite list_lookup_alter_eq. intros H.
      apply fmap_Some in H as (x & Hx & ->). simpl.
      rewrite decide_True by done. simpl. rewrite appended_snoc.
      by rewrite (H4 _ _ Hx).
    + rewrite list_lookup_alter_ne by done.
      rewrite decide_False by done. simpl. rewrite app_nil_r. apply H4.
  - done.
Qed.

Lemma Logged_call_addTaskToHistory st task :
  (∀ obj, heap st !! task = Some obj → is_terminal (Task.status obj) = true) →
  Logged st → Logged (call_addTaskToHistory task st).
Proof.
  intros Ht HL. unfold call_addTaskToHistory.
  destruct (heap st !! task) as [obj|] eqn:E; [|done].
  destruct HL as [H1 H2 H3 H4 H5]. split; try done.
  simpl. intros x [H|H]%elem_of_app; [by apply H5|].
  apply list_elem_of_singleton in H. subst. by apply Ht.
Qed.

Lemma Logged_set_procs st ps :
  (∀ sp, sp ∈ ps → (owner sp < length (heap st))%nat) →
  Logged st → Logged (set_procs ps st).
Proof. intros Hps [H1 H2 H3 H4 H5]. split; done. Qed.

Lemma Logged_processQueue st : Logged st → Logged (processQueue st).
Proof.
  destruct (processQueue_cases st) as [->|(t & rest & _ & _ & ->)]; [done|].
  by apply Logged_same.
Qed.

Lemma filter_none {A} (P : A → Prop) `{!∀ x, Decision (P x)} (xs : list A) :
  (∀ x, x ∈ xs → ¬ P x) → filter P xs = [].
Proof.
  induction xs as [|x xs IH]; intros Hno; [done|].
  rewrite filter_cons. rewrite decide_False by (apply Hno; left).
  apply IH. intros y Hy. apply Hno. by right.
Qed.

Lemma omap_none {A B} (f : A → option B) (xs : list A) :
  (∀ x, x ∈ xs → f x = None) → omap f xs = [].
Proof.
  induction xs as [|x xs IH]; intros H; [done|].
  simpl. rewrite (H x) by left. apply IH. intros y Hy. apply H. by right.
Qed.

Lemma Logged_created st input now :
  Logged st →
  Logged (emit (task_created (length (heap st)))
               (push_pending (new_task (length (heap st)) input now) st)).
Proof.
  intros [H1 H2 H3 H4 H5]. split.
  - simpl. rewrite length_app. intros sp Hsp. specialize (H1 _ Hsp). lia.
  - simpl. rewrite length_app. simpl.
    intros e [H|H]%elem_of_app; [specialize (H2 _ H); lia|].
    apply list_elem_of_singleton in H. subst. simpl. lia.
  - intros t Ht. rewrite events_of_emit. simpl in Ht. rewrite length_app in Ht.
    simpl in Ht.
    change (events_of t (push_pending (new_task (length (heap st)) input now) st))
      with (events_of t st). simpl.
    destruct (decide (t = length (heap st))) as [->|Hne].
    + rewrite decide_True by done.
      assert (events_of (length (heap st)) st = []) as ->; [|done].
      unfold events_of. apply filter_none.
      intros e He Heq. specialize (H2 _ He). lia.
    + rewrite decide_False by done. rewrite app_nil_r. apply H3. lia.
  - intros t obj. rewrite deltas_emit. simpl. rewrite app_nil_r.
    change (deltas t (push_pending (new_task (length (heap st)) input now) st))
      with (deltas t st).
    intros Hobj. apply lookup_app_Some in Hobj as [Hobj|[Hge Hobj]]; [by apply H4|].
    apply list_lookup_singleton_Some in Hobj as [Hi <-]. simpl.
    assert (deltas t st = []) as ->; [|done].
    unfold deltas. apply omap_none. intros e He.
    specialize (H2 _ He). destruct e; simpl in *; try done.
    rewrite decide_False; [done|lia].
  - done.
Qed.

Lemma Logged_suspend st k : Logged st → Logged (suspend k st).
Proof. by apply Logged_same. Qed.

Lemma Logged_unsuspend st i : Logged st → Logged (unsuspend i st).
Proof. by apply Logged_same. Qed.

Lemma Logged_set_pendingTasks st q : Logged st → Logged (set_pendingTasks q st).
Proof. by apply Logged_same. Qed.

Lemma Logged_set_runningTasks st m : Logged st → Logged (set_runningTasks m st).
Proof. by apply Logged_same. Qed.

Local Ltac keeps_output := intros ?; simpl; repeat case_match; reflexivity.

Local Ltac bound := simpl; rewrite ?length_alter, ?length_app; simpl; lia.

Local Ltac log_chain :=
  repeat first
    [ assumption
    | apply Logged_suspend | apply Logged_unsuspend
    | apply Logged_set_pendingTasks | apply Logged_set_runningTasks
    | apply Logged_processQueue
    | apply Logged_mutate; [keeps_output|]
    | apply Logged_emit; [bound|intros ?; reflexivity|] ].

Lemma Logged_createTask st input project now :
  Logged st → Logged (createTask input project now st).2.
Proof.
  intros HL. unfold createTask. destruct project; [|done]. simpl.
  apply Logged_processQueue. by apply Logged_created.
Qed.

Lemma Logged_startTask_resume st task project now :
  Logged st → Logged (startTask_resume task project now st).
Proof.
  intros HL. unfold startTask_resume.
  destruct (heap st !! task) as [obj|] eqn:E; [|done].
  pose proof (lookup_lt_Some _ _ _ E) as Hb.
  destruct project as [pr|].
  - log_chain. apply Logged_set_procs; [|log_chain].
    simpl. rewrite !length_alter. intros sp [Hsp|Hsp]%elem_of_app.
    + by apply (log_owner _ HL).
    + apply list_elem_of_singleton in Hsp. by subst.
  - log_chain. apply Logged_call_addTaskToHistory; [|log_chain].
    simpl. rewrite !list_lookup_alter_eq, E. simpl. intros obj' ?. by simplify_eq.
Qed.

Lemma Logged_on_exit st task code now :
  (task < length (heap st))%nat → Logged st → Logged (on_exit task code now st).
Proof.
  intros Hb HL. apply lookup_lt_is_Some in Hb as Hobj. destruct Hobj as [obj Hobj].
  unfold on_exit. apply Logged_suspend.
  apply Logged_call_addTaskToHistory.
  - destruct code as [[| |]|]; simpl; rewrite !list_lookup_alter_eq, Hobj; simpl;
      intros obj' ?; simplify_eq; by repeat case_match.
  - destruct code as [[| |]|]; log_chain.
Qed.

Lemma heap_length_listener st task now e :
  length (heap (listener task now st e)) = length (heap st).
Proof.
  destruct e as [d|d|code signal]; simpl; rewrite ?length_alter; try done.
  unfold on_exit. simpl. rewrite heap_call_addTaskToHistory.
  destruct code as [[| |]|]; simpl; by rewrite !length_alter.
Qed.

Lemma Logged_listener st task now e :
  (task < length (heap st))%nat → Logged st → Logged (listener task now st e).
Proof.
  intros Hb HL. destruct e as [d|d|code signal]; simpl.
  - by apply Logged_on_output.
  - unfold on_error. log_chain.
  - by apply Logged_on_exit.
Qed.

Lemma Logged_listeners st task now es :
  (task < length (heap st))%nat → Logged st →
  Logged (foldl (listener task now) st es).
Proof.
  revert st. induction es as [|e es IH]; intros st Hb HL; [done|].
  simpl. apply IH.
  - by rewrite heap_length_listener.
  - by apply Logged_listener.
Qed.

Lemma Logged_on_child_event st p ev now :
  Logged st → Logged (on_child_event p ev now st).
Proof.
  intros HL. unfold on_child_event. destruct (procs st !! p) as [sp|] eqn:E; [|done].
  destruct (Spawner.on_child ev (supervisor sp)) as [cp emitted].
  pose proof (log_owner _ HL sp (list_elem_of_lookup_2 _ _ _ E)) as Hb.
  apply Logged_listeners; [done|].
  apply Logged_set_procs; [|done].
  intros sp' Hsp'. apply list_elem_of_lookup in Hsp' as [j Hj].
  destruct (decide (p = j)) as [->|Hne].
  - rewrite list_lookup_insert_eq in Hj by (by eapply lookup_lt_Some).
    by simplify_eq.
  - rewrite list_lookup_insert_ne in Hj by done.
    apply (log_owner _ HL). by eapply list_elem_of_lookup_2.
Qed.

Lemma Logged_kill_proc st p : Logged st → Logged (kill_proc p st).
Proof.
  intros HL. unfold kill_proc. apply Logged_set_procs; [|done].
  intros sp' Hsp'. apply list_elem_of_lookup in Hsp' as [j Hj].
  destruct (decide (p = j)) as [->|Hne].
  - rewrite list_lookup_alter_eq in Hj.
    apply fmap_Some in Hj as (sp & Hsp & ->). simpl.
    apply (log_owner _ HL). by eapply list_elem_of_lookup_2.
  - rewrite list_lookup_alter_ne in Hj by done.
    apply (log_owner _ HL). by eapply list_elem_of_lookup_2.
Qed.

Lemma Logged_cancelTask st taskId now :
  Inv st → Logged st → Logged (cancelTask taskId now st).2.
Proof.
  intros HI HL. unfold cancelTask.
  destruct (list_find _ (pendingTasks st)) as [[i t]|] eqn:E.
  - apply list_find_eq_Some in E as [-> E]. simpl.
    pose proof (inv_pending _ HI) as Hq. rewrite Forall_forall in Hq.
    specialize (Hq _ (list_elem_of_lookup_2 _ _ _ E)). simpl in Hq.
    apply lookup_lt_is_Some in Hq as Hobj. destruct Hobj as [obj Hobj].
    apply Logged_call_addTaskToHistory; [|log_chain].
    simpl. rewrite !list_lookup_alter_eq, Hobj. simpl. intros obj' ?. by simplify_eq.
  - destruct (map_get taskId (runningTasks st)) as [p|] eqn:Ep; [|done]. simpl.
    assert (taskId ∈ (runningTasks st).*1) as Hk
      by (apply map_get_is_Some; eauto).
    pose proof (keys_bound _ _ HI Hk) as Hb.
    apply lookup_lt_is_Some in Hb as Hobj. destruct Hobj as [obj Hobj].
    apply Logged_processQueue.
    apply Logged_call_addTaskToHistory.
    + simpl. rewrite !list_lookup_alter_eq, Hobj. simpl. intros obj' ?. by simplify_eq.
    + log_chain. by apply Logged_kill_proc.
Qed.

Lemma Logged_step st l : Inv st → Logged st → Logged (step st l).
Proof.
  intros HI HL.
  destruct l as [input project now|taskId now|k project now|k|k|p ev now]; simpl.
  - by apply Logged_createTask.
  - by apply Logged_cancelTask.
  - destruct (suspended st !! k) as [[t| | |]|]; try done.
    by apply Logged_startTask_resume, Logged_unsuspend.
  - destruct (suspended st !! k) as [[]|]; try done; log_chain.
  - destruct (suspended st !! k) as [[]|]; try done; log_chain.
  - by apply Logged_on_child_event.
Qed.

Lemma reachable_Logged st : reachable st → Logged st.
Proof.
  intros [ls ->]. unfold run.
  cut (∀ s, Inv s → Logged s → Inv (foldl step s ls) ∧ Logged (foldl step s ls)).
  { intros H. apply H; [apply Inv_init|apply Logged_init]. }
  induction ls as [|l ls IH]; intros s HI HL; [done|].
  simpl. apply IH; [by apply Inv_step|by apply Logged_step].
Qed.

End manager_logs.

(** X10.  The output of a task is what its [task:output] events carried.
    In every reachable state, the [output] field of a task object is the
    concatenation, in order, of the deltas of the [task:output] events
    emitted for that task; an observer that appends the deltas holds the
    same text as the engine. *)
Theorem output_is_the_sum_of_deltas (st : Manager.State) (t : TaskId) (obj : Task.t) :
  Manager.reachable st →
  Manager.heap st !! t = Some obj →
  Task.output obj = Spawner.appended "" (Manager.deltas t st).
Proof. intros Hreach. apply Manager.log_output. by apply reachable_Logged. Qed.

Lemma output_is_the_sum_of_deltas_witness :
  Manager.reachable (Manager.run Scenario.streamed Manager.init) ∧
  ∃ obj, Manager.heap (Manager.run Scenario.streamed Manager.init) !! 0%nat = Some obj ∧
         Task.output obj = "ab" ∧
         Manager.deltas 0%nat (Manager.run Scenario.streamed Manager.init) = ["a"; "b"].
Proof.
  assert (Manager.reachable (Manager.run Scenario.streamed Manager.init)) as H
    by (eexists; reflexivity).
  split; [exact H|]. eexists. split; [reflexivity|].
  split; [|reflexivity].
  rewrite (output_is_the_sum_of_deltas _ 0%nat _ H eq_refl). reflexivity.
Defined.

(** X11.  The history sink only ever receives final outcomes: in every
    reachable state, each task handed to [addTaskToHistory] had status
    completed, failed or cancelled at the moment of the call. *)
Theorem history_receives_final_outcomes (st : Manager.State) (x : Task.t) :
  Manager.reachable st →
  x ∈ Manager.historyCalls st →
  is_terminal (Task.status x) = true.
Proof. intros Hreach. apply Manager.log_history. by apply reachable_Logged. Qed.

Lemma history_receives_final_outcomes_witness :
  Manager.reachable (Manager.run Scenario.streamed Manager.init) ∧
  ∃ x, Manager.historyCalls (Manager.run Scenario.streamed Manager.init) = [x] ∧
       x ∈ Manager.historyCalls (Manager.run Scenario.streamed Manager.init) ∧
       is_terminal (Task.status x) = true.
Proof.
  assert (Manager.reachable (Manager.run Scenario.streamed Manager.init)) as H
    by (eexists; reflexivity).
  split; [exact H|]. eexists. split; [reflexivity|].
  assert (∀ x : Task.t, x ∈ [x] ) as Hin by (intros; apply list_elem_of_here).
  split; [apply Hin|].
  apply (history_receives_final_outcomes _ _ H). apply Hin.
Defined.

(** X12.  Every event belongs to a task that exists, and the first event
    of every task is its [task:created]: in every reachable state nothing
    is reported about a task before its creation was. *)
Theorem created_is_the_first_event (st : Manager.State) :
  Manager.reachable st →
  (∀ e, e ∈ Manager.events st →
        (Manager.event_task e < length (Manager.heap st))%nat) ∧
  (∀ t, (t < length (Manager.heap st))%nat →
        head (Manager.events_of t st) = Some (Manager.task_created t)).
Proof.
  intros Hreach. apply reachable_Logged in Hreach.
  split; [apply (Manager.log_events _ Hreach)|apply (Manager.log_created _ Hreach)].
Qed.

Lemma created_is_the_first_event_witness :
  Manager.reachable Scenario.three_running_two_waiting ∧
  head (Manager.events_of 4%nat Scenario.three_running_two_waiting)
  = Some (Manager.task_created 4%nat).
Proof.
  assert (Manager.reachable Scenario.three_running_two_waiting) as H
    by (eexists; reflexivity).
  split; [exact H|].
  apply (proj2 (created_is_the_first_event _ H)). vm_compute. lia.
Defined.

(** ** The lifecycle engine: who holds a task *)

Section manager_owned.
Import Manager.
Implicit Types (st : State) (l : Label) (task : TaskId).
Implicit Types (m : list (TaskId * ProcId)).

Lemma status_of_mutate_ne st task f t :
  t ≠ task → status_of t (mutate task f st) = status_of t st.
Proof. intros Hne. unfold status_of. simpl. by rewrite list_lookup_alter_ne. Qed.

Lemma status_of_mutate_keep st task f t :
  (∀ x, Task.status (f x) = Task.status x) →
  status_of t (mutate task f st) = status_of t st.
Proof.
  intros Hf. destruct (decide (t = task)) as [->|Hne];
    [|by apply status_of_mutate_ne].
  unfold status_of. simpl. rewrite list_lookup_alter_eq.
  destruct (heap st !! task); simpl; [by rewrite Hf|done].
Qed.

Lemma sublist_omap_keep {A B} (f : A → option B) (xs ys : list A) :
  xs `sublist_of` ys → omap f xs `sublist_of` omap f ys.
Proof.
  induction 1 as [|x xs ys Hs IH|x xs ys Hs IH]; simpl.
  - constructor.
  - destruct (f x); [by constructor|done].
  - destruct (f x); [by constructor|done].
Qed.

Lemma NoDup_omap_delete {A B} (f : A → option B) (xs : list A) i :
  NoDup (omap f xs) → NoDup (omap f (delete i xs)).
Proof.
  intros Hnd. eapply sublist_NoDup; [exact Hnd|].
  apply sublist_omap_keep, sublist_delete.
Qed.

Lemma omap_delete_fresh {A B} (f : A → option B) (xs : list A) i x b :
  NoDup (omap f xs) → xs !! i = Some x → f x = Some b →
  b ∉ omap f (delete i xs).
Proof.
  intros Hnd Hi Hfx. rewrite delete_take_drop, omap_app.
  rewrite <-(take_drop_middle _ _ _ Hi), omap_app in Hnd.
  simpl in Hnd. rewrite Hfx in Hnd.
  apply NoDup_app in Hnd as (H1 & H2 & H3).
  apply NoDup_cons in H3 as [H3 H4].
  intros [Hin|Hin]%elem_of_app; [|done].
  apply (H2 _ Hin). left.
Qed.

Lemma Owned_init : Owned init.
Proof.
  split; simpl.
  - constructor.
  - constructor.
  - intros t Ht. by apply elem_of_nil in Ht.
  - intros t p Ht. by apply elem_of_nil in Ht.
  - intros sp Ht. by apply elem_of_nil in Ht.
  - intros t Ht. by apply elem_of_nil in Ht.
  - intros t Ht. by apply elem_of_nil in Ht.
  - intros t Ht. by apply elem_of_nil in Ht.
Qed.

Lemma Owned_equiv st st' :
  (∀ t, status_of t st' = status_of t st) →
  pendingTasks st' = pendingTasks st →
  runningTasks st' = runningTasks st →
  procs st' = procs st →
  admitted st' = admitted st →
  Owned st → Owned st'.
Proof.
  intros Hs Hq Hr Hp Ha [H1 H2 H3 H4 H5 H6 H7 H8].
  split; rewrite ?Hq, ?Hr, ?Hp, ?Ha; try done;
    intros t Ht; rewrite Hs; auto.
Qed.

Lemma Owned_emit st e : Owned st → Owned (emit e st).
Proof. by apply Owned_equiv. Qed.

Lemma Owned_call_addTaskToHistory st task : Owned st → Owned (call_addTaskToHistory task st).
Proof.
  unfold call_addTaskToHistory. destruct (heap st !! task); [|done].
  by apply Owned_equiv.
Qed.

Lemma Owned_suspend st k : lookup_of k = None → Owned st → Owned (suspend k st).
Proof.
  intros Hk. apply Owned_equiv; try done.
  rewrite admitted_suspend, Hk. simpl. by rewrite app_nil_r.
Qed.

Lemma Owned_unsuspend st i : Owned st → Owned (unsuspend i st).
Proof.
  intros [H1 H2 H3 H4 H5 H6 H7 H8]. split; try done.
  - by apply NoDup_omap_delete.
  - intros t Ht. apply H3. by eapply admitted_unsuspend.
  - intros sp Hsp. destruct (H5 sp Hsp) as [Ha Hb]. split; [done|].
    intros Hin. apply Hb. by eapply admitted_unsuspend.
  - intros t Ht. apply (H8 t). by eapply admitted_unsuspend.
Qed.

Lemma Owned_mutate_keep st task f :
  (∀ x, Task.status (f x) = Task.status x) → Owned st → Owned (mutate task f st).
Proof.
  intros Hf. apply Owned_equiv; try done.
  intros t. by apply status_of_mutate_keep.
Qed.

Lemma Owned_mutate_free st task f :
  task ∉ pendingTasks st → task ∉ admitted st → task ∉ (runningTasks st).*1 →
  Owned st → Owned (mutate task f st).
Proof.
  intros Hq Ha Hr [H1 H2 H3 H4 H5 H6 H7 H8]. split; try done.
  - intros t Ht. rewrite status_of_mutate_ne; [by apply H6|]. by intros ->.
  - intros t Ht. rewrite status_of_mutate_ne; [by apply H7|]. by intros ->.
  - intros t Ht. rewrite status_of_mutate_ne; [by apply H8|]. by intros ->.
Qed.

Lemma Owned_set_procs st ps :
  (∀ p sp, procs st !! p = Some sp → ∃ sp', ps !! p = Some sp' ∧ owner sp' = owner sp) →
  (∀ sp', sp' ∈ ps → (owner sp' ∉ pendingTasks st) ∧ (owner sp' ∉ admitted st)) →
  Owned st → Owned (set_procs ps st).
Proof.
  intros Hkeep Hnew [H1 H2 H3 H4 H5 H6 H7 H8]. split; try done.
  simpl. intros t p Htp. destruct (H4 t p Htp) as (sp & Hsp & Ho).
  destruct (Hkeep p sp Hsp) as (sp' & Hsp' & Ho'). exists sp'. split; [done|congruence].
Qed.

Lemma Owned_map_delete st k :
  Owned st → Owned (set_runningTasks (map_delete k (runningTasks st)) st).
Proof.
  intros [H1 H2 H3 H4 H5 H6 H7 H8]. split; try done; simpl.
  - unfold map_delete. clear -H2. induction (runningTasks st) as [|e m IH]; [done|].
    rewrite fmap_cons in H2. apply NoDup_cons in H2 as [Hn Hnd].
    rewrite filter_cons. case_decide; [|by apply IH].
    rewrite fmap_cons. apply NoDup_cons. split; [|by apply IH].
    intros Hin. apply Hn. apply list_elem_of_fmap in Hin as (e' & -> & He').
    apply list_elem_of_fmap. exists e'. split; [done|].
    by apply list_elem_of_filter in He' as [_ He'].
  - intros t Ht Hin. apply keys_map_delete in Hin as [_ Hin]. by apply (H3 t).
  - intros t p Htp. apply H4. unfold map_delete in Htp.
    by apply list_elem_of_filter in Htp as [_ Htp].
  - intros t Ht. apply keys_map_delete in Ht as [_ Ht]. by apply H6.
Qed.

Lemma Owned_map_set st t p sp :
  t ∉ (runningTasks st).*1 → t ∉ admitted st →
  procs st !! p = Some sp → owner sp = t →
  status_of t st = Some running →
  Owned st → Owned (set_runningTasks (map_set t p (runningTasks st)) st).
Proof.
  intros Hfresh Ha Hp Ho Hs [H1 H2 H3 H4 H5 H6 H7 H8].
  assert (map_set t p (runningTasks st) = runningTasks st ++ [(t, p)]) as Hset.
  { unfold map_set. destruct (list_find _ _) as [[i e]|] eqn:E; [|done].
    exfalso. apply Hfresh. apply list_find_Some in E as (Hi & He & _).
    apply list_elem_of_fmap. exists e. split; [done|].
    by eapply list_elem_of_lookup_2. }
  split; try done; simpl; rewrite Hset.
  - rewrite fmap_app. apply NoDup_app. split_and!; [done| |apply NoDup_singleton].
    intros x Hx Hx'. apply list_elem_of_singleton in Hx'. simpl in Hx'. by subst.
  - intros u Hu. rewrite fmap_app. intros [Hin|Hin]%elem_of_app; [by apply (H3 u)|].
    apply list_elem_of_singleton in Hin. simpl in Hin. by subst.
  - intros u q [Hin|Hin]%elem_of_app; [by apply H4|].
    apply list_elem_of_singleton in Hin. simplify_eq. eauto.
  - intros u. rewrite fmap_app. intros [Hin|Hin]%elem_of_app; [by apply H6|].
    apply list_elem_of_singleton in Hin. simpl in Hin. by subst.
Qed.

Lemma Owned_created st input now :
  Inv st → Logged st → Owned st →
  Owned (emit (task_created (length (heap st)))
              (push_pending (new_task (length (heap st)) input now) st)).
Proof.
  intros HI HL [H1 H2 H3 H4 H5 H6 H7 H8]. apply Owned_emit.
  assert (∀ t, (t < length (heap st))%nat →
            status_of t (push_pending (new_task (length (heap st)) input now) st)
            = status_of t st) as Hold.
  { intros t Ht. unfold status_of. simpl. by rewrite lookup_app_l. }
  split; try done; simpl.
  - intros sp Hsp. destruct (H5 sp Hsp) as [Ha Hb]. split; [|done].
    intros [Hin|Hin]%elem_of_app; [done|].
    apply list_elem_of_singleton in Hin.
    pose proof (log_owner _ HL sp Hsp). lia.
  - intros t Ht. rewrite Hold; [by apply H6|]. by apply keys_bound.
  - intros t [Ht|Ht]%elem_of_app.
    + rewrite Hold; [by apply H7|].
      pose proof (inv_pending _ HI) as Hb. rewrite Forall_forall in Hb. by apply Hb.
    + apply list_elem_of_singleton in Ht as ->. unfold status_of. simpl.
      by rewrite list_lookup_middle.
  - intros t Ht. rewrite Hold; [by apply H8|].
    pose proof (inv_admitted _ HI) as Hb. rewrite Forall_forall in Hb. by apply Hb.
Qed.

Lemma Owned_processQueue st : Inv st → Owned st → Owned (processQueue st).
Proof.
  intros HI HO.
  destruct (processQueue_cases st) as [->|(t & rest & Hhead & _ & ->)]; [done|].
  destruct HO as [H1 H2 H3 H4 H5 H6 H7 H8].
  assert (t ∈ pendingTasks st) as Ht by (rewrite Hhead; left).
  destruct (inv_waiting _ HI t Ht) as [Hta Htr].
  assert (∀ u, u ∈ rest → u ∈ pendingTasks st) as Hrest
    by (intros u Hu; rewrite Hhead; by right).
  split; rewrite ?admitted_suspend; simpl; try done.
  - apply NoDup_app. split_and!; [done| |apply NoDup_singleton].
    intros x Hx Hx'. apply list_elem_of_singleton in Hx'. by subst.
  - intros u [Hu|Hu]%elem_of_app; [by apply H3|].
    apply list_elem_of_singleton in Hu. by subst.
  - intros sp Hsp. destruct (H5 sp Hsp) as [Ha Hb]. split.
    + intros Hin. apply Ha. by apply Hrest.
    + intros [Hin|Hin]%elem_of_app; [done|].
      apply list_elem_of_singleton in Hin. apply Ha. by rewrite Hin.
  - intros u Hu. apply H7. by apply Hrest.
  - intros u [Hu|Hu]%elem_of_app; [by apply H8|].
    apply list_elem_of_singleton in Hu. subst. by apply H7.
Qed.

Local Ltac keeps_status := intros ?; simpl; repeat case_match; reflexivity.

Local Ltac free :=
  repeat (apply Owned_mutate_free; [simpl; assumption|simpl; assumption|simpl; assumption|]).

Lemma Owned_startTask_resume st task project now :
  task ∉ pendingTasks st → task ∉ admitted st → task ∉ (runningTasks st).*1 →
  Owned st → Owned (startTask_resume task project now st).
Proof.
  intros Hq Ha Hr HO. unfold startTask_resume.
  destruct (heap st !! task) as [obj|] eqn:E; [|done].
  destruct project as [pr|].
  - apply Owned_suspend; [done|]. apply Owned_emit.
    eapply (Owned_map_set _ task (length (procs st))); simpl.
    + done.
    + done.
    + apply list_lookup_middle. done.
    + done.
    + unfold status_of. simpl. by rewrite !list_lookup_alter_eq, E.
    + apply Owned_set_procs.
      * simpl. intros p sp Hsp. exists sp. split; [|done]. by apply lookup_app_l_Some.
      * simpl. intros sp' [Hsp'|Hsp']%elem_of_app.
        -- by apply (own_started _ HO).
        -- apply list_elem_of_singleton in Hsp'. subst. simpl. by split.
      * free. done.
  - apply Owned_suspend; [done|]. apply Owned_call_addTaskToHistory, Owned_emit.
    free. done.
Qed.

Lemma Owned_on_exit st task code now :
  (∃ sp, sp ∈ procs st ∧ owner sp = task) →
  Owned st → Owned (on_exit task code now st).
Proof.
  intros (sp & Hsp & <-) HO.
  destruct (own_started _ HO sp Hsp) as [Hq Ha].
  assert (owner sp ∉ (map_delete (owner sp) (runningTasks st)).*1) as Hr.
  { intros Hin. by apply keys_map_delete in Hin as [Hin _]. }
  unfold on_exit. apply Owned_suspend; [done|]. apply Owned_call_addTaskToHistory.
  pose proof (Owned_map_delete st (owner sp) HO) as HO'.
  destruct code as [[| |]|]; apply Owned_emit; free; done.
Qed.

Lemma procs_listeners st task now es :
  procs (foldl (listener task now) st es) = procs st.
Proof.
  revert st. induction es as [|e es IH]; intros st; [done|].
  simpl. by rewrite IH, listener_procs.
Qed.

Lemma Owned_listeners st task now es :
  (∃ sp, sp ∈ procs st ∧ owner sp = task) →
  Owned st → Owned (foldl (listener task now) st es).
Proof.
  revert st. induction es as [|e es IH]; intros st Hsp HO; [done|].
  simpl. apply IH.
  - by rewrite listener_procs.
  - destruct e as [d|d|code signal]; simpl.
    + unfold on_output. apply Owned_emit. apply Owned_mutate_keep; [keeps_status|done].
    + unfold on_error. apply Owned_mutate_keep; [keeps_status|done].
    + by apply Owned_on_exit.
Qed.

Lemma Owned_on_child_event st p ev now : Owned st → Owned (on_child_event p ev now st).
Proof.
  intros HO. unfold on_child_event. destruct (procs st !! p) as [sp|] eqn:E; [|done].
  destruct (Spawner.on_child ev (supervisor sp)) as [cp emitted].
  apply Owned_listeners.
  - exists {| owner := owner sp; supervisor := cp |}. split; [|reflexivity]. simpl.
    pose proof (lookup_lt_Some _ _ _ E) as Hlt.
    apply list_elem_of_lookup. exists p. rewrite list_lookup_insert_eq by done. done.
  - apply Owned_set_procs; [| |done].
    + intros q sq Hq. destruct (decide (p = q)) as [->|Hne].
      * rewrite list_lookup_insert_eq by (by eapply lookup_lt_Some).
        eexists. split; [done|]. simpl. congruence.
      * rewrite list_lookup_insert_ne by done. eauto.
    + intros sp' Hsp'. apply list_elem_of_lookup in Hsp' as [j Hj].
      destruct (decide (p = j)) as [->|Hne].
      * rewrite list_lookup_insert_eq in Hj by (by eapply lookup_lt_Some).
        simplify_eq. simpl. apply (own_started _ HO).
        by eapply list_elem_of_lookup_2.
      * rewrite list_lookup_insert_ne in Hj by done.
        apply (own_started _ HO). by eapply list_elem_of_lookup_2.
Qed.

Lemma Owned_kill_proc st p : Owned st → Owned (kill_proc p st).
Proof.
  intros HO. unfold kill_proc. apply Owned_set_procs; [| |done].
  - intros q sq Hq. destruct (decide (p = q)) as [->|Hne].
    + rewrite list_lookup_alter_eq, Hq. simpl. eauto.
    + rewrite list_lookup_alter_ne by done. eauto.
  - intros sp' Hsp'. apply list_elem_of_lookup in Hsp' as [j Hj].
    destruct (decide (p = j)) as [->|Hne].
    + rewrite list_lookup_alter_eq in Hj.
      apply fmap_Some in Hj as (sp & Hsp & ->). simpl.
      apply (own_started _ HO). by eapply list_elem_of_lookup_2.
    + rewrite list_lookup_alter_ne in Hj by done.
      apply (own_started _ HO). by eapply list_elem_of_lookup_2.
Qed.

Lemma sorted_delete_fresh (q : list nat) (i x : nat) :
  StronglySorted lt q → q !! i = Some x → x ∉ delete i q.
Proof.
  intros Hs Hi Hin.
  rewrite delete_take_drop in Hin.
  rewrite <-(take_drop_middle _ _ _ Hi) in Hs.
  apply StronglySorted_app in Hs as (H1 & H2 & H3).
  apply StronglySorted_inv in H3 as [_ H3]. rewrite Forall_forall in H3.
  apply elem_of_app in Hin as [Hin|Hin].
  - assert (x < x)%nat; [|lia]. apply (H1 x x Hin). left.
  - specialize (H3 x Hin). lia.
Qed.

Lemma Owned_delete_pending st i :
  Owned st → Owned (set_pendingTasks (delete i (pendingTasks st)) st).
Proof.
  intros [H1 H2 H3 H4 H5 H6 H7 H8]. split; try done; simpl.
  - intros sp Hsp. destruct (H5 sp Hsp) as [Ha Hb]. split; [|done].
    intros Hin. apply Ha. by eapply list_elem_of_delete_inv.
  - intros t Ht. apply H7. by eapply list_elem_of_delete_inv.
Qed.

Lemma Owned_cancelTask st taskId now :
  Inv st → Owned st → Owned (cancelTask taskId now st).2.
Proof.
  intros HI HO. unfold cancelTask.
  destruct (list_find _ (pendingTasks st)) as [[i t]|] eqn:E.
  - apply list_find_eq_Some in E as [-> E]. simpl.
    assert (taskId ∈ pendingTasks st) as Hin by (by eapply list_elem_of_lookup_2).
    destruct (inv_waiting _ HI _ Hin) as [Ha Hr].
    pose proof (sorted_delete_fresh _ _ _ (inv_sorted _ HI) E) as Hq.
    apply Owned_call_addTaskToHistory, Owned_emit.
    free. by apply Owned_delete_pending.
  - destruct (map_get taskId (runningTasks st)) as [p|] eqn:Ep; [|done]. simpl.
    assert (taskId ∈ (runningTasks st).*1) as Hk by (apply map_get_is_Some; eauto).
    assert (taskId ∉ pendingTasks st) as Hq.
    { intros Hin. by apply (inv_waiting _ HI) in Hin as [_ Hin]. }
    assert (taskId ∉ admitted st) as Ha.
    { intros Hin. by apply (own_starting _ HO) in Hin. }
    assert (taskId ∉ (map_delete taskId (runningTasks st)).*1) as Hr.
    { intros Hin. by apply keys_map_delete in Hin as [Hin _]. }
    apply Owned_processQueue.
    { apply Inv_call_addTaskToHistory, Inv_emit.
      apply (Inv_map_delete
               (mutate taskId (Task.set_completedAt now)
                  (mutate taskId (Task.set_status cancelled) (kill_proc p st)))).
      apply Inv_mutate; [keeps_status|]. apply Inv_mutate; [keeps_status|].
      unfold kill_proc. by apply Inv_set_procs. }
    apply Owned_call_addTaskToHistory, Owned_emit.
    change (Owned (mutate taskId (Task.set_completedAt now)
                     (mutate taskId (Task.set_status cancelled)
                        (set_runningTasks (map_delete taskId (runningTasks st))
                           (kill_proc p st))))).
    free. apply (Owned_map_delete (kill_proc p st)). by apply Owned_kill_proc.
Qed.

Lemma Owned_step st l : Inv st → Logged st → Owned st → Owned (step st l).
Proof.
  intros HI HL HO.
  destruct l as [input project now|taskId now|k project now|k|k|p ev now]; simpl.
  - unfold createTask. destruct project; [|done]. simpl.
    apply Owned_processQueue; [|by apply Owned_created].
    apply Inv_emit. by apply Inv_push_pending.
  - by apply Owned_cancelTask.
  - destruct (suspended st !! k) as [[t| | |]|] eqn:E; try done.
    pose proof (admitted_lookup _ _ _ E) as Ht.
    apply Owned_startTask_resume; [| | |by apply Owned_unsuspend].
    + simpl. intros Hin. by apply (inv_waiting _ HI) in Hin as [Hin _].
    + unfold admitted, unsuspend. simpl.
      eapply omap_delete_fresh; [apply (own_admitted _ HO)|exact E|done].
    + simpl. by apply (own_starting _ HO).
  - destruct (suspended st !! k) as [[]|] eqn:E; try done.
    + apply Owned_suspend; [done|]. by apply Owned_unsuspend.
    + apply Owned_processQueue; [by apply Inv_unsuspend|by apply Owned_unsuspend].
  - destruct (suspended st !! k) as [[]|] eqn:E; try done.
    apply Owned_processQueue; [by apply Inv_unsuspend|by apply Owned_unsuspend].
  - by apply Owned_on_child_event.
Qed.

Lemma reachable_Owned st : reachable st → Owned st.
Proof.
  intros [ls ->]. unfold run.
  cut (∀ s, Inv s → Logged s → Owned s →
            Inv (foldl step s ls) ∧ Logged (foldl step s ls) ∧ Owned (foldl step s ls)).
  { intros H. apply H; [apply Inv_init|apply Logged_init|apply Owned_init]. }
  induction ls as [|l ls IH]; intros s HI HL HO; [done|].
  simpl. apply IH; [by apply Inv_step|by apply Logged_step|by apply Owned_step].
Qed.

End manager_owned.

(** ** The lifecycle engine: queries *)

Lemma omap_heap_ids (st : Manager.State) (ts : list TaskId) :
  Manager.Inv st →
  (∀ t, t ∈ ts → (t < length (Manager.heap st))%nat) →
  Task.id <$> omap (λ t, Manager.heap st !! t) ts = ts ∧
  ∀ s, (∀ t, t ∈ ts → Manager.status_of t st = Some s) →
       Forall (λ obj, Task.status obj = s) (omap (λ t, Manager.heap st !! t) ts).
Proof.
  intros HI. induction ts as [|t ts IH]; intros Hb; [by split; [|constructor]|].
  destruct IH as [IH1 IH2]; [intros u Hu; apply Hb; by right|].
  destruct (lookup_lt_is_Some_2 (Manager.heap st) t) as [obj Hobj]; [apply Hb; left|].
  csimpl. rewrite Hobj. csimpl. split.
  - rewrite IH1. f_equal. by apply (Manager.inv_ids _ HI).
  - intros s Hs. constructor.
    + assert (Manager.status_of t st = Some s) as Ht by (apply Hs; left).
      unfold Manager.status_of in Ht. rewrite Hobj in Ht. simpl in Ht. congruence.
    + apply IH2. intros u Hu. apply Hs. by right.
Qed.

Lemma omap_on_keys {B} (f : TaskId → option B) (m : list (TaskId * nat)) :
  omap (λ e, f e.1) m = omap f (m.*1).
Proof.
  induction m as [|e m IH]; [done|]. csimpl. rewrite IH. done.
Qed.

Lemma getActiveTasks_ids (st : Manager.State) :
  Manager.Inv st →
  Task.id <$> Manager.getActiveTasks st
  = (Manager.runningTasks st).*1 ++ Manager.pendingTasks st.
Proof.
  intros HI. unfold Manager.getActiveTasks.
  rewrite (omap_on_keys (λ t, Manager.heap st !! t)), fmap_app.
  destruct (omap_heap_ids st ((Manager.runningTasks st).*1) HI) as [-> _].
  { intros t Ht. by apply keys_bound. }
  destruct (omap_heap_ids st (Manager.pendingTasks st) HI) as [-> _]; [|done].
  intros t Ht. pose proof (Manager.inv_pending _ HI) as Hb.
  rewrite Forall_forall in Hb. by apply Hb.
Qed.

(** X13.  [getActiveTasks] shows in-flight work before queued work.  In
    every reachable state the list is made of the running tasks, each with
    status running and in the order in which they were started, followed by
    the pending tasks, each with status pending and in the order of
    submission; its length is the running count plus the pending count, and
    no task occurs twice. *)
Theorem getActiveTasks_running_then_pending (st : Manager.State) :
  Manager.reachable st →
  ∃ rs ps,
    Manager.getActiveTasks st = rs ++ ps ∧
    Task.id <$> rs = (Manager.runningTasks st).*1 ∧
    Task.id <$> ps = Manager.pendingTasks st ∧
    Forall (λ obj, Task.status obj = running) rs ∧
    Forall (λ obj, Task.status obj = pending) ps ∧
    length (Manager.getActiveTasks st)
    = (Manager.getRunningCount st + Manager.getPendingCount st)%nat ∧
    NoDup (Task.id <$> Manager.getActiveTasks st).
Proof.
  intros Hreach.
  pose proof (reachable_Inv _ Hreach) as HI.
  pose proof (reachable_Owned _ Hreach) as HO.
  unfold Manager.getActiveTasks.
  rewrite (omap_on_keys (λ t, Manager.heap st !! t)).
  destruct (omap_heap_ids st ((Manager.runningTasks st).*1) HI) as [Hr1 Hr2].
  { intros t Ht. by apply keys_bound. }
  destruct (omap_heap_ids st (Manager.pendingTasks st) HI) as [Hp1 Hp2].
  { intros t Ht. pose proof (Manager.inv_pending _ HI) as Hb.
    rewrite Forall_forall in Hb. by apply Hb. }
  eexists _, _. split; [reflexivity|]. split_and!; try done.
  - apply Hr2. apply (Manager.own_status_running _ HO).
  - apply Hp2. apply (Manager.own_status_pending _ HO).
  - rewrite length_app.
    rewrite <-(length_fmap Task.id (omap _ ((Manager.runningTasks st).*1))), Hr1.
    rewrite <-(length_fmap Task.id (omap _ (Manager.pendingTasks st))), Hp1.
    unfold Manager.getRunningCount, Manager.getPendingCount, Manager.map_size.
    by rewrite length_fmap.
  - rewrite fmap_app, Hr1, Hp1. apply NoDup_app. split_and!.
    + apply (Manager.own_running _ HO).
    + intros t Ht Ht'. by apply (Manager.inv_waiting _ HI) in Ht' as [_ Ht'].
    + pose proof (Manager.inv_sorted _ HI) as Hs.
      clear -Hs. induction Hs as [|t q Hq IH Ht]; constructor; [|done].
      intros Hin. rewrite Forall_forall in Ht. specialize (Ht _ Hin). lia.
Qed.

Lemma getActiveTasks_running_then_pending_witness :
  Manager.reachable Scenario.three_running_two_waiting ∧
  (Task.id <$> Manager.getActiveTasks Scenario.three_running_two_waiting,
   Task.status <$> Manager.getActiveTasks Scenario.three_running_two_waiting)
  = ([0; 1; 2; 3; 4]%nat, [running; running; running; pending; pending]) ∧
  NoDup (Task.id <$> Manager.getActiveTasks Scenario.three_running_two_waiting).
Proof.
  assert (Manager.reachable Scenario.three_running_two_waiting) as H
    by (eexists; reflexivity).
  split; [exact H|]. split; [reflexivity|].
  destruct (getActiveTasks_running_then_pending _ H) as (rs & ps & _ & _ & _ & _ & _ & _ & Hnd).
  exact Hnd.
Defined.

(** X14.  [getTask] finds exactly the pending and the running tasks.  In
    every reachable state, [getTask(id)] returns a task if and only if the
    id is in the pending queue or in the running set; the task returned
    carries that id, and its status is pending in the first case and
    running in the second. *)
Theorem getTask_finds_live_tasks (st : Manager.State) (id : TaskId) :
  Manager.reachable st →
  (is_Some (Manager.getTask id st) ↔
   id ∈ Manager.pendingTasks st ∨ id ∈ (Manager.runningTasks st).*1) ∧
  (∀ obj, Manager.getTask id st = Some obj →
     Manager.heap st !! id = Some obj ∧
     Task.id obj = id ∧
     (id ∈ Manager.pendingTasks st ∧ Task.status obj = pending ∨
      id ∈ (Manager.runningTasks st).*1 ∧ Task.status obj = running)).
Proof.
  intros Hreach.
  pose proof (reachable_Inv _ Hreach) as HI.
  pose proof (reachable_Owned _ Hreach) as HO.
  assert (∀ obj, Manager.getTask id st = Some obj →
     Manager.heap st !! id = Some obj ∧
     Task.id obj = id ∧
     (id ∈ Manager.pendingTasks st ∧ Task.status obj = pending ∨
      id ∈ (Manager.runningTasks st).*1 ∧ Task.status obj = running)) as Hsome.
  { intros obj. unfold Manager.getTask.
    destruct (list_find _ (Manager.pendingTasks st)) as [[i t]|] eqn:E.
    - apply list_find_eq_Some in E as [-> E]. intros Hobj.
      assert (id ∈ Manager.pendingTasks st) as Hin by (by eapply list_elem_of_lookup_2).
      split_and!; [done|by apply (Manager.inv_ids _ HI)|]. left. split; [done|].
      pose proof (Manager.own_status_pending _ HO _ Hin) as Hs.
      unfold Manager.status_of in Hs. rewrite Hobj in Hs. simpl in Hs. congruence.
    - destruct (Manager.map_get id (Manager.runningTasks st)) as [p|] eqn:Ep; [|done].
      intros Hobj.
      assert (id ∈ (Manager.runningTasks st).*1) as Hin
        by (apply map_get_is_Some; eauto).
      split_and!; [done|by apply (Manager.inv_ids _ HI)|]. right. split; [done|].
      pose proof (Manager.own_status_running _ HO _ Hin) as Hs.
      unfold Manager.status_of in Hs. rewrite Hobj in Hs. simpl in Hs. congruence. }
  split; [|done]. split.
  - intros [obj Hobj]. destruct (Hsome obj Hobj) as (_ & _ & [[? _]|[? _]]); auto.
  - intros Hin. unfold Manager.getTask.
    destruct (list_find _ (Manager.pendingTasks st)) as [[i t]|] eqn:E.
    + apply list_find_eq_Some in E as [-> E]. apply lookup_lt_is_Some.
      pose proof (Manager.inv_pending _ HI) as Hb. rewrite Forall_forall in Hb.
      apply Hb. by eapply list_elem_of_lookup_2.
    + apply list_find_None in E. rewrite Forall_forall in E.
      destruct Hin as [Hin|Hin]; [by apply E in Hin|].
      pose proof Hin as Hin'. apply map_get_is_Some in Hin' as [p ->].
      apply lookup_lt_is_Some. by apply keys_bound.
Qed.

Lemma getTask_finds_live_tasks_witness :
  Manager.reachable Scenario.three_running_two_waiting ∧
  Task.status <$> Manager.getTask 3%nat Scenario.three_running_two_waiting = Some pending ∧
  is_Some (Manager.getTask 1%nat Scenario.three_running_two_waiting).
Proof.
  assert (Manager.reachable Scenario.three_running_two_waiting) as H
    by (eexists; reflexivity).
  split; [exact H|]. split; [reflexivity|].
  apply (proj1 (getTask_finds_live_tasks _ 1%nat H)). right.
  vm_compute. apply list_elem_of_further, list_elem_of_here.
Defined.

(** X15.  A task whose start is in flight is out of reach.  Between the
    moment [processQueue] takes a task from the queue and the moment the
    awaited project lookup of [startTask] answers, the task is in neither
    collection: [getTask] does not find it, [getActiveTasks] does not list
    it, and [cancelTask] returns false and changes nothing, although the
    status of the task is still pending. *)
Theorem starting_task_is_out_of_reach (st : Manager.State) (t : TaskId) (now : Z) :
  Manager.reachable st →
  t ∈ Manager.admitted st →
  Manager.status_of t st = Some pending ∧
  Manager.getTask t st = None ∧
  (t ∉ Task.id <$> Manager.getActiveTasks st) ∧
  Manager.cancelTask t now st = (false, st).
Proof.
  intros Hreach Hin.
  pose proof (reachable_Inv _ Hreach) as HI.
  pose proof (reachable_Owned _ Hreach) as HO.
  assert (t ∉ Manager.pendingTasks st) as Hp.
  { intros Hp. by apply (Manager.inv_waiting _ HI) in Hp as [Hp _]. }
  assert (t ∉ (Manager.runningTasks st).*1) as Hr
    by (by apply (Manager.own_starting _ HO)).
  assert (list_find (λ u, u = t) (Manager.pendingTasks st) = None) as Hfind.
  { apply list_find_None, Forall_forall. intros u Hu ->. done. }
  apply map_get_None in Hr as Hget.
  split_and!.
  - by apply (Manager.own_status_admitted _ HO).
  - unfold Manager.getTask. by rewrite Hfind, Hget.
  - rewrite (getActiveTasks_ids st HI), elem_of_app. tauto.
  - unfold Manager.cancelTask. by rewrite Hfind, Hget.
Qed.

Lemma starting_task_is_out_of_reach_witness :
  Manager.reachable Scenario.start_in_flight ∧
  0%nat ∈ Manager.admitted Scenario.start_in_flight ∧
  Manager.getTask 0%nat Scenario.start_in_flight = None ∧
  Manager.cancelTask 0%nat 1 Scenario.start_in_flight
  = (false, Scenario.start_in_flight).
Proof.
  assert (Manager.reachable Scenario.start_in_flight) as H by (eexists; reflexivity).
  assert (0%nat ∈ Manager.admitted Scenario.start_in_flight) as Hin
    by (vm_compute; apply list_elem_of_here).
  split; [exact H|]. split; [exact Hin|].
  destruct (starting_task_is_out_of_reach _ 0%nat 1 H Hin) as (_ & H1 & _ & H2).
  split; [exact H1|exact H2].
Defined.

(** ** The lifecycle engine: workers *)

Section manager_workers.
Import Manager.
Implicit Types (st : State) (l : Label) (task : TaskId).

Lemma procs_processQueue st : procs (processQueue st) = procs st.
Proof. destruct (processQueue_cases st) as [->|(t & rest & _ & _ & ->)]; done. Qed.

Lemma procs_call_addTaskToHistory st task :
  procs (call_addTaskToHistory task st) = procs st.
Proof. unfold call_addTaskToHistory. by destruct (heap st !! task). Qed.

Lemma history_processQueue st : historyCalls (processQueue st) = historyCalls st.
Proof. destruct (processQueue_cases st) as [->|(t & rest & _ & _ & ->)]; done. Qed.

Lemma alter_as_insert {A} (f : A → A) (xs : list A) i x :
  xs !! i = Some x → alter f i xs = <[i := f x]> xs.
Proof.
  intros Hi. apply list_eq. intros j. destruct (decide (j = i)) as [->|Hne].
  - rewrite list_lookup_alter_eq, Hi, list_lookup_insert_eq; [done|].
    by eapply lookup_lt_Some.
  - by rewrite list_lookup_alter_ne, list_lookup_insert_ne.
Qed.

Lemma alter_out_of_range {A} (f : A → A) (xs : list A) i :
  xs !! i = None → alter f i xs = xs.
Proof.
  intros Hi. apply list_eq. intros j. destruct (decide (j = i)) as [->|Hne].
  - by rewrite list_lookup_alter_eq, Hi.
  - by rewrite list_lookup_alter_ne.
Qed.

Lemma kill_keeps_process cp :
  is_Some (Spawner.process cp) → is_Some (Spawner.process (Spawner.kill cp)).
Proof.
  unfold Spawner.kill. destruct (Spawner.process cp) as [c|] eqn:E; [|done].
  intros _. destruct (negb (Spawner.killed c)); simpl; [done|by rewrite E].
Qed.

Lemma on_child_keeps_process ev cp :
  is_Some (Spawner.process cp) → is_Some (Spawner.process (Spawner.on_child ev cp).1).
Proof.
  unfold Spawner.on_child. destruct (Spawner.process cp) as [c|] eqn:E; [|done].
  intros _. destruct ev; simpl; done.
Qed.

(** What a step does to the supervisors: nothing, or it adds the
    supervisor of the task whose start it completes, or it replaces one
    supervisor by its next state. *)
Lemma procs_step st l :
  procs (step st l) = procs st
  ∨ (∃ k t project now obj,
       l = settle_lookup k (Some project) now ∧
       suspended st !! k = Some (startTask_lookup t) ∧
       heap st !! t = Some obj ∧
       procs (step st l)
       = procs st ++ [{| owner := t;
                         supervisor := Spawner.spawnClaude
                           {| Spawner.cwd := path project;
                              Spawner.prompt := Task.prompt obj;
                              Spawner.maxBudget := Task.maxBudget obj |} |}])
  ∨ (∃ p sp cp,
       procs st !! p = Some sp ∧
       procs (step st l) = <[p := {| owner := owner sp; supervisor := cp |}]> (procs st) ∧
       (is_Some (Spawner.process (supervisor sp)) → is_Some (Spawner.process cp))).
Proof.
  destruct l as [input project now|taskId now|k project now|k|k|p ev now]; simpl.
  - left. unfold createTask. destruct project; [|done]. simpl.
    by rewrite procs_processQueue.
  - unfold cancelTask.
    destruct (list_find _ (pendingTasks st)) as [[i t]|].
    { left. simpl. by rewrite procs_call_addTaskToHistory. }
    destruct (map_get taskId (runningTasks st)) as [p|]; [|by left]. simpl.
    rewrite procs_processQueue, procs_call_addTaskToHistory. simpl.
    destruct (procs st !! p) as [sp|] eqn:E.
    + right. right. exists p, sp, (Spawner.kill (supervisor sp)).
      split; [done|]. split; [|apply kill_keeps_process].
      exact (alter_as_insert
               (λ sp, {| owner := owner sp;
                         supervisor := Spawner.kill (supervisor sp) |})
               (procs st) p sp E).
    + left. by apply alter_out_of_range.
  - destruct (suspended st !! k) as [[t| | |]|] eqn:E; try by left.
    unfold startTask_resume. simpl.
    destruct (heap st !! t) as [obj|] eqn:Hobj; [|by left].
    destruct project as [pr|]; simpl.
    + right. left. by exists k, t, pr, now, obj.
    + left. by rewrite procs_call_addTaskToHistory.
  - destruct (suspended st !! k) as [[]|]; try by left.
    left. by rewrite procs_processQueue.
  - destruct (suspended st !! k) as [[]|]; try by left.
    left. by rewrite procs_processQueue.
  - unfold on_child_event. destruct (procs st !! p) as [sp|] eqn:E; [|by left].
    pose proof (on_child_keeps_process ev (supervisor sp)) as Hk.
    destruct (Spawner.on_child ev (supervisor sp)) as [cp emitted].
    right. right. exists p, sp, cp. rewrite procs_listeners. done.
Qed.

Lemma all_started_step st l : all_started st → all_started (step st l).
Proof.
  unfold all_started. intros H.
  destruct (procs_step st l)
    as [->|[(k & t & pr & now & obj & _ & _ & _ & ->)|(p & sp & cp & Hp & -> & Hk)]].
  - done.
  - apply Forall_app. split; [done|]. by repeat constructor.
  - apply Forall_insert; [done|]. simpl. apply Hk.
    rewrite Forall_forall in H. apply H. by eapply list_elem_of_lookup_2.
Qed.

Lemma reachable_all_started st : reachable st → all_started st.
Proof.
  intros [ls ->]. unfold run.
  cut (∀ s, all_started s → all_started (foldl step s ls)).
  { intros H. apply H. constructor. }
  induction ls as [|l ls IH]; intros s Hs; [done|].
  simpl. by apply IH, all_started_step.
Qed.

Lemma owners_step st l :
  Owned st → NoDup (owner <$> procs st) → NoDup (owner <$> procs (step st l)).
Proof.
  intros HO H.
  destruct (procs_step st l)
    as [->|[(k & t & pr & now & obj & _ & Hk & _ & ->)|(p & sp & cp & Hp & -> & _)]].
  - done.
  - rewrite fmap_app. simpl. apply NoDup_app. split_and!; [done| |apply NoDup_singleton].
    intros u (sp & -> & Hsp)%list_elem_of_fmap Hu%list_elem_of_singleton.
    destruct (own_started _ HO sp Hsp) as [_ Hno].
    apply Hno. rewrite Hu. by eapply admitted_lookup.
  - rewrite list_fmap_insert. simpl. rewrite list_insert_id; [done|].
    by rewrite list_lookup_fmap, Hp.
Qed.

Lemma reachable_owners st : reachable st → NoDup (owner <$> procs st).
Proof.
  intros [ls ->]. unfold run.
  cut (∀ s, reachable s → NoDup (owner <$> procs s) →
            NoDup (owner <$> procs (foldl step s ls))).
  { intros H. apply H; [by exists []|constructor]. }
  induction ls as [|l ls IH]; intros s Hr Hs; [done|].
  simpl. apply IH; [by apply reachable_step|].
  apply owners_step; [by apply reachable_Owned|done].
Qed.

End manager_workers.

(** X16.  No task is ever given a second worker.  Among all supervisors
    the engine has created since it was constructed, no two belong to the
    same task; every entry of the running map points to the supervisor of
    that very task, whose child process has been spawned; and no supervisor
    is shared by two running tasks. *)
Theorem each_task_is_spawned_at_most_once (st : Manager.State) :
  Manager.reachable st →
  NoDup (Manager.owner <$> Manager.procs st) ∧
  (∀ t p, (t, p) ∈ Manager.runningTasks st →
     ∃ sp, Manager.procs st !! p = Some sp ∧ Manager.owner sp = t ∧
           is_Some (Spawner.process (Manager.supervisor sp))) ∧
  (∀ t1 t2 p, (t1, p) ∈ Manager.runningTasks st →
              (t2, p) ∈ Manager.runningTasks st → t1 = t2).
Proof.
  intros Hreach.
  pose proof (reachable_Owned _ Hreach) as HO.
  pose proof (reachable_all_started _ Hreach) as HS.
  split_and!.
  - by apply reachable_owners.
  - intros t p Hin. destruct (Manager.own_procs _ HO t p Hin) as (sp & Hsp & Ht).
    exists sp. split_and!; [done..|].
    unfold Manager.all_started in HS. rewrite Forall_forall in HS.
    apply HS. by eapply list_elem_of_lookup_2.
  - intros t1 t2 p H1 H2.
    destruct (Manager.own_procs _ HO t1 p H1) as (sp1 & Hsp1 & <-).
    destruct (Manager.own_procs _ HO t2 p H2) as (sp2 & Hsp2 & <-).
    congruence.
Qed.

Lemma each_task_is_spawned_at_most_once_witness :
  Manager.reachable Scenario.three_running_two_waiting ∧
  Manager.owner <$> Manager.procs Scenario.three_running_two_waiting = [0; 1; 2]%nat ∧
  NoDup (Manager.owner <$> Manager.procs Scenario.three_running_two_waiting).
Proof.
  assert (Manager.reachable Scenario.three_running_two_waiting) as H
    by (eexists; reflexivity).
  split; [exact H|]. split; [reflexivity|].
  exact (proj1 (each_task_is_spawned_at_most_once _ H)).
Defined.

(** ** The lifecycle engine: the ways a task ends *)

Lemma heap_lookup_mutate (st : Manager.State) (t : TaskId) (f : Task.t → Task.t) :
  Manager.heap (Manager.mutate t f st) !! t = f <$> Manager.heap st !! t.
Proof. unfold Manager.mutate. simpl. apply list_lookup_alter_eq. Qed.

Lemma call_addTaskToHistory_found (st : Manager.State) (t : TaskId) (obj : Task.t) :
  Manager.heap st !! t = Some obj →
  Manager.call_addTaskToHistory t st
  = Manager.set_historyCalls (Manager.historyCalls st ++ [obj]) st.
Proof. intros H. unfold Manager.call_addTaskToHistory. by rewrite H. Qed.

(** X17.  Cancelling a waiting task withdraws it for good.  When the id is
    in the pending queue, [cancelTask] returns true, takes exactly that
    entry out of the queue, sets status cancelled and [completedAt], emits
    [task:cancelled] and hands the task to the history sink; it neither
    touches the running map or any supervisor nor starts another task, and
    [getTask] no longer finds the id. *)
Theorem cancelTask_withdraws_waiting_task (st : Manager.State) (t : TaskId) (now : Z) :
  Manager.reachable st →
  t ∈ Manager.pendingTasks st →
  ∃ i obj st',
    Manager.pendingTasks st !! i = Some t ∧
    Manager.heap st !! t = Some obj ∧
    Manager.cancelTask t now st = (true, st') ∧
    Manager.pendingTasks st' = delete i (Manager.pendingTasks st) ∧
    Manager.runningTasks st' = Manager.runningTasks st ∧
    Manager.procs st' = Manager.procs st ∧
    Manager.suspended st' = Manager.suspended st ∧
    Manager.heap st' !! t
    = Some (Task.set_completedAt now (Task.set_status cancelled obj)) ∧
    Manager.events st' = Manager.events st ++ [Manager.task_cancelled t] ∧
    Manager.historyCalls st'
    = Manager.historyCalls st
      ++ [Task.set_completedAt now (Task.set_status cancelled obj)] ∧
    Manager.getTask t st' = None.
Proof.
  intros Hreach Hin.
  pose proof (reachable_Inv _ Hreach) as HI.
  destruct (list_find_elem_of (λ u, u = t) _ t Hin eq_refl) as [[i u] Hfind].
  pose proof Hfind as Hfind'. apply list_find_eq_Some in Hfind' as [-> Hi].
  destruct (lookup_lt_is_Some_2 (Manager.heap st) t) as [obj Hobj].
  { pose proof (Manager.inv_pending _ HI) as Hb. rewrite Forall_forall in Hb.
    by apply Hb. }
  exists i, obj. eexists. split; [exact Hi|]. split; [exact Hobj|].
  split.
  { unfold Manager.cancelTask. rewrite Hfind. cbv zeta.
    erewrite call_addTaskToHistory_found; [reflexivity|].
    simpl. rewrite !list_lookup_alter_eq, Hobj. reflexivity. }
  simpl. rewrite !list_lookup_alter_eq, Hobj. split_and!; try done.
  unfold Manager.getTask. simpl.
  assert (t ∉ delete i (Manager.pendingTasks st)) as Hout.
  { apply sorted_delete_fresh; [apply (Manager.inv_sorted _ HI)|done]. }
  assert (list_find (λ u, u = t) (delete i (Manager.pendingTasks st)) = None) as ->.
  { apply list_find_None, Forall_forall. by intros u Hu ->. }
  destruct (Manager.inv_waiting _ HI t Hin) as [_ Hr].
  apply map_get_None in Hr. by rewrite Hr.
Qed.

Lemma cancelTask_withdraws_waiting_task_witness :
  Manager.reachable Scenario.three_running_two_waiting ∧
  3%nat ∈ Manager.pendingTasks Scenario.three_running_two_waiting ∧
  ∃ st', Manager.cancelTask 3%nat 9 Scenario.three_running_two_waiting = (true, st') ∧
         Manager.pendingTasks st' = [4%nat] ∧
         Manager.getTask 3%nat st' = None.
Proof.
  assert (Manager.reachable Scenario.three_running_two_waiting) as H
    by (eexists; reflexivity).
  assert (3%nat ∈ Manager.pendingTasks Scenario.three_running_two_waiting) as Hin
    by (vm_compute; apply list_elem_of_here).
  split; [exact H|]. split; [exact Hin|].
  destruct (cancelTask_withdraws_waiting_task _ 3%nat 9 H Hin)
    as (i & obj & st' & _ & _ & Hc & _ & _ & _ & _ & _ & _ & _ & Hg).
  exists st'. split; [exact Hc|]. split; [|exact Hg].
  vm_compute in Hc. injection Hc as <-. reflexivity.
Defined.

Lemma keys_functional (k : TaskId) (v1 v2 : nat) (m : list (TaskId * nat)) :
  NoDup m.*1 → (k, v1) ∈ m → (k, v2) ∈ m → v1 = v2.
Proof.
  induction m as [|e m IH]; intros Hnd H1 H2; [by apply elem_of_nil in H1|].
  rewrite fmap_cons in Hnd. apply NoDup_cons in Hnd as [Hfresh Hnd].
  assert (∀ v, (k, v) ∈ m → k ∈ m.*1) as Hkey.
  { intros v Hv. apply list_elem_of_fmap. by exists (k, v). }
  apply elem_of_cons in H1 as [H1|H1]; apply elem_of_cons in H2 as [H2|H2].
  - congruence.
  - subst e. exfalso. apply Hfresh. by eapply Hkey.
  - subst e. exfalso. apply Hfresh. by eapply Hkey.
  - by apply IH.
Qed.

Lemma filter_all {A} (P : A → Prop) `{!∀ x, Decision (P x)} (xs : list A) :
  (∀ x, x ∈ xs → P x) → filter P xs = xs.
Proof.
  induction xs as [|x xs IH]; intros Hall; [done|].
  rewrite filter_cons. rewrite decide_True by (apply Hall; left).
  f_equal. apply IH. intros y Hy. apply Hall. by right.
Qed.

Lemma map_get_elem (k : TaskId) (v : nat) (m : list (TaskId * nat)) :
  NoDup m.*1 → (k, v) ∈ m → Manager.map_get k m = Some v.
Proof.
  intros Hnd Hin. unfold Manager.map_get.
  destruct (list_find_elem_of (λ e : TaskId * nat, e.1 = k) m (k, v) Hin eq_refl)
    as [[i [k' v']] Hfind].
  rewrite Hfind. simpl.
  apply list_find_Some in Hfind as (Hi & Hk & _). simpl in Hk. subst k'.
  f_equal. eapply keys_functional; [exact Hnd| |exact Hin].
  by eapply list_elem_of_lookup_2.
Qed.

Lemma map_size_delete_exact (k : TaskId) (m : list (TaskId * nat)) :
  NoDup m.*1 → k ∈ m.*1 →
  S (Manager.map_size (Manager.map_delete k m)) = Manager.map_size m.
Proof.
  unfold Manager.map_size, Manager.map_delete.
  induction m as [|e m IH]; intros Hnd Hin; [by apply elem_of_nil in Hin|].
  rewrite fmap_cons in Hnd, Hin. apply NoDup_cons in Hnd as [Hfresh Hnd].
  rewrite filter_cons. destruct (decide (e.1 ≠ k)) as [Hne|Heq].
  - simpl. f_equal. apply IH; [done|].
    apply elem_of_cons in Hin as [Hin|Hin]; [congruence|done].
  - apply dec_stable in Heq. subst k. simpl. f_equal.
    rewrite filter_all; [done|].
    intros x Hx Heq. apply Hfresh. rewrite <-Heq.
    apply list_elem_of_fmap. by exists x.
Qed.

(** X18.  Cancelling a running task stops its own worker and frees its
    slot.  When the id is in the running map, [cancelTask] returns true,
    sends the kill to the supervisor of that task and to no other, removes
    the entry (the running count goes down by exactly one), sets status
    cancelled and [completedAt], emits [task:cancelled], hands the task to
    the history sink, and gives the queue its turn before it returns. *)
Theorem cancelTask_stops_running_task
    (st : Manager.State) (t : TaskId) (p : Manager.ProcId) (now : Z) :
  Manager.reachable st →
  (t, p) ∈ Manager.runningTasks st →
  ∃ sp obj s,
    Manager.procs st !! p = Some sp ∧ Manager.owner sp = t ∧
    Manager.heap st !! t = Some obj ∧
    Manager.cancelTask t now st = (true, Manager.processQueue s) ∧
    Manager.procs s
    = <[p := {| Manager.owner := t;
                Manager.supervisor := Spawner.kill (Manager.supervisor sp) |}]>
        (Manager.procs st) ∧
    Manager.runningTasks s = Manager.map_delete t (Manager.runningTasks st) ∧
    S (Manager.getRunningCount (Manager.processQueue s)) = Manager.getRunningCount st ∧
    Manager.pendingTasks s = Manager.pendingTasks st ∧
    Manager.heap s !! t
    = Some (Task.set_completedAt now (Task.set_status cancelled obj)) ∧
    Manager.events s = Manager.events st ++ [Manager.task_cancelled t] ∧
    Manager.historyCalls s
    = Manager.historyCalls st
      ++ [Task.set_completedAt now (Task.set_status cancelled obj)].
Proof.
  intros Hreach Hin.
  pose proof (reachable_Inv _ Hreach) as HI.
  pose proof (reachable_Owned _ Hreach) as HO.
  assert (t ∈ (Manager.runningTasks st).*1) as Hkey.
  { apply list_elem_of_fmap. by exists (t, p). }
  destruct (Manager.own_procs _ HO t p Hin) as (sp & Hsp & Hown).
  destruct (lookup_lt_is_Some_2 (Manager.heap st) t) as [obj Hobj];
    [by apply keys_bound|].
  assert (list_find (λ u, u = t) (Manager.pendingTasks st) = None) as Hfind.
  { apply list_find_None, Forall_forall. intros u Hu ->.
    by apply (Manager.inv_waiting _ HI) in Hu as [_ Hu]. }
  pose proof (map_get_elem t p _ (Manager.own_running _ HO) Hin) as Hget.
  exists sp, obj. eexists. split; [exact Hsp|]. split; [exact Hown|].
  split; [exact Hobj|]. split.
  { unfold Manager.cancelTask. rewrite Hfind, Hget. cbv zeta.
    erewrite call_addTaskToHistory_found; [reflexivity|].
    simpl. rewrite !list_lookup_alter_eq, Hobj. reflexivity. }
  unfold Manager.getRunningCount. rewrite running_processQueue. simpl.
  rewrite !list_lookup_alter_eq, Hobj.
  split_and!; try done.
  - rewrite <-Hown.
    exact (alter_as_insert
             (λ sp, {| Manager.owner := Manager.owner sp;
                       Manager.supervisor := Spawner.kill (Manager.supervisor sp) |})
             (Manager.procs st) p sp Hsp).
  - by apply map_size_delete_exact; [apply (Manager.own_running _ HO)|].
Qed.

Lemma cancelTask_stops_running_task_witness :
  Manager.reachable Scenario.three_running_two_waiting ∧
  (1%nat, 1%nat) ∈ Manager.runningTasks Scenario.three_running_two_waiting ∧
  (Manager.cancelTask 1%nat 9 Scenario.three_running_two_waiting).1 = true ∧
  S (Manager.getRunningCount
       (Manager.cancelTask 1%nat 9 Scenario.three_running_two_waiting).2)
  = Manager.getRunningCount Scenario.three_running_two_waiting ∧
  Manager.admitted (Manager.cancelTask 1%nat 9 Scenario.three_running_two_waiting).2
  = [3%nat].
Proof.
  assert (Manager.reachable Scenario.three_running_two_waiting) as H
    by (eexists; reflexivity).
  assert ((1%nat, 1%nat) ∈ Manager.runningTasks Scenario.three_running_two_waiting)
    as Hin by (vm_compute; apply list_elem_of_further, list_elem_of_here).
  destruct (cancelTask_stops_running_task _ 1%nat 1%nat 9 H Hin)
    as (sp & obj & s & _ & _ & _ & Hc & _ & _ & Hcount & _).
  split; [exact H|]. split; [exact Hin|].
  split; [by rewrite Hc|]. split; [by rewrite Hc|].
  vm_compute. reflexivity.
Defined.

(** ** The lifecycle engine: the start of a task *)

Lemma map_set_fresh (k : TaskId) (v : nat) (m : list (TaskId * nat)) :
  k ∉ m.*1 → Manager.map_set k v m = m ++ [(k, v)].
Proof.
  intros Hk. unfold Manager.map_set.
  destruct (list_find _ m) as [[i e]|] eqn:E; [|done].
  apply list_find_Some in E as (Hi & He & _). exfalso. apply Hk.
  apply list_elem_of_fmap. exists e. split; [done|]. by eapply list_elem_of_lookup_2.
Qed.

Lemma lookup_in_flight (st : Manager.State) (k : nat) (t : TaskId) :
  Manager.reachable st →
  Manager.suspended st !! k = Some (Manager.startTask_lookup t) →
  (∃ obj, Manager.heap st !! t = Some obj) ∧
  list_find (λ u, u = t) (Manager.pendingTasks st) = None ∧
  (t ∉ (Manager.runningTasks st).*1) ∧
  (t ∉ Manager.admitted (Manager.unsuspend k st)).
Proof.
  intros Hreach Hk.
  pose proof (reachable_Inv _ Hreach) as HI.
  pose proof (reachable_Owned _ Hreach) as HO.
  pose proof (admitted_lookup _ _ _ Hk) as Hin.
  split_and!.
  - apply lookup_lt_is_Some.
    pose proof (Manager.inv_admitted _ HI) as Hb. rewrite Forall_forall in Hb.
    by apply Hb.
  - apply list_find_None, Forall_forall. intros u Hu ->.
    by apply (Manager.inv_waiting _ HI) in Hu as [Hu _].
  - by apply (Manager.own_starting _ HO).
  - unfold Manager.admitted, Manager.unsuspend. simpl.
    eapply omap_delete_fresh; [apply (Manager.own_admitted _ HO)|exact Hk|done].
Qed.

(** X19.  A project that has disappeared fails the task at its start.
    When the project lookup of [startTask] answers with nothing, the task
    gets status failed, the error text "Project not found: <projectId>" and
    [completedAt]; [task:failed] is emitted and the task is handed to the
    history sink.  No worker is spawned, no slot is taken, and the task is
    no longer among the starts in flight. *)
Theorem start_fails_when_project_is_gone
    (st : Manager.State) (k : nat) (t : TaskId) (now : Z) :
  Manager.reachable st →
  Manager.suspended st !! k = Some (Manager.startTask_lookup t) →
  ∃ obj obj' st',
    Manager.heap st !! t = Some obj ∧
    st' = Manager.step st (Manager.settle_lookup k None now) ∧
    obj' = Task.set_completedAt now
             (Task.set_error ("Project not found: " +:+ Task.projectId obj)
                (Task.set_status failed obj)) ∧
    Manager.heap st' !! t = Some obj' ∧
    Manager.procs st' = Manager.procs st ∧
    Manager.runningTasks st' = Manager.runningTasks st ∧
    Manager.pendingTasks st' = Manager.pendingTasks st ∧
    Manager.events st' = Manager.events st ++ [Manager.task_failed t] ∧
    Manager.historyCalls st' = Manager.historyCalls st ++ [obj'] ∧
    (t ∉ Manager.admitted st') ∧
    Manager.getTask t st' = None.
Proof.
  intros Hreach Hk.
  destruct (lookup_in_flight st k t Hreach Hk) as ([obj Hobj] & Hfind & Hr & Ha).
  exists obj. eexists. eexists. split; [exact Hobj|].
  split; [reflexivity|]. split; [reflexivity|].
  simpl. rewrite Hk. unfold Manager.startTask_resume. simpl. rewrite Hobj.
  cbv zeta.
  erewrite call_addTaskToHistory_found
    by (simpl; rewrite !list_lookup_alter_eq, Hobj; reflexivity).
  simpl. rewrite !list_lookup_alter_eq, Hobj.
  split_and!; try done.
  - rewrite admitted_suspend. simpl. by rewrite app_nil_r.
  - unfold Manager.getTask. simpl. rewrite Hfind.
    apply map_get_None in Hr. by rewrite Hr.
Qed.

Lemma start_fails_when_project_is_gone_witness :
  Manager.reachable Scenario.start_in_flight ∧
  Manager.suspended Scenario.start_in_flight !! 0%nat
  = Some (Manager.startTask_lookup 0%nat) ∧
  ∃ st', st' = Manager.step Scenario.start_in_flight (Manager.settle_lookup 0 None 1) ∧
         Manager.procs st' = [] ∧
         Manager.events st' = [Manager.task_created 0%nat; Manager.task_failed 0%nat].
Proof.
  assert (Manager.reachable Scenario.start_in_flight) as H by (eexists; reflexivity).
  split; [exact H|]. split; [reflexivity|].
  destruct (start_fails_when_project_is_gone _ 0%nat 0%nat 1 H eq_refl)
    as (obj & obj' & st' & _ & Hst' & _ & _ & Hp & _ & _ & He & _).
  exists st'. split; [exact Hst'|]. split.
  - rewrite Hp. reflexivity.
  - rewrite He. reflexivity.
Defined.



(** ** The lifecycle engine: events of the worker *)

(** What the engine knows of a running task and its supervisor. *)
Lemma running_entry (st : Manager.State) (t : TaskId) (p : Manager.ProcId) :
  Manager.reachable st →
  (t, p) ∈ Manager.runningTasks st →
  ∃ sp c obj,
    Manager.procs st !! p = Some sp ∧ Manager.owner sp = t ∧
    Spawner.process (Manager.supervisor sp) = Some c ∧
    Manager.heap st !! t = Some obj ∧
    Task.status obj = running ∧
    S (Manager.map_size (Manager.map_delete t (Manager.runningTasks st)))
    = Manager.map_size (Manager.runningTasks st).
Proof.
  intros Hreach Hin.
  pose proof (reachable_Inv _ Hreach) as HI.
  pose proof (reachable_Owned _ Hreach) as HO.
  pose proof (reachable_all_started _ Hreach) as HS.
  assert (t ∈ (Manager.runningTasks st).*1) as Hkey.
  { apply list_elem_of_fmap. by exists (t, p). }
  destruct (Manager.own_procs _ HO t p Hin) as (sp & Hsp & Hown).
  destruct (lookup_lt_is_Some_2 (Manager.heap st) t) as [obj Hobj];
    [by apply keys_bound|].
  unfold Manager.all_started in HS. rewrite Forall_forall in HS.
  destruct (HS sp) as [c Hc]; [by eapply list_elem_of_lookup_2|].
  exists sp, c, obj. split_and!; try done.
  - pose proof (Manager.own_status_running _ HO t Hkey) as Hs.
    unfold Manager.status_of in Hs. rewrite Hobj in Hs. simpl in Hs. congruence.
  - by apply map_size_delete_exact; [apply (Manager.own_running _ HO)|].
Qed.

(** X21.  The exit of its worker finalises a running task.  On the exit
    event of the child of a running task the entry leaves the running map
    (the running count goes down by exactly one), the task gets
    [completedAt] and [durationMs]; with exit code 0 it becomes completed
    and keeps whatever error text it had, with any other code or a signal
    it becomes failed, and gets the text "Process exited with code <code>"
    only if no error text was collected before.  The matching event is
    emitted and the task is handed to the history sink; the queue is not
    touched before that write has settled. *)
Theorem exit_finalises_running_task
    (st : Manager.State) (t : TaskId) (p : Manager.ProcId)
    (code : option Z) (signal : option string) (now : Z) :
  Manager.reachable st →
  (t, p) ∈ Manager.runningTasks st →
  ∃ obj obj' st',
    Manager.heap st !! t = Some obj ∧
    st' = Manager.step st (Manager.child p (Spawner.child_exit code signal) now) ∧
    Manager.heap st' !! t = Some obj' ∧
    Task.status obj' = (if decide (code = Some 0) then completed else failed) ∧
    Task.completedAt obj' = Some now ∧
    Task.durationMs obj' = Some (now - default 0 (Task.startedAt obj)) ∧
    Task.error obj'
    = (if decide (code = Some 0) then Task.error obj
       else if truthy_string (Task.error obj) then Task.error obj
            else Some ("Process exited with code " +:+ Manager.show_code code)) ∧
    Task.output obj' = Task.output obj ∧
    Manager.runningTasks st' = Manager.map_delete t (Manager.runningTasks st) ∧
    S (Manager.getRunningCount st') = Manager.getRunningCount st ∧
    Manager.pendingTasks st' = Manager.pendingTasks st ∧
    Manager.suspended st' = Manager.suspended st ++ [Manager.exit_history t] ∧
    Manager.events st'
    = Manager.events st
      ++ [if decide (code = Some 0) then Manager.task_completed t
          else Manager.task_failed t] ∧
    Manager.historyCalls st' = Manager.historyCalls st ++ [obj'].
Proof.
  intros Hreach Hin.
  destruct (running_entry st t p Hreach Hin)
    as (sp & c & obj & Hsp & Hown & Hc & Hobj & _ & Hsize).
  destruct code as [[|n|n]|]; destruct (truthy_string (Task.error obj)) eqn:Etr;
    (exists obj; eexists; eexists; split; [exact Hobj|]; split; [reflexivity|]);
    simpl; unfold Manager.on_child_event; rewrite Hsp;
    unfold Spawner.on_child; rewrite Hc; cbn [foldl Manager.listener]; rewrite Hown;
    unfold Manager.on_exit, Manager.getRunningCount; cbv zeta;
    (erewrite call_addTaskToHistory_found
       by (simpl; rewrite !list_lookup_alter_eq, Hobj; simpl; rewrite ?Etr; reflexivity));
    simpl; rewrite !list_lookup_alter_eq, Hobj; simpl; rewrite ?Etr;
    split_and!; done.
Qed.

Lemma exit_finalises_running_task_witness :
  Manager.reachable Scenario.one_running ∧
  (0%nat, 0%nat) ∈ Manager.runningTasks Scenario.one_running ∧
  ∃ st', st' = Manager.step Scenario.one_running
                 (Manager.child 0%nat (Spawner.child_exit (Some 2) None) 7) ∧
         Manager.runningTasks st' = [] ∧
         Manager.events st'
         = [Manager.task_created 0%nat; Manager.task_started 0%nat;
            Manager.task_failed 0%nat].
Proof.
  assert (Manager.reachable Scenario.one_running) as H by (eexists; reflexivity).
  assert ((0%nat, 0%nat) ∈ Manager.runningTasks Scenario.one_running) as Hin
    by (vm_compute; apply list_elem_of_here).
  split; [exact H|]. split; [exact Hin|].
  destruct (exit_finalises_running_task _ 0%nat 0%nat (Some 2) None 7 H Hin)
    as (obj & obj' & st' & _ & Hst' & _ & _ & _ & _ & _ & _ & Hr & _ & _ & _ & He & _).
  exists st'. split; [exact Hst'|]. split.
  - rewrite Hr. reflexivity.
  - rewrite He. reflexivity.
Defined.

Lemma error_text_so_far (e : option string) :
  (if truthy_string e then default "" e else "") = default "" e.
Proof. by destruct e as [[|a s]|]. Qed.

(** X22.  A worker that cannot be spawned fails its task with the reason.
    When Node reports an error for the child of a running task, the
    message (which is not empty) is appended to the error text of the task,
    the task becomes failed and keeps that text instead of the "Process
    exited with code 1" default, its slot is freed, and exactly one event,
    [task:failed], is emitted before the task is handed to the history
    sink. *)
Theorem spawn_failure_fails_the_task
    (st : Manager.State) (t : TaskId) (p : Manager.ProcId)
    (message : string) (now : Z) :
  Manager.reachable st →
  (t, p) ∈ Manager.runningTasks st →
  message ≠ "" →
  ∃ obj obj' st',
    Manager.heap st !! t = Some obj ∧
    st' = Manager.step st (Manager.child p (Spawner.child_error message) now) ∧
    Manager.heap st' !! t = Some obj' ∧
    Task.status obj' = failed ∧
    Task.error obj' = Some (default "" (Task.error obj) +:+ message) ∧
    Task.completedAt obj' = Some now ∧
    Manager.runningTasks st' = Manager.map_delete t (Manager.runningTasks st) ∧
    Manager.events st' = Manager.events st ++ [Manager.task_failed t] ∧
    Manager.historyCalls st' = Manager.historyCalls st ++ [obj'].
Proof.
  intros Hreach Hin Hmsg.
  destruct (running_entry st t p Hreach Hin)
    as (sp & c & obj & Hsp & Hown & Hc & Hobj & _ & _).
  destruct message as [|b m]; [done|].
  destruct obj as [i pid pr s mb ca sa co cu du out [[|a e]|]];
    (eexists; eexists; eexists; split; [exact Hobj|]; split; [reflexivity|]);
    simpl; unfold Manager.on_child_event; rewrite Hsp;
    unfold Spawner.on_child; rewrite Hc; cbn [foldl Manager.listener]; rewrite Hown;
    unfold Manager.on_exit, Manager.on_error; cbv zeta;
    (erewrite call_addTaskToHistory_found
       by (simpl; rewrite !list_lookup_alter_eq, Hobj; reflexivity));
    simpl; rewrite !list_lookup_alter_eq, Hobj; simpl;
    split_and!; done.
Qed.

Lemma spawn_failure_fails_the_task_witness :
  Manager.reachable Scenario.one_running ∧
  (0%nat, 0%nat) ∈ Manager.runningTasks Scenario.one_running ∧
  ∃ st' obj',
    st' = Manager.step Scenario.one_running
            (Manager.child 0%nat (Spawner.child_error "spawn claude ENOENT") 7) ∧
    Manager.heap st' !! 0%nat = Some obj' ∧
    Task.error obj' = Some "spawn claude ENOENT".
Proof.
  assert (Manager.reachable Scenario.one_running) as H by (eexists; reflexivity).
  assert ((0%nat, 0%nat) ∈ Manager.runningTasks Scenario.one_running) as Hin
    by (vm_compute; apply list_elem_of_here).
  split; [exact H|]. split; [exact Hin|].
  destruct (spawn_failure_fails_the_task _ 0%nat 0%nat "spawn claude ENOENT" 7 H Hin)
    as (obj & obj' & st' & Hobj & Hst' & Hobj' & _ & He & _); [done|].
  exists st', obj'. split; [exact Hst'|]. split; [exact Hobj'|].
  rewrite He. vm_compute in Hobj. injection Hobj as <-. reflexivity.
Defined.

(** X23.  What a worker writes is collected while the task keeps running.
    A chunk on the standard output of the child of a running task is
    appended to the output of the task and announced by one [task:output]
    event that carries the chunk; a chunk on its standard error is appended
    to the error text of the task and announced by no event.  Neither
    changes the status, the running map, the queue or the history. *)
Theorem worker_chunks_are_collected
    (st : Manager.State) (t : TaskId) (p : Manager.ProcId) (data : string) (now : Z) :
  Manager.reachable st →
  (t, p) ∈ Manager.runningTasks st →
  ∃ obj out err,
    Manager.heap st !! t = Some obj ∧
    out = Manager.step st (Manager.child p (Spawner.stdout_data data) now) ∧
    err = Manager.step st (Manager.child p (Spawner.stderr_data data) now) ∧
    Manager.heap out !! t = Some (Task.set_output (Task.output obj +:+ data) obj) ∧
    Manager.events out = Manager.events st ++ [Manager.task_output t data] ∧
    Manager.heap err !! t
    = Some (Task.set_error (default "" (Task.error obj) +:+ data) obj) ∧
    Manager.events err = Manager.events st ∧
    Manager.status_of t out = Some running ∧
    Manager.status_of t err = Some running ∧
    Manager.runningTasks out = Manager.runningTasks st ∧
    Manager.runningTasks err = Manager.runningTasks st ∧
    Manager.pendingTasks out = Manager.pendingTasks st ∧
    Manager.pendingTasks err = Manager.pendingTasks st ∧
    Manager.historyCalls out = Manager.historyCalls st ∧
    Manager.historyCalls err = Manager.historyCalls st.
Proof.
  intros Hreach Hin.
  destruct (running_entry st t p Hreach Hin)
    as (sp & c & obj & Hsp & Hown & Hc & Hobj & Hstatus & _).
  exists obj. eexists. eexists. split; [exact Hobj|].
  split; [reflexivity|]. split; [reflexivity|].
  unfold Manager.status_of. simpl. unfold Manager.on_child_event. rewrite Hsp.
  unfold Spawner.on_child. rewrite Hc. cbn [foldl Manager.listener]. rewrite Hown.
  unfold Manager.on_output, Manager.on_error. simpl.
  rewrite !list_lookup_alter_eq, Hobj. simpl.
  rewrite error_text_so_far, Hstatus. split_and!; done.
Qed.

Lemma worker_chunks_are_collected_witness :
  Manager.reachable Scenario.one_running ∧
  (0%nat, 0%nat) ∈ Manager.runningTasks Scenario.one_running ∧
  ∃ err, err = Manager.step Scenario.one_running
                 (Manager.child 0%nat (Spawner.stderr_data "warning") 7) ∧
         Manager.events err = Manager.events Scenario.one_running ∧
         Manager.status_of 0%nat err = Some running.
Proof.
  assert (Manager.reachable Scenario.one_running) as H by (eexists; reflexivity).
  assert ((0%nat, 0%nat) ∈ Manager.runningTasks Scenario.one_running) as Hin
    by (vm_compute; apply list_elem_of_here).
  split; [exact H|]. split; [exact Hin|].
  destruct (worker_chunks_are_collected _ 0%nat 0%nat "warning" 7 H Hin)
    as (obj & out & err & _ & _ & Herr & _ & _ & _ & He & _ & Hs & _).
  exists err. split; [exact Herr|]. split; [exact He|exact Hs].
Defined.

(** ** The lifecycle engine: what a step keeps *)

Section manager_extends.
Import Manager.
Implicit Types (st : State) (l : Label) (task : TaskId).

Lemma extends_refl st : extends st st.
Proof. split; try done. intros t obj H. by exists obj. Qed.

Lemma extends_trans st1 st2 st3 : extends st1 st2 → extends st2 st3 → extends st1 st3.
Proof.
  intros [E1 H1 P1 R1] [E2 H2 P2 R2]. split; try by etrans.
  intros t obj Hobj. destruct (R1 _ _ Hobj) as (obj2 & Hobj2 & Hr2).
  destruct (R2 _ _ Hobj2) as (obj3 & Hobj3 & Hr3).
  exists obj3. split; [done|congruence].
Qed.

Lemma extends_emit st e : extends st (emit e st).
Proof.
  split; simpl; try done; [by apply prefix_app_r|].
  intros t obj H. by exists obj.
Qed.

Lemma extends_mutate st task f :
  (∀ x, request (f x) = request x) → extends st (mutate task f st).
Proof.
  intros Hf. split; simpl; try done. intros t obj Hobj.
  destruct (decide (t = task)) as [->|Hne].
  - exists (f obj). by rewrite list_lookup_alter_eq, Hobj.
  - exists obj. by rewrite list_lookup_alter_ne.
Qed.

Lemma extends_call_addTaskToHistory st task : extends st (call_addTaskToHistory task st).
Proof.
  unfold call_addTaskToHistory.
  destruct (heap st !! task) as [x|]; [|apply extends_refl].
  split; simpl; try done; [by apply prefix_app_r|].
  intros u obj H. by exists obj.
Qed.

Lemma extends_suspend st k : extends st (suspend k st).
Proof. split; simpl; try done. intros t obj H. by exists obj. Qed.

Lemma extends_unsuspend st i : extends st (unsuspend i st).
Proof. split; simpl; try done. intros t obj H. by exists obj. Qed.

Lemma extends_set_pendingTasks st q : extends st (set_pendingTasks q st).
Proof. split; simpl; try done. intros t obj H. by exists obj. Qed.

Lemma extends_set_runningTasks st m : extends st (set_runningTasks m st).
Proof. split; simpl; try done. intros t obj H. by exists obj. Qed.

Lemma extends_set_procs st ps :
  (owner <$> procs st) `prefix_of` (owner <$> ps) → extends st (set_procs ps st).
Proof. intros Hp. split; simpl; try done. intros t obj H. by exists obj. Qed.

Lemma extends_push_pending st x : extends st (push_pending x st).
Proof.
  split; simpl; try done. intros t obj H. exists obj.
  split; [|done]. by apply lookup_app_l_Some.
Qed.

Lemma extends_processQueue st : extends st (processQueue st).
Proof.
  destruct (processQueue_cases st) as [->|(t & rest & _ & _ & ->)];
    [apply extends_refl|].
  eapply extends_trans; [apply extends_set_pendingTasks|apply extends_suspend].
Qed.

Lemma owners_alter (g : Supervised → Supervised) (ps : list Supervised) p :
  (∀ sp, owner (g sp) = owner sp) → owner <$> alter g p ps = owner <$> ps.
Proof.
  intros Hg. apply list_eq. intros j. rewrite !list_lookup_fmap.
  destruct (decide (j = p)) as [->|Hne].
  - rewrite list_lookup_alter_eq. destruct (ps !! p); simpl; by rewrite ?Hg.
  - by rewrite list_lookup_alter_ne.
Qed.

Lemma extends_kill_proc st p : extends st (kill_proc p st).
Proof. apply extends_set_procs. by rewrite owners_alter. Qed.

Local Ltac keeps_request := intros ?; simpl; repeat case_match; reflexivity.

Local Ltac chain :=
  repeat first
    [ apply extends_refl
    | eapply extends_trans;
      [|first [ apply extends_emit
              | apply extends_call_addTaskToHistory
              | apply extends_suspend
              | apply extends_unsuspend
              | apply extends_processQueue
              | apply extends_push_pending
              | apply extends_kill_proc
              | apply extends_set_pendingTasks
              | apply extends_set_runningTasks
              | apply extends_mutate; keeps_request ]] ].

Lemma extends_createTask st input project now :
  extends st (createTask input project now st).2.
Proof. unfold createTask. destruct project; simpl; chain. Qed.

Lemma extends_cancelTask st taskId now : extends st (cancelTask taskId now st).2.
Proof.
  unfold cancelTask. destruct (list_find _ (pendingTasks st)) as [[i t]|]; simpl.
  { chain. }
  destruct (map_get taskId (runningTasks st)) as [p|]; simpl; chain.
Qed.

Lemma extends_startTask_resume st task project now :
  extends st (startTask_resume task project now st).
Proof.
  unfold startTask_resume. destruct (heap st !! task) as [obj|]; [|apply extends_refl].
  destruct project as [pr|]; cbv zeta; [|chain].
  eapply extends_trans; [|apply extends_suspend].
  eapply extends_trans; [|apply extends_emit].
  eapply extends_trans; [|apply extends_set_runningTasks].
  eapply extends_trans; [|apply extends_set_procs; simpl; rewrite fmap_app;
                           by apply prefix_app_r].
  chain.
Qed.

Lemma extends_listener st task now e : extends st (listener task now st e).
Proof.
  destruct e as [d|d|code signal]; simpl.
  - unfold on_output. chain.
  - unfold on_error. chain.
  - unfold on_exit. destruct code as [[| |]|]; cbv zeta; chain.
Qed.

Lemma extends_listeners st task now es : extends st (foldl (listener task now) st es).
Proof.
  revert st. induction es as [|e es IH]; intros st; [apply extends_refl|].
  simpl. eapply extends_trans; [apply extends_listener|apply IH].
Qed.

Lemma extends_on_child_event st p ev now : extends st (on_child_event p ev now st).
Proof.
  unfold on_child_event. destruct (procs st !! p) as [sp|] eqn:E; [|apply extends_refl].
  destruct (Spawner.on_child ev (supervisor sp)) as [cp emitted].
  eapply extends_trans; [|apply extends_listeners].
  apply extends_set_procs. rewrite list_fmap_insert. simpl.
  rewrite list_insert_id; [done|]. by rewrite list_lookup_fmap, E.
Qed.

Lemma extends_step st l : extends st (step st l).
Proof.
  destruct l as [input project now|taskId now|k project now|k|k|p ev now]; simpl.
  - apply extends_createTask.
  - apply extends_cancelTask.
  - destruct (suspended st !! k) as [[t| | |]|]; try apply extends_refl.
    eapply extends_trans; [apply extends_unsuspend|apply extends_startTask_resume].
  - destruct (suspended st !! k) as [[]|]; try apply extends_refl; chain.
  - destruct (suspended st !! k) as [[]|]; try apply extends_refl; chain.
  - apply extends_on_child_event.
Qed.

Lemma extends_run ls st : extends st (run ls st).
Proof.
  revert st. induction ls as [|l ls IH]; intros st; [apply extends_refl|].
  simpl. eapply extends_trans; [apply extends_step|apply IH].
Qed.

End manager_extends.

(** X24.  The engine never rewrites the past.  Whatever happens after a
    state (calls, settled promises, events of workers, in any order), the
    events emitted so far stay the beginning of the event log, the tasks
    handed to the history sink so far stay the beginning of that series, no
    supervisor is dropped or given to another task, and every task keeps
    its id, project, prompt, budget and creation date. *)
Theorem engine_never_rewrites_the_past (st : Manager.State) (ls : list Manager.Label) :
  Manager.events st `prefix_of` Manager.events (Manager.run ls st) ∧
  Manager.historyCalls st `prefix_of` Manager.historyCalls (Manager.run ls st) ∧
  (Manager.owner <$> Manager.procs st)
    `prefix_of` (Manager.owner <$> Manager.procs (Manager.run ls st)) ∧
  ∀ t obj, Manager.heap st !! t = Some obj →
    ∃ obj', Manager.heap (Manager.run ls st) !! t = Some obj' ∧
            Task.id obj' = Task.id obj ∧
            Task.projectId obj' = Task.projectId obj ∧
            Task.prompt obj' = Task.prompt obj ∧
            Task.maxBudget obj' = Task.maxBudget obj ∧
            Task.createdAt obj' = Task.createdAt obj.
Proof.
  destruct (extends_run ls st) as [HE HH HP HR]. split_and!; try done.
  intros t obj Hobj. destruct (HR _ _ Hobj) as (obj' & Hobj' & Hreq).
  exists obj'. split; [done|]. unfold Manager.request in Hreq.
  by simplify_eq.
Qed.

(** ** The lifecycle engine: where a task is *)

Section manager_placed.
Import Manager.
Implicit Types (st : State) (l : Label) (task : TaskId).

Lemma elem_of_delete_other {A} (q : list A) i x u :
  q !! i = Some x → u ≠ x → u ∈ q → u ∈ delete i q.
Proof.
  intros Hi Hne Hu. rewrite delete_take_drop.
  rewrite <-(take_drop_middle _ _ _ Hi) in Hu.
  apply elem_of_app in Hu as [Hu|Hu]; [apply elem_of_app; by left|].
  apply elem_of_cons in Hu as [Hu|Hu]; [done|apply elem_of_app; by right].
Qed.

Lemma admitted_unsuspend_other st k c u :
  suspended st !! k = Some c → lookup_of c ≠ Some u →
  u ∈ admitted st → u ∈ admitted (unsuspend k st).
Proof.
  intros Hk Hc. unfold admitted, unsuspend. simpl. rewrite !list_elem_of_omap.
  intros (c' & Hc' & Hu). exists c'. split; [|done].
  eapply elem_of_delete_other; [exact Hk| |done]. congruence.
Qed.

Lemma Placed_init : Placed init.
Proof. split; intros t; unfold status_of; simpl; done. Qed.

(** A transition that changes the status of no task and drops no task
    from where it is. *)
Lemma Placed_weaken st st' :
  (∀ u, status_of u st' = status_of u st) →
  (∀ u, u ∈ pendingTasks st ∨ u ∈ admitted st →
        u ∈ pendingTasks st' ∨ u ∈ admitted st') →
  (∀ u, u ∈ (runningTasks st).*1 → u ∈ (runningTasks st').*1) →
  Placed st → Placed st'.
Proof.
  intros Hs Hq Hr [H1 H2]. split; intros u; rewrite Hs; auto.
Qed.

(** A transition that moves one task [t] and leaves the others alone. *)
Lemma Placed_move st st' t :
  (∀ u, u ≠ t → status_of u st' = status_of u st) →
  (status_of t st' = Some pending → t ∈ pendingTasks st' ∨ t ∈ admitted st') →
  (status_of t st' = Some running → t ∈ (runningTasks st').*1) →
  (∀ u, u ≠ t → u ∈ pendingTasks st ∨ u ∈ admitted st →
        u ∈ pendingTasks st' ∨ u ∈ admitted st') →
  (∀ u, u ≠ t → u ∈ (runningTasks st).*1 → u ∈ (runningTasks st').*1) →
  Placed st → Placed st'.
Proof.
  intros Hs Hp Hr Hq Hk [H1 H2]. split; intros u Hu.
  - destruct (decide (u = t)) as [->|Hne]; [auto|].
    rewrite Hs in Hu by done. auto.
  - destruct (decide (u = t)) as [->|Hne]; [auto|].
    rewrite Hs in Hu by done. auto.
Qed.

Lemma status_of_call_addTaskToHistory st task u :
  status_of u (call_addTaskToHistory task st) = status_of u st.
Proof. unfold status_of. by rewrite heap_call_addTaskToHistory. Qed.

Lemma status_of_processQueue st u : status_of u (processQueue st) = status_of u st.
Proof. unfold status_of. by rewrite heap_processQueue. Qed.

Lemma Placed_processQueue st : Placed st → Placed (processQueue st).
Proof.
  apply Placed_weaken.
  - apply status_of_processQueue.
  - destruct (processQueue_cases st) as [->|(t & rest & Hq & _ & ->)]; [done|].
    intros u. rewrite admitted_suspend, Hq. simpl.
    rewrite elem_of_cons, elem_of_app, list_elem_of_singleton. tauto.
  - by rewrite running_processQueue.
Qed.

Lemma Placed_createTask st input project now :
  Placed st → Placed (createTask input project now st).2.
Proof.
  intros HP. unfold createTask. destruct project as [pr|]; [|done]. simpl.
  apply Placed_processQueue.
  apply (Placed_move st _ (length (heap st))); try done.
  - intros u Hne. unfold status_of. simpl.
    destruct (decide (u < length (heap st))%nat).
    + by rewrite lookup_app_l.
    + rewrite (lookup_ge_None_2 (heap st ++ _)) by (rewrite length_app; simpl; lia).
      by rewrite lookup_ge_None_2 by lia.
  - intros _. left. simpl. apply elem_of_app. right. apply list_elem_of_here.
  - unfold status_of. simpl. rewrite list_lookup_middle by done. done.
  - intros u _ [Hu|Hu]; [left|by right]. simpl. apply elem_of_app. by left.
Qed.

Lemma Placed_cancelTask st taskId now :
  Placed st → Placed (cancelTask taskId now st).2.
Proof.
  intros HP. unfold cancelTask.
  destruct (list_find _ (pendingTasks st)) as [[i t]|] eqn:E.
  - apply list_find_eq_Some in E as [-> E]. simpl.
    apply (Placed_move st _ taskId); try done.
    + intros u Hne. rewrite status_of_call_addTaskToHistory. unfold status_of. simpl.
      by rewrite !list_lookup_alter_ne.
    + rewrite status_of_call_addTaskToHistory. unfold status_of. simpl.
      rewrite !list_lookup_alter_eq. by destruct (heap st !! taskId).
    + rewrite status_of_call_addTaskToHistory. unfold status_of. simpl.
      rewrite !list_lookup_alter_eq. by destruct (heap st !! taskId).
    + intros u Hne. rewrite admitted_call_addTaskToHistory,
        pending_call_addTaskToHistory. simpl.
      intros [Hu|Hu]; [left|by right]. by eapply elem_of_delete_other.
    + intros u Hne. by rewrite running_call_addTaskToHistory.
  - destruct (map_get taskId (runningTasks st)) as [p|]; [|done]. simpl.
    apply Placed_processQueue.
    apply (Placed_move st _ taskId); try done.
    + intros u Hne. rewrite status_of_call_addTaskToHistory. unfold status_of. simpl.
      by rewrite !list_lookup_alter_ne.
    + rewrite status_of_call_addTaskToHistory. unfold status_of. simpl.
      rewrite !list_lookup_alter_eq. by destruct (heap st !! taskId).
    + rewrite status_of_call_addTaskToHistory. unfold status_of. simpl.
      rewrite !list_lookup_alter_eq. by destruct (heap st !! taskId).
    + intros u Hne. by rewrite admitted_call_addTaskToHistory,
        pending_call_addTaskToHistory.
    + intros u Hne. rewrite running_call_addTaskToHistory. simpl.
      intros Hu. by apply keys_map_delete.
Qed.

Lemma Placed_startTask_resume st k t project now :
  suspended st !! k = Some (startTask_lookup t) →
  Placed st → Placed (startTask_resume t project now (unsuspend k st)).
Proof.
  intros Hk HP.
  assert (∀ u, u ≠ t → u ∈ pendingTasks st ∨ u ∈ admitted st →
               u ∈ pendingTasks st ∨ u ∈ admitted (unsuspend k st)) as Hothers.
  { intros u Hne [Hu|Hu]; [by left|right].
    eapply admitted_unsuspend_other; [exact Hk| |done]. simpl. congruence. }
  unfold startTask_resume. simpl.
  destruct (heap st !! t) as [obj|] eqn:E.
  - destruct project as [pr|]; cbv zeta.
    + apply (Placed_move st _ t); try done.
      * intros u Hne. unfold status_of. simpl. by rewrite !list_lookup_alter_ne.
      * unfold status_of. simpl. by rewrite !list_lookup_alter_eq, E.
      * intros _. simpl. apply keys_map_set_new.
      * intros u Hne. rewrite admitted_suspend. simpl. rewrite app_nil_r.
        by apply Hothers.
      * intros u Hne. simpl. apply keys_map_set_mono.
    + apply (Placed_move st _ t); try done.
      * intros u Hne. unfold status_of. simpl. rewrite heap_call_addTaskToHistory. simpl.
        by rewrite !list_lookup_alter_ne.
      * unfold status_of. simpl. rewrite heap_call_addTaskToHistory. simpl.
        by rewrite !list_lookup_alter_eq, E.
      * unfold status_of. simpl. rewrite heap_call_addTaskToHistory. simpl.
        by rewrite !list_lookup_alter_eq, E.
      * intros u Hne. rewrite admitted_suspend. simpl. rewrite app_nil_r.
        rewrite admitted_call_addTaskToHistory, pending_call_addTaskToHistory.
        by apply Hothers.
      * intros u Hne. simpl. by rewrite running_call_addTaskToHistory.
  - apply (Placed_move st _ t); try done.
    + unfold status_of. simpl. by rewrite E.
    + unfold status_of. simpl. by rewrite E.
Qed.

Lemma Placed_listener st task now e : Placed st → Placed (listener task now st e).
Proof.
  intros HP. destruct e as [d|d|code signal]; simpl.
  - apply (Placed_weaken st); try done.
    intros u. unfold on_output. apply status_of_mutate_keep.
    intros x. reflexivity.
  - apply (Placed_weaken st); try done.
    intros u. unfold on_error. apply status_of_mutate_keep.
    intros x. reflexivity.
  - destruct (on_exit_frame st task code now) as (Hq & Ha & Hr).
    apply (Placed_move st _ task).
    + intros u Hne. unfold status_of, on_exit. simpl.
      rewrite heap_call_addTaskToHistory.
      destruct code as [[| |]|]; simpl; by rewrite !list_lookup_alter_ne.
    + unfold status_of, on_exit. simpl. rewrite heap_call_addTaskToHistory.
      destruct code as [[| |]|]; simpl; rewrite !list_lookup_alter_eq;
        destruct (heap st !! task); simpl; repeat case_match; done.
    + unfold status_of, on_exit. simpl. rewrite heap_call_addTaskToHistory.
      destruct code as [[| |]|]; simpl; rewrite !list_lookup_alter_eq;
        destruct (heap st !! task); simpl; repeat case_match; done.
    + intros u Hne. by rewrite Hq, Ha.
    + intros u Hne Hu. rewrite Hr. by apply keys_map_delete.
    + done.
Qed.

Lemma Placed_listeners st task now es :
  Placed st → Placed (foldl (listener task now) st es).
Proof.
  revert st. induction es as [|e es IH]; intros st HP; [done|].
  simpl. by apply IH, Placed_listener.
Qed.

Lemma Placed_on_child_event st p ev now : Placed st → Placed (on_child_event p ev now st).
Proof.
  intros HP. unfold on_child_event. destruct (procs st !! p) as [sp|]; [|done].
  destruct (Spawner.on_child ev (supervisor sp)) as [cp emitted].
  apply Placed_listeners. by apply (Placed_weaken st).
Qed.

Lemma Placed_step st l : Placed st → Placed (step st l).
Proof.
  intros HP.
  destruct l as [input project now|taskId now|k project now|k|k|p ev now]; simpl.
  - by apply Placed_createTask.
  - by apply Placed_cancelTask.
  - destruct (suspended st !! k) as [[t| | |]|] eqn:E; try done.
    by apply Placed_startTask_resume.
  - destruct (suspended st !! k) as [[]|] eqn:E; try done.
    + apply (Placed_weaken st); try done.
      intros u [Hu|Hu]; [by left|right]. rewrite admitted_suspend. simpl.
      rewrite app_nil_r. by eapply admitted_unsuspend_other.
    + apply Placed_processQueue. apply (Placed_weaken st); try done.
      intros u [Hu|Hu]; [by left|right]. by eapply admitted_unsuspend_other.
  - destruct (suspended st !! k) as [[]|] eqn:E; try done.
    apply Placed_processQueue. apply (Placed_weaken st); try done.
    intros u [Hu|Hu]; [by left|right]. by eapply admitted_unsuspend_other.
  - by apply Placed_on_child_event.
Qed.

Lemma reachable_Placed st : reachable st → Placed st.
Proof.
  intros [ls ->]. unfold run.
  cut (∀ s, Placed s → Placed (foldl step s ls)).
  { intros H. apply H, Placed_init. }
  induction ls as [|l ls IH]; intros s Hs; [done|].
  simpl. by apply IH, Placed_step.
Qed.

End manager_placed.



(** ** The lifecycle engine: the record of a task *)

Section manager_shaped.
Import Manager.
Implicit Types (st : State) (l : Label) (task : TaskId).

Lemma Shaped_init : Shaped init.
Proof. split; [constructor|]. intros sp Hsp. by apply elem_of_nil in Hsp. Qed.

Lemma Shaped_same st st' :
  heap st' = heap st →
  (∀ sp, sp ∈ procs st' → ∃ sp0, sp0 ∈ procs st ∧ owner sp0 = owner sp) →
  Shaped st → Shaped st'.
Proof.
  intros Hh Hp [H1 H2]. split; rewrite Hh; [done|].
  intros sp Hsp. destruct (Hp sp Hsp) as (sp0 & Hsp0 & <-). by apply H2.
Qed.

(** A transition that writes to the record of one task [t] only. *)
Lemma Shaped_move st st' t :
  Shaped st →
  (∀ u, u ≠ t → heap st' !! u = heap st !! u) →
  (∀ x', heap st' !! t = Some x' → shaped x') →
  (∀ sp, sp ∈ procs st' → owner sp = t →
         ∃ x', heap st' !! t = Some x' ∧ is_Some (Task.startedAt x')) →
  (∀ sp, sp ∈ procs st' → owner sp ≠ t →
         ∃ sp0, sp0 ∈ procs st ∧ owner sp0 = owner sp) →
  Shaped st'.
Proof.
  intros [H1 H2] Hu Ht Hs Hp. split.
  - apply Forall_lookup. intros u x' Hx'.
    destruct (decide (u = t)) as [->|Hne]; [by apply Ht|].
    rewrite Hu in Hx' by done. by eapply (proj1 (Forall_lookup _ _) H1).
  - intros sp Hsp. destruct (decide (owner sp = t)) as [Heq|Hne].
    + rewrite Heq. by eapply Hs.
    + destruct (Hp sp Hsp Hne) as (sp0 & Hsp0 & Heq). rewrite <-Heq.
      rewrite Hu by congruence. by apply H2.
Qed.

(** The owner of a supervisor after a step owned one before it, unless
    the step completes the start of that task. *)
Lemma owners_of_step st l sp :
  sp ∈ procs (step st l) →
  (∃ sp0, sp0 ∈ procs st ∧ owner sp0 = owner sp)
  ∨ (∃ k project now obj,
       l = settle_lookup k (Some project) now ∧
       suspended st !! k = Some (startTask_lookup (owner sp)) ∧
       heap st !! owner sp = Some obj).
Proof.
  destruct (procs_step st l)
    as [->|[(k & t & pr & now & obj & -> & Hk & Hobj & ->)|(p & sp0 & cp & Hp & -> & _)]].
  - intros Hsp. left. by exists sp.
  - intros [Hsp|Hsp]%elem_of_app; [left; by exists sp|].
    apply list_elem_of_singleton in Hsp. subst sp. simpl.
    right. by exists k, pr, now, obj.
  - intros Hsp. left. apply list_elem_of_lookup in Hsp as [i Hi].
    destruct (decide (i = p)) as [->|Hne].
    + rewrite list_lookup_insert_eq in Hi by (by eapply lookup_lt_Some).
      simplify_eq. simpl. exists sp0. split; [|done]. by eapply list_elem_of_lookup_2.
    + rewrite list_lookup_insert_ne in Hi by done.
      exists sp. split; [|done]. by eapply list_elem_of_lookup_2.
Qed.

(** A transition that applies [F] to the record of [t] and creates no
    supervisor. *)
Lemma Shaped_update st st' t F :
  Shaped st →
  (∀ sp, sp ∈ procs st' → ∃ sp0, sp0 ∈ procs st ∧ owner sp0 = owner sp) →
  (∀ u, u ≠ t → heap st' !! u = heap st !! u) →
  heap st' !! t = F <$> heap st !! t →
  (∀ x, heap st !! t = Some x → shaped x → shaped (F x)) →
  (∀ x, is_Some (Task.startedAt x) → is_Some (Task.startedAt (F x))) →
  Shaped st'.
Proof.
  intros HS Hp Hu Ht HF Hstart. apply (Shaped_move st st' t); try done.
  - intros x'. rewrite Ht. destruct (heap st !! t) as [x|] eqn:E; [|done].
    intros [= <-]. apply HF; [done|].
    by eapply (proj1 (Forall_lookup _ _) (shape_tasks _ HS)).
  - intros sp Hsp Ho. destruct (Hp sp Hsp) as (sp0 & Hsp0 & Heq).
    destruct (shape_started _ HS sp0 Hsp0) as (obj & Hobj & Hs).
    rewrite Heq, Ho in Hobj. exists (F obj). rewrite Ht, Hobj. split; [done|].
    by apply Hstart.
  - intros sp Hsp _. by apply Hp.
Qed.

Local Ltac shape :=
  unfold shaped in *; simpl in *;
  repeat match goal with
         | H : Task.status _ = _ |- _ => rewrite H in *
         end;
  destruct_and?; split_and?; try done;
  try (intros ? ?; simplify_eq; eauto).

Lemma Shaped_createTask st input project now :
  Logged st → Shaped st → Shaped (createTask input project now st).2.
Proof.
  intros HL HS. unfold createTask. destruct project as [pr|]; [|done]. simpl.
  apply (Shaped_move st _ (length (heap st))); [done|..].
  - intros u Hne. rewrite heap_processQueue. simpl.
    destruct (decide (u < length (heap st))%nat).
    + by rewrite lookup_app_l.
    + rewrite (lookup_ge_None_2 (heap st ++ _)) by (rewrite length_app; simpl; lia).
      by rewrite lookup_ge_None_2 by lia.
  - intros x'. rewrite heap_processQueue. simpl.
    rewrite list_lookup_middle by done. intros [= <-].
    unfold shaped, new_task. simpl. split_and!; done.
  - intros sp. rewrite procs_processQueue. simpl. intros Hsp Ho.
    pose proof (log_owner _ HL sp Hsp). lia.
  - intros sp. rewrite procs_processQueue. simpl. eauto.
Qed.

Lemma Shaped_cancelTask st taskId now :
  (∀ sp, sp ∈ procs (cancelTask taskId now st).2 →
         ∃ sp0, sp0 ∈ procs st ∧ owner sp0 = owner sp) →
  Owned st → Shaped st → Shaped (cancelTask taskId now st).2.
Proof.
  intros Hp HO HS. revert Hp. unfold cancelTask.
  destruct (list_find _ (pendingTasks st)) as [[i t]|] eqn:E.
  - apply list_find_eq_Some in E as [-> E]. simpl. intros Hp.
    assert (taskId ∈ pendingTasks st) as Hin by (by eapply list_elem_of_lookup_2).
    pose proof (own_status_pending _ HO _ Hin) as Hst.
    eapply (Shaped_update st _ taskId); [done|done|..].
    + intros u Hne. rewrite heap_call_addTaskToHistory. simpl.
      by rewrite !list_lookup_alter_ne.
    + rewrite heap_call_addTaskToHistory. simpl.
      rewrite !list_lookup_alter_eq, <-option_fmap_compose. reflexivity.
    + intros x Hx Hsh. unfold status_of in Hst. rewrite Hx in Hst.
      simpl in Hst. simplify_eq. shape.
    + intros x. done.
  - destruct (map_get taskId (runningTasks st)) as [p|] eqn:Eg; [|done]. simpl.
    intros Hp.
    assert (taskId ∈ (runningTasks st).*1) as Hin by (apply map_get_is_Some; eauto).
    pose proof (own_status_running _ HO _ Hin) as Hst.
    eapply (Shaped_update st _ taskId); [done|done|..].
    + intros u Hne. rewrite heap_processQueue, heap_call_addTaskToHistory. simpl.
      by rewrite !list_lookup_alter_ne.
    + rewrite heap_processQueue, heap_call_addTaskToHistory. simpl.
      rewrite !list_lookup_alter_eq, <-option_fmap_compose. reflexivity.
    + intros x Hx Hsh. unfold status_of in Hst. rewrite Hx in Hst.
      simpl in Hst. simplify_eq. shape.
    + intros x. done.
Qed.

Lemma Shaped_startTask_resume st k t project now :
  suspended st !! k = Some (startTask_lookup t) →
  Owned st → Shaped st → Shaped (startTask_resume t project now (unsuspend k st)).
Proof.
  intros Hk HO HS.
  pose proof (admitted_lookup _ _ _ Hk) as Hin.
  pose proof (own_status_admitted _ HO _ Hin) as Hst.
  assert (∀ sp, sp ∈ procs st → owner sp ≠ t) as Hfresh.
  { intros sp Hsp Heq. destruct (own_started _ HO sp Hsp) as [_ Hno].
    apply Hno. by rewrite Heq. }
  unfold startTask_resume. simpl.
  destruct (heap st !! t) as [obj|] eqn:E;
    [|apply (Shaped_same st); [done|simpl; eauto|done]].
  unfold status_of in Hst. rewrite E in Hst. simpl in Hst. simplify_eq.
  pose proof (proj1 (Forall_lookup _ _) (shape_tasks _ HS) _ _ E) as Hsh.
  destruct project as [pr|]; cbv zeta.
  - apply (Shaped_move st _ t); [done|..].
    + intros u Hne. simpl. by rewrite !list_lookup_alter_ne.
    + intros x'. simpl. rewrite !list_lookup_alter_eq, E. intros [= <-]. shape.
    + intros sp _ _. simpl. rewrite !list_lookup_alter_eq, E. simpl. eauto.
    + intros sp. simpl. intros [Hsp|Hsp]%elem_of_app Hne; [eauto|].
      apply list_elem_of_singleton in Hsp. by subst sp.
  - eapply (Shaped_update st _ t); [done|..].
    + intros sp. simpl. rewrite procs_call_addTaskToHistory. simpl. eauto.
    + intros u Hne. simpl. rewrite heap_call_addTaskToHistory. simpl.
      by rewrite !list_lookup_alter_ne.
    + simpl. rewrite heap_call_addTaskToHistory. simpl.
      rewrite !list_lookup_alter_eq, <-!option_fmap_compose. reflexivity.
    + intros x Hx _. simplify_eq. shape.
    + intros x. done.
Qed.

(** The record of a task that owns a supervisor. *)
Lemma started_record st sp :
  Owned st → Placed st → Shaped st → sp ∈ procs st →
  ∃ x s, heap st !! owner sp = Some x ∧ shaped x ∧
         Task.startedAt x = Some s ∧ Task.status x ≠ pending.
Proof.
  intros HO HP HS Hsp.
  destruct (shape_started _ HS sp Hsp) as (x & Hx & [s Hs]).
  exists x, s. split_and!; try done.
  - by eapply (proj1 (Forall_lookup _ _) (shape_tasks _ HS)).
  - intros Hst. destruct (own_started _ HO sp Hsp) as [Hq Ha].
    destruct (place_pending _ HP (owner sp)); [|done..].
    unfold status_of. by rewrite Hx, <-Hst.
Qed.

Lemma Shaped_on_child_event st p ev now :
  (∀ sp, sp ∈ procs (on_child_event p ev now st) →
         ∃ sp0, sp0 ∈ procs st ∧ owner sp0 = owner sp) →
  Owned st → Placed st → Shaped st → Shaped (on_child_event p ev now st).
Proof.
  intros Hp HO HP HS. revert Hp. unfold on_child_event.
  destruct (procs st !! p) as [sp|] eqn:E; [|done].
  destruct (started_record st sp HO HP HS) as (x & s & Hx & Hsh & Hs & Hst);
    [by eapply list_elem_of_lookup_2|].
  unfold Spawner.on_child.
  destruct (Spawner.process (supervisor sp)) as [c|].
  2:{ intros Hp. apply (Shaped_same st); [done|exact Hp|done]. }
  destruct ev as [d|d|code signal|message]; cbn [foldl listener]; intros Hp.
  - eapply (Shaped_update st _ (owner sp)); [done|done|..].
    + intros u Hne. unfold on_output. simpl. by rewrite !list_lookup_alter_ne.
    + unfold on_output. simpl. rewrite !list_lookup_alter_eq. reflexivity.
    + intros y Hy _. rewrite Hx in Hy. injection Hy as <-.
      destruct (Task.status x) eqn:Es; [done|shape..].
    + intros y. done.
  - eapply (Shaped_update st _ (owner sp)); [done|done|..].
    + intros u Hne. unfold on_error. simpl. by rewrite !list_lookup_alter_ne.
    + unfold on_error. simpl. rewrite !list_lookup_alter_eq. reflexivity.
    + intros y Hy _. rewrite Hx in Hy. injection Hy as <-.
      destruct (Task.status x) eqn:Es; [done|shape..].
    + intros y. done.
  - destruct code as [[|n|n]|];
      (eapply (Shaped_update st _ (owner sp));
       [ done
       | done
       | intros u Hne; unfold on_exit; simpl; rewrite heap_call_addTaskToHistory;
         simpl; by rewrite !list_lookup_alter_ne
       | unfold on_exit; simpl; rewrite heap_call_addTaskToHistory; simpl;
         rewrite !list_lookup_alter_eq, <-!option_fmap_compose; reflexivity
       | intros y Hy _; rewrite Hx in Hy; injection Hy as <-;
         unfold shaped in *; simpl in *; rewrite ?Hs in *; simpl in *;
         repeat case_match; simpl in *; destruct_and?; split_and?; try done;
         try (intros ? ?; simplify_eq; eauto)
       | intros y; simpl; repeat case_match; done ]).
  - eapply (Shaped_update st _ (owner sp)); [done|done|..].
    + intros u Hne. unfold on_exit, on_error. simpl.
      rewrite heap_call_addTaskToHistory. simpl. by rewrite !list_lookup_alter_ne.
    + unfold on_exit, on_error. simpl. rewrite heap_call_addTaskToHistory. simpl.
      rewrite !list_lookup_alter_eq, <-!option_fmap_compose. reflexivity.
    + intros y Hy _. rewrite Hx in Hy. injection Hy as <-.
      unfold shaped in *. simpl in *. rewrite ?Hs in *. simpl in *.
      repeat case_match; simpl in *; destruct_and?; split_and?; try done;
        try (intros ? ?; simplify_eq; eauto).
    + intros y. simpl. repeat case_match; done.
Qed.

Lemma Shaped_step st l :
  Logged st → Owned st → Placed st → Shaped st → Shaped (step st l).
Proof.
  intros HL HO HP HS. pose proof (owners_of_step st l) as Hown.
  assert (∀ st', heap st' = heap st → procs st' = procs st → Shaped st') as Hsame.
  { intros st' Hh Hpr. apply (Shaped_same st); [done| |done]. rewrite Hpr. eauto. }
  destruct l as [input project now|taskId now|k project now|k|k|p ev now]; simpl.
  - by apply Shaped_createTask.
  - apply Shaped_cancelTask; [|done..].
    intros sp Hsp. destruct (Hown sp Hsp) as [?|(? & ? & ? & ? & ? & _)]; done.
  - destruct (suspended st !! k) as [[t| | |]|] eqn:E; try done.
    by apply Shaped_startTask_resume.
  - destruct (suspended st !! k) as [[]|] eqn:E; try done.
    + by apply Hsame.
    + apply Hsame; [by rewrite heap_processQueue|by rewrite procs_processQueue].
  - destruct (suspended st !! k) as [[]|] eqn:E; try done.
    apply Hsame; [by rewrite heap_processQueue|by rewrite procs_processQueue].
  - apply Shaped_on_child_event; [|done..].
    intros sp Hsp. destruct (Hown sp Hsp) as [?|(? & ? & ? & ? & ? & _)]; done.
Qed.

Lemma reachable_Shaped st : reachable st → Shaped st.
Proof.
  intros [ls ->]. unfold run.
  cut (∀ s, reachable s → Shaped s → Shaped (foldl step s ls)).
  { intros H. apply H; [by exists []|apply Shaped_init]. }
  induction ls as [|l ls IH]; intros s Hr Hs; [done|].
  simpl. apply IH; [by apply reachable_step|].
  apply Shaped_step; [by apply reachable_Logged|by apply reachable_Owned| |done].
  by apply reachable_Placed.
Qed.

End manager_shaped.

(** X26.  The record of a task fits its status.  In every reachable
    state: no task has a cost, the engine never fills in [costUsd]; a
    pending task is exactly as [createTask] built it, without dates, output
    or error text; a running task has [startedAt] and neither [completedAt]
    nor [durationMs]; a completed task has all three; a failed or cancelled
    task has [completedAt]; and whenever [durationMs] is set, the task was
    started and the duration is [completedAt] minus [startedAt]. *)
Theorem record_fits_status (st : Manager.State) (t : TaskId) (obj : Task.t) :
  Manager.reachable st →
  Manager.heap st !! t = Some obj →
  Task.costUsd obj = None ∧
  (Task.status obj = pending →
   Task.startedAt obj = None ∧ Task.completedAt obj = None ∧
   Task.durationMs obj = None ∧ Task.output obj = "" ∧ Task.error obj = None) ∧
  (Task.status obj = running →
   is_Some (Task.startedAt obj) ∧ Task.completedAt obj = None ∧
   Task.durationMs obj = None) ∧
  (Task.status obj = completed →
   is_Some (Task.startedAt obj) ∧ is_Some (Task.durationMs obj)) ∧
  (is_terminal (Task.status obj) = true → is_Some (Task.completedAt obj)) ∧
  (∀ d, Task.durationMs obj = Some d →
        ∃ s c, Task.startedAt obj = Some s ∧ Task.completedAt obj = Some c ∧
               d = c - s).
Proof.
  intros Hreach Hobj.
  pose proof (reachable_Shaped _ Hreach) as HS.
  pose proof (proj1 (Forall_lookup _ _) (Manager.shape_tasks _ HS) _ _ Hobj)
    as (Hcost & Hdur & Hst).
  split_and!; try done.
  - intros E. by rewrite E in Hst.
  - intros E. by rewrite E in Hst.
  - intros E. rewrite E in Hst. tauto.
  - destruct (Task.status obj); simpl; try done; tauto.
Qed.

Lemma record_fits_status_witness :
  Manager.reachable (Manager.run Scenario.streamed Manager.init) ∧
  ∃ obj, Manager.heap (Manager.run Scenario.streamed Manager.init) !! 0%nat = Some obj ∧
         Task.status obj = completed ∧
         Task.durationMs obj = Some 8 ∧
         Task.costUsd obj = None.
Proof.
  assert (Manager.reachable (Manager.run Scenario.streamed Manager.init)) as H
    by (eexists; reflexivity).
  split; [exact H|]. eexists. split; [reflexivity|].
  split; [reflexivity|]. split; [reflexivity|].
  eapply (proj1 (record_fits_status _ 0%nat _ H eq_refl)).
Defined.

(** ** The project inventory *)

Section inventory_facts.
Context {Project : Type} (key : Project → string).
Implicit Types (ps : list Project) (p q : Project) (id : string).

Lemma find_app_singleton id ps p :
  Inventory.find key id (ps ++ [p])
  = match Inventory.find key id ps with
    | Some q => Some q
    | None => if decide (key p = id) then Some p else None
    end.
Proof.
  unfold Inventory.find. induction ps as [|a ps IH]; simpl.
  - destruct (decide (key p = id)); reflexivity.
  - destruct (decide (key a = id)); [reflexivity|].
    destruct (list_find _ (ps ++ [p])) as [[i x]|];
      destruct (list_find _ ps) as [[j y]|]; simpl in *; exact IH.
Qed.

Lemma find_None id ps : Inventory.find key id ps = None ↔ id ∉ key <$> ps.
Proof.
  unfold Inventory.find. rewrite fmap_None, list_find_None, Forall_forall.
  rewrite list_elem_of_fmap. split.
  - intros H (p & -> & Hp). by apply (H p).
  - intros H p Hp Heq. apply H. by exists p.
Qed.

Lemma find_insert_first id ps i p q :
  list_find (λ x, key x = id) ps = Some (i, q) → key p = id →
  Inventory.find key id (<[i := p]> ps) = Some p.
Proof.
  intros (Hi & Hq & Hfirst)%list_find_Some Hp. unfold Inventory.find.
  erewrite (proj2 (list_find_Some _ _ i p)); [done|].
  split_and!; [|done|].
  - apply list_lookup_insert_eq. by eapply lookup_lt_Some.
  - intros j y Hj Hlt. rewrite list_lookup_insert_ne in Hj by lia. by eapply Hfirst.
Qed.

Lemma find_insert_other id ps i p q :
  ps !! i = Some q → key p ≠ id → key q ≠ id →
  Inventory.find key id (<[i := p]> ps) = Inventory.find key id ps.
Proof.
  unfold Inventory.find. revert i. induction ps as [|a ps IH]; intros i Hi Hp Hq; [done|].
  destruct i as [|i]; simpl in *.
  - simplify_eq. by rewrite !decide_False by done.
  - destruct (decide (key a = id)); [reflexivity|].
    specialize (IH i Hi Hp Hq).
    destruct (list_find _ (<[i:=p]> ps)) as [[j x]|];
      destruct (list_find _ ps) as [[j' y]|]; simpl in *; congruence.
Qed.

End inventory_facts.

(** X27.  [addProject] appends without looking.  On a readable inventory
    the project is added at the end, whatever ids are there; lookups of
    other ids are not affected; the new project is what [getProjectById]
    returns for its id if that id was new, but if the id was taken the
    lookup keeps returning the older project, and the new one is never
    found.  On an unreadable inventory [addProject] fails like the load. *)
Theorem addProject_appends_without_looking
    {Project : Type} (key : Project → string)
    (inventory : Inventory.ProjectInventory Project) (p : Project) (now : Z) :
  ∃ file',
    Inventory.addProject p (Some inventory) now = inr file' ∧
    Inventory.getAllProjects file' = inr (Inventory.projects inventory ++ [p]) ∧
    (∀ id, id ≠ key p →
       Inventory.getProjectById key id file'
       = Inventory.getProjectById key id (Some inventory)) ∧
    (key p ∉ key <$> Inventory.projects inventory →
       Inventory.getProjectById key (key p) file' = inr (Some p)) ∧
    (key p ∈ key <$> Inventory.projects inventory →
       Inventory.getProjectById key (key p) file'
       = Inventory.getProjectById key (key p) (Some inventory)) ∧
    Inventory.addProject p (None : Inventory.InventoryFile Project) now
    = inl Inventory.load_failed.
Proof.
  eexists. split; [reflexivity|]. simpl. split; [done|].
  unfold Inventory.getProjectById. simpl. split_and!; try done.
  - intros id Hne. rewrite find_app_singleton.
    destruct (Inventory.find key id _); [done|]. by rewrite decide_False.
  - intros Hnew. rewrite find_app_singleton.
    apply find_None in Hnew. rewrite Hnew. by rewrite decide_True.
  - intros Hold. rewrite find_app_singleton.
    destruct (Inventory.find key (key p) _) eqn:E; [done|].
    by apply find_None in E.
Qed.

Lemma addProject_appends_without_looking_witness :
  ∃ file',
    Inventory.addProject Scenario.moved_project (Some Scenario.inventory) 5 = inr file' ∧
    Inventory.getProjectById Manager.project_id "proj-1" file'
    = inr (Some Scenario.project).
Proof.
  destruct (addProject_appends_without_looking Manager.project_id
              Scenario.inventory Scenario.moved_project 5)
    as (file' & Hadd & _ & _ & _ & Hold & _).
  exists file'. split; [exact Hadd|].
  etrans; [apply Hold; vm_compute; apply list_elem_of_here|reflexivity].
Defined.

(** X28.  [updateProject] replaces the project that [getProjectById]
    finds.  When the id of the project is in a readable inventory, the
    update succeeds, a later lookup of that id returns the project given,
    lookups of other ids are not affected, and the ids of the inventory
    are the same, in the same order.  When the id is not there, the update
    fails with "Project not found: <id>"; when the inventory is
    unreadable, update and lookup both fail like the load. *)
Theorem updateProject_replaces_what_lookup_finds
    {Project : Type} (key : Project → string)
    (inventory : Inventory.ProjectInventory Project) (p : Project) (now : Z) :
  (key p ∈ key <$> Inventory.projects inventory →
   ∃ file' inventory',
     Inventory.updateProject key p (Some inventory) now = inr file' ∧
     file' = Some inventory' ∧
     Inventory.getProjectById key (key p) file' = inr (Some p) ∧
     (∀ id, id ≠ key p →
        Inventory.getProjectById key id file'
        = Inventory.getProjectById key id (Some inventory)) ∧
     key <$> Inventory.projects inventory' = key <$> Inventory.projects inventory) ∧
  (key p ∉ key <$> Inventory.projects inventory →
   Inventory.updateProject key p (Some inventory) now
   = inl (Inventory.thrown ("Project not found: " +:+ key p))) ∧
  Inventory.updateProject key p None now = inl Inventory.load_failed ∧
  Inventory.getProjectById key (key p) None = inl Inventory.load_failed.
Proof.
  split_and!; try done.
  - intros Hin. unfold Inventory.updateProject. simpl.
    destruct (list_find _ (Inventory.projects inventory)) as [[i q]|] eqn:E.
    2:{ exfalso. by apply (find_None key (key p) (Inventory.projects inventory));
          [unfold Inventory.find; rewrite E|]. }
    eexists. eexists. split; [reflexivity|]. split; [reflexivity|].
    pose proof E as (Hi & Hq & _)%list_find_Some.
    unfold Inventory.getProjectById. simpl. split_and!.
    + f_equal. by eapply find_insert_first.
    + intros id Hne. f_equal. eapply find_insert_other; [done|congruence..].
    + rewrite list_fmap_insert. apply list_insert_id.
      rewrite list_lookup_fmap, Hi. simpl. by rewrite Hq.
  - intros Hout. unfold Inventory.updateProject. simpl.
    apply (find_None key) in Hout. unfold Inventory.find in Hout.
    by destruct (list_find _ _).
Qed.

Lemma updateProject_replaces_what_lookup_finds_witness :
  ∃ file',
    Inventory.updateProject Manager.project_id Scenario.moved_project
      (Some Scenario.inventory) 5 = inr file' ∧
    Inventory.getProjectById Manager.project_id "proj-1" file'
    = inr (Some Scenario.moved_project) ∧
    Inventory.getProjectById Manager.project_id "proj-2" file'
    = inr (Some Scenario.other_project).
Proof.
  destruct (updateProject_replaces_what_lookup_finds Manager.project_id
              Scenario.inventory Scenario.moved_project 5) as (Hin & _).
  destruct Hin as (file' & inventory' & Hup & _ & Hget & Hother & _).
  { vm_compute. apply list_elem_of_here. }
  exists file'. split; [exact Hup|]. split; [exact Hget|].
  rewrite Hother; [reflexivity|done].
Defined.

(** ** The HTTP interface of the engine *)

Section routes_facts.
Import Manager.
Implicit Types (st : State) (id : TaskId).

(** What the schema lets through. *)
Lemma CreateTaskSchema_sound infinities body input :
  Routes.CreateTaskSchema infinities body = Some input →
  input_projectId input ≠ "" ∧ input_prompt input ≠ "" ∧
  ∃ b, input_maxBudget input = Some b ∧
       Routes.number infinities b = true ∧ Routes.positive b = true ∧
       (Routes.body_maxBudget <$> body = Some None → b = Number.of_Z 1).
Proof.
  unfold Routes.CreateTaskSchema. destruct body as [[pid pr mb]|]; [|done].
  cbn [Routes.body_projectId Routes.body_prompt Routes.body_maxBudget].
  destruct (Routes.string_min_1 pid) as [s|] eqn:Es; [|done].
  destruct (Routes.string_min_1 pr) as [s'|] eqn:Es'; [|done].
  assert (∀ v r, Routes.string_min_1 v = Some r → r ≠ "") as Hmin.
  { intros [[| | |r'|]|] r; simpl; try done.
    destruct (decide (r' = "")); [done|]. by intros [= <-]. }
  apply Hmin in Es, Es'.
  destruct (Routes.positive_default_1 infinities mb) as [b|] eqn:Eb; [|done].
  intros [= <-]. cbn [input_projectId input_prompt input_maxBudget].
  split_and!; [done..|]. exists b. split; [done|].
  destruct mb as [[| |q| |]|]; simpl in Eb; try done.
  - destruct (Routes.number infinities q) eqn:En; [|done].
    destruct (Routes.positive q) eqn:Ep; [|done].
    simpl in Eb. injection Eb as <-. by split_and!.
  - injection Eb as <-. split_and!; [done| |done].
    by vm_compute.
Qed.

Lemma positive_budget_is_truthy (b : Number.t) :
  Routes.positive b = true → truthy_number (Some b) = true.
Proof. destruct b as [|[]|[|n|n]]; done. Qed.

Lemma positive_budget_cases infinities (b : Number.t) :
  Routes.number infinities b = true → Routes.positive b = true →
  match b with
  | Number.fin n => 0 < n
  | Number.Infinity negative => negative = false ∧ infinities = true
  | Number.NaN => False
  end.
Proof. destruct b as [|[]|[|n|n]]; simpl; done. Qed.

Lemma getTask_is_Some st id :
  Inv st →
  is_Some (getTask id st) ↔ id ∈ pendingTasks st ∨ id ∈ (runningTasks st).*1.
Proof.
  intros HI. unfold getTask.
  destruct (list_find _ (pendingTasks st)) as [[i t]|] eqn:E.
  - apply list_find_eq_Some in E as [-> E].
    assert (id ∈ pendingTasks st) as Hin by (by eapply list_elem_of_lookup_2).
    split; [by left|]. intros _. apply lookup_lt_is_Some.
    pose proof (inv_pending _ HI) as Hb. rewrite Forall_forall in Hb. by apply Hb.
  - apply list_find_None in E. rewrite Forall_forall in E.
    destruct (map_get id (runningTasks st)) as [p|] eqn:Eg.
    + assert (id ∈ (runningTasks st).*1) as Hin by (apply map_get_is_Some; eauto).
      split; [by right|]. intros _. apply lookup_lt_is_Some. by apply keys_bound.
    + apply map_get_None in Eg. split; [by intros []|].
      intros [Hin|Hin]; [by apply E in Hin|done].
Qed.

Lemma cancelTask_true st id now :
  (cancelTask id now st).1 = true ↔ id ∈ pendingTasks st ∨ id ∈ (runningTasks st).*1.
Proof.
  unfold cancelTask.
  destruct (list_find _ (pendingTasks st)) as [[i t]|] eqn:E.
  - apply list_find_eq_Some in E as [-> E]. simpl.
    split; [|done]. intros _. left. by eapply list_elem_of_lookup_2.
  - apply list_find_None in E. rewrite Forall_forall in E.
    destruct (map_get id (runningTasks st)) as [p|] eqn:Eg; simpl.
    + split; [|done]. intros _. right. apply map_get_is_Some. eauto.
    + apply map_get_None in Eg. split; [done|].
      intros [Hin|Hin]; [by apply E in Hin|done].
Qed.

Lemma cancelTask_false st id now :
  (cancelTask id now st).1 = false → (cancelTask id now st).2 = st.
Proof.
  unfold cancelTask. destruct (list_find _ (pendingTasks st)) as [[i t]|]; [done|].
  by destruct (map_get id (runningTasks st)).
Qed.

Lemma cancelTask_status st id now :
  Inv st → (cancelTask id now st).1 = true →
  status_of id (cancelTask id now st).2 = Some cancelled.
Proof.
  intros HI Htrue. pose proof (proj1 (cancelTask_true st id now) Htrue) as Hin.
  assert (is_Some (heap st !! id)) as [obj Hobj].
  { apply lookup_lt_is_Some. destruct Hin as [Hin|Hin]; [|by apply keys_bound].
    pose proof (inv_pending _ HI) as Hb. rewrite Forall_forall in Hb. by apply Hb. }
  clear Hin. revert Htrue. unfold cancelTask, status_of.
  destruct (list_find _ (pendingTasks st)) as [[i t]|] eqn:E.
  - apply list_find_eq_Some in E as [-> E]. simpl. intros _.
    rewrite heap_call_addTaskToHistory. simpl.
    by rewrite !list_lookup_alter_eq, Hobj.
  - destruct (map_get id (runningTasks st)) as [p|]; simpl; [|done]. intros _.
    rewrite heap_processQueue, heap_call_addTaskToHistory. simpl.
    by rewrite !list_lookup_alter_eq, Hobj.
Qed.

Lemma get_task_found st id :
  Routes.status (Routes.get_task id st) = 200%nat ↔ is_Some (getTask id st).
Proof.
  unfold Routes.get_task. destruct (getTask id st); simpl.
  - split; [eauto|done].
  - split; [done|by intros []].
Qed.

Lemma get_task_codes st id :
  Routes.status (Routes.get_task id st) = 200%nat ∨
  Routes.status (Routes.get_task id st) = 404%nat.
Proof. unfold Routes.get_task. destruct (getTask id st); simpl; auto. Qed.

Lemma delete_task_done st id now :
  Routes.status (Routes.delete_task id now st).1 = 200%nat ↔
  (cancelTask id now st).1 = true.
Proof.
  unfold Routes.delete_task. by destruct (cancelTask id now st) as [[] s].
Qed.

Lemma delete_task_codes st id now :
  Routes.status (Routes.delete_task id now st).1 = 200%nat ∨
  Routes.status (Routes.delete_task id now st).1 = 404%nat.
Proof.
  unfold Routes.delete_task. destruct (cancelTask id now st) as [[] s]; simpl; auto.
Qed.

Lemma delete_task_state st id now :
  (Routes.delete_task id now st).2 = step st (call_cancelTask id now).
Proof.
  unfold Routes.delete_task. simpl. by destruct (cancelTask id now st) as [[] s].
Qed.

End routes_facts.

(** X29.  POST /api/tasks answers 201 or 400, and a task made over HTTP
    always has a turn limit.  The answer is 201 exactly when the body
    passes the schema and the project lookup answers with a project; it is
    400 with "Invalid input" when the schema rejects the body, 400 with
    "Project not found: <projectId>" when the lookup finds no such project,
    400 with the message of the error when the lookup fails (the inventory
    cannot be read), and in all three cases the engine is left as it was.
    With 201 the body of the answer is the new task, pending, with a
    budget above zero (1 when the request left it out), so that the command
    line of its worker always carries [--max-turns] with the text of
    [Math.max(25, Math.ceil(budget * 10))]. *)
Theorem post_tasks_answers
    (infinities : bool) (body : option Routes.Body) (lookup : Routes.Lookup)
    (now : Z) (st : Manager.State) :
  ∃ res st',
    Routes.post_tasks infinities body lookup now st = (res, st') ∧
    (Routes.status res = 201%nat ∨ Routes.status res = 400%nat) ∧
    (Routes.status res = 201%nat ↔
     is_Some (Routes.CreateTaskSchema infinities body) ∧
     ∃ project, lookup = Routes.lookup_answers (Some project)) ∧
    (Routes.status res = 400%nat → st' = st) ∧
    (Routes.CreateTaskSchema infinities body = None →
     Routes.payload res = Routes.payload_invalid_input) ∧
    (∀ input, Routes.CreateTaskSchema infinities body = Some input →
       lookup = Routes.lookup_answers None →
       Routes.payload res
       = Routes.payload_error ("Project not found: " +:+ input_projectId input)) ∧
    (∀ input message, Routes.CreateTaskSchema infinities body = Some input →
       lookup = Routes.lookup_rejects message →
       Routes.payload res = Routes.payload_error message) ∧
    (Routes.status res = 201%nat →
     ∃ task b,
       Routes.payload res = Routes.payload_task (Some task) ∧
       Manager.heap st' !! Task.id task = Some task ∧
       Task.status task = pending ∧
       Task.prompt task ≠ "" ∧
       Task.maxBudget task = Some b ∧
       match b with
       | Number.fin n => 0 < n
       | Number.Infinity negative => negative = false ∧ infinities = true
       | Number.NaN => False
       end ∧
       (Routes.body_maxBudget <$> body = Some None → b = Number.of_Z 1) ∧
       ∀ dir, Spawner.build_args
                {| Spawner.cwd := dir;
                   Spawner.prompt := Task.prompt task;
                   Spawner.maxBudget := Task.maxBudget task |}
              = ["-p"; Task.prompt task; "--dangerously-skip-permissions";
                 "--max-turns"; Number.toString (Spawner.max_turns b);
                 "--verbose"]).
Proof.
  unfold Routes.post_tasks.
  destruct (Routes.CreateTaskSchema infinities body) as [input|] eqn:E.
  2:{ eexists _, _. split; [reflexivity|]. simpl.
      split_and!; try done; [by right|split; [done|intros [[? ?] _]; done]]. }
  destruct (CreateTaskSchema_sound _ _ _ E)
    as (Hpid & Hprompt & b & Hb & Hnum & Hpos & Hdef).
  destruct lookup as [[pr|]|message].
  3:{ eexists _, _. split; [reflexivity|]. simpl.
      split_and!; try done;
        [by right|split; [done|intros [_ [? ?]]; done]|by intros ? ? _ [= <-]]. }
  2:{ unfold Manager.createTask. eexists _, _. split; [reflexivity|]. simpl.
      split_and!; try done;
        [by right|split; [done|intros [_ [? ?]]; done]|by intros ? [= <-] _]. }
  unfold Manager.createTask.
  eexists _, _. split; [reflexivity|]. cbv zeta. simpl.
  rewrite heap_processQueue. simpl. rewrite list_lookup_middle by done.
  split_and!; try done; [by left|split; [eauto|done]|].
  intros _. eexists _, b. split; [reflexivity|]. simpl.
  rewrite list_lookup_middle by done.
  split_and!; try done; [by eapply positive_budget_cases|].
  intros dir. unfold Manager.new_task. cbn [Task.prompt Task.maxBudget].
  rewrite Hb. by apply build_args_with_budget, positive_budget_is_truthy.
Qed.

Lemma post_tasks_answers_witness :
  ∃ st', (Routes.post_tasks true (Some Scenario.body_without_budget)
            (Routes.lookup_answers (Some Scenario.project)) 0 Manager.init) =
         ({| Routes.status := 201;
             Routes.payload :=
               Routes.payload_task
                 (Some (Manager.new_task 0 (Scenario.input 1) 0)) |}, st').
Proof.
  destruct (post_tasks_answers true (Some Scenario.body_without_budget)
              (Routes.lookup_answers (Some Scenario.project)) 0 Manager.init)
    as (res & st' & Hpost & _).
  exists st'. rewrite Hpost. vm_compute in Hpost. by injection Hpost as <- <-.
Defined.

(** X30.  DELETE and GET on /api/tasks/:id agree on what a live task is.
    In every reachable state DELETE answers 200 or 404, and 200 exactly
    when GET answers 200, that is when the task is pending or running; a
    task whose start is in flight gets 404 from both.  A 404 leaves the
    engine as it was.  After a 200 the task is cancelled, GET answers 404
    for it, and so does a second DELETE. *)
Theorem delete_and_get_agree (st : Manager.State) (id : TaskId) (now now' : Z) :
  Manager.reachable st →
  ∃ res st',
    Routes.delete_task id now st = (res, st') ∧
    (Routes.status res = 200%nat ∨ Routes.status res = 404%nat) ∧
    (Routes.status res = 200%nat ↔
     Routes.status (Routes.get_task id st) = 200%nat) ∧
    (Routes.status res = 200%nat ↔
     id ∈ Manager.pendingTasks st ∨ id ∈ (Manager.runningTasks st).*1) ∧
    (id ∈ Manager.admitted st → Routes.status res = 404%nat) ∧
    (Routes.status res = 404%nat → st' = st) ∧
    (Routes.status res = 200%nat →
     Manager.status_of id st' = Some cancelled ∧
     Routes.status (Routes.get_task id st') = 404%nat ∧
     Routes.status (Routes.delete_task id now' st').1 = 404%nat).
Proof.
  intros Hreach.
  pose proof (reachable_Inv _ Hreach) as HI.
  pose proof (reachable_Owned _ Hreach) as HO.
  exists (Routes.delete_task id now st).1, (Routes.delete_task id now st).2.
  split; [by destruct (Routes.delete_task id now st)|].
  pose proof (delete_task_codes st id now) as Hcodes.
  pose proof (delete_task_done st id now) as Hdone.
  pose proof (cancelTask_true st id now) as Htrue.
  assert (Routes.status (Routes.delete_task id now st).1 = 200%nat ↔
          id ∈ Manager.pendingTasks st ∨ id ∈ (Manager.runningTasks st).*1) as Hlive
    by (by rewrite Hdone).
  split_and!; try done.
  - by rewrite Hlive, get_task_found, getTask_is_Some.
  - intros Hin. destruct Hcodes as [Hc|Hc]; [|done].
    apply Hlive in Hc as [Hq|Hr].
    + by apply (Manager.inv_waiting _ HI) in Hq as [Hq _].
    + by apply (Manager.own_starting _ HO) in Hin.
  - intros H404. rewrite delete_task_state. simpl. apply cancelTask_false.
    apply not_true_is_false. intros Ht. apply Hdone in Ht.
    rewrite H404 in Ht. done.
  - intros H200. rewrite delete_task_state.
    pose proof (reachable_step st (Manager.call_cancelTask id now) Hreach) as Hreach'.
    pose proof (reachable_Inv _ Hreach') as HI'.
    pose proof (reachable_Owned _ Hreach') as HO'.
    assert (Manager.status_of id (Manager.step st (Manager.call_cancelTask id now))
            = Some cancelled) as Hst.
    { simpl. apply cancelTask_status; [done|]. by apply Hdone. }
    assert (¬ (id ∈ Manager.pendingTasks (Manager.step st (Manager.call_cancelTask id now))
               ∨ id ∈ (Manager.runningTasks
                         (Manager.step st (Manager.call_cancelTask id now))).*1))
      as Hgone.
    { intros [Hq|Hr].
      - apply (Manager.own_status_pending _ HO') in Hq. rewrite Hst in Hq. done.
      - apply (Manager.own_status_running _ HO') in Hr. rewrite Hst in Hr. done. }
    split_and!; [done| |].
    + destruct (get_task_codes (Manager.step st (Manager.call_cancelTask id now)) id)
        as [Hc|Hc]; [|done].
      exfalso. apply Hgone. apply get_task_found in Hc.
      by apply getTask_is_Some.
    + destruct (delete_task_codes
                  (Manager.step st (Manager.call_cancelTask id now)) id now')
        as [Hc|Hc]; [|done].
      exfalso. apply Hgone. apply delete_task_done in Hc.
      by apply (cancelTask_true _ _ now').
Qed.

Lemma delete_and_get_agree_witness :
  Manager.reachable Scenario.three_running_two_waiting ∧
  Routes.status (Routes.delete_task 3%nat 9 Scenario.three_running_two_waiting).1
  = 200%nat ∧
  Routes.status
    (Routes.get_task 3%nat
       (Routes.delete_task 3%nat 9 Scenario.three_running_two_waiting).2)
  = 404%nat.
Proof.
  assert (Manager.reachable Scenario.three_running_two_waiting) as H
    by (eexists; reflexivity).
  split; [exact H|]. split; [reflexivity|].
  destruct (delete_and_get_agree _ 3%nat 9 9 H)
    as (res & st' & Hdel & _ & _ & _ & _ & _ & Hafter).
  rewrite Hdel in *. simpl. apply Hafter.
  change res with (res, st').1. rewrite <-Hdel. reflexivity.
Defined.
